(** * examples/utils.py: the tiktoken-style tokenizer and its helpers

    A shallow embedding of [throttle_generator], [reload_mergeable_ranks]
    and [CustomTikTokenizer] of [examples/utils.py], with the properties the
    specification states about them.

    Python objects are modelled as follows: an [int] is a [Z]; a [bytes]
    object is a list of byte values; a [str] is a list of code points; a
    [dict] is a [gmap]; a [set] is a [gset]; a raised exception is the
    [Err] case of [result]. *)

From Stdlib Require Import ZArith NArith Lia List String Ascii.
From stdpp Require Import base tactics option list gmap sets strings pretty.

Local Open Scope Z_scope.

(** ** Exceptions and results *)

Inductive exn :=
  | AssertionError
  | KeyError
  | ValueError
  | TypeError
  | BinasciiError
  | FileNotFoundError
  | ZeroDivisionError
  | UnboundLocalError.

Inductive result (A : Type) :=
  | Ok (a : A)
  | Err (e : exn).
Arguments Ok {A} a.
Arguments Err {A} e.

#[global] Instance result_ret : MRet result := λ A a, Ok a.
#[global] Instance result_bind : MBind result := λ A B k r,
  match r with
  | Ok a => k a
  | Err e => Err e
  end.

#[global] Instance result_fmap : FMap result := λ A B f r,
  match r with
  | Ok a => Ok (f a)
  | Err e => Err e
  end.

(** [assert c]: continue when [c] holds, [AssertionError] otherwise. *)
Definition assert (c : bool) : result unit :=
  if c then Ok tt else Err AssertionError.

Definition is_ok {A} (r : result A) : Prop := ∃ a, r = Ok a.
Definition is_err {A} (r : result A) : Prop := ∃ e, r = Err e.

Definition of_option {A} (e : exn) (o : option A) : result A :=
  match o with
  | Some a => Ok a
  | None => Err e
  end.

(** [for x in xs: body] over a state [S], stopping at the first exception. *)
Fixpoint for_each {A S} (body : S → A → result S) (xs : list A) (s : S)
  : result S :=
  match xs with
  | [] => Ok s
  | x :: rest => s' ← body s x; for_each body rest s'
  end.

(** [[f(x) for x in xs]] where [f] may raise. *)
Fixpoint map_result {A B} (f : A → result B) (xs : list A) : result (list B) :=
  match xs with
  | [] => Ok []
  | x :: rest => y ← f x; ys ← map_result f rest; Ok (y :: ys)
  end.

(** [enumerate(l)] *)
Definition enumerate {A} (l : list A) : list (Z * A) :=
  imap (λ i x, (Z.of_nat i, x)) l.

(** [a % b] on Python integers: the sign follows the divisor, as for
    [Z.modulo]; a zero divisor raises. *)
Definition py_mod (a b : Z) : result Z :=
  if b =? 0 then Err ZeroDivisionError else Ok (a mod b).

(** ** [throttle_generator]

    The generator argument is the finite sequence of values it produces.  A
    run of the function is the list of values it yields together with the way
    it ends: normally, or with an exception raised after those yields. *)

Module Throttle.
Section Throttle.
Context {A : Type}.

(** The state of the [for] loop: the values yielded so far and the
    binding of [(i, out)], if the loop body has run. *)
Record loop_state := {
  yields : list A;
  bound : option (Z * A);
}.

Definition loop_body (stream_interval : Z) (st : loop_state) (io : Z * A)
  : list A * result loop_state :=
  let '(i, out) := io in
  match py_mod i stream_interval with
  | Err e => (yields st, Err e)
  | Ok r =>
      let ys := if r =? 0 then yields st ++ [out] else yields st in
      (ys, Ok {| yields := ys; bound := Some (i, out) |})
  end.

(** [enumerate(generator)] consumed by the loop; on an exception the
    yields made so far are kept. *)
Fixpoint loop (stream_interval : Z) (ios : list (Z * A)) (st : loop_state)
  : list A * result loop_state :=
  match ios with
  | [] => (yields st, Ok st)
  | io :: rest =>
      match loop_body stream_interval st io with
      | (ys, Err e) => (ys, Err e)
      | (_, Ok st') => loop stream_interval rest st'
      end
  end.

Definition throttle_generator (generator : list A) (stream_interval : Z)
  : list A * result unit :=
  match loop stream_interval (enumerate generator)
          {| yields := []; bound := None |} with
  | (ys, Err e) => (ys, Err e)
  | (ys, Ok st) =>
      match bound st with
      | None => (ys, Err UnboundLocalError)
      | Some (i, out) =>
          match py_mod i stream_interval with
          | Err e => (ys, Err e)
          | Ok r => if r =? 0 then (ys, Ok tt) else (ys ++ [out], Ok tt)
          end
      end
  end.
End Throttle.

(** The elements whose index is a multiple of [k], in order. *)
Definition multiples {A} (k : Z) (l : list A) : list A :=
  (filter (λ io : Z * A, io.1 mod k = 0) (enumerate l)).*2.

(** The last element, when its index is not a multiple of [k]. *)
Definition trailing {A} (k : Z) (l : list A) : list A :=
  match last l with
  | Some x => if (Z.of_nat (length l) - 1) mod k =? 0 then [] else [x]
  | None => []
  end.
End Throttle.

(** ** Bytes, strings and base64

    A [bytes] object is a list of integers in [0, 256).  The JSON strings of
    the vocabulary file are [string]s, one character per code point below
    256. *)

Abbreviation bytes := (list Z).

(** [bytes(ints)]: every element must be a byte value. *)
Definition py_bytes (ints : list Z) : result (list Z) :=
  if forallb (λ i, (0 <=? i) && (i <? 256)) ints then Ok ints
  else Err ValueError.

Definition code_of_ascii (c : ascii) : Z := Z.of_N (N_of_ascii c).

Fixpoint codes_of_string (s : string) : list Z :=
  match s with
  | EmptyString => []
  | String c rest => code_of_ascii c :: codes_of_string rest
  end.

(** The value of a character of the standard base64 alphabet. *)
Definition b64_value (c : Z) : option Z :=
  if (65 <=? c) && (c <=? 90) then Some (c - 65)            (* A-Z *)
  else if (97 <=? c) && (c <=? 122) then Some (c - 97 + 26) (* a-z *)
  else if (48 <=? c) && (c <=? 57) then Some (c - 48 + 52)  (* 0-9 *)
  else if c =? 43 then Some 62                              (* + *)
  else if c =? 47 then Some 63                              (* / *)
  else None.

(** The state of [binascii.a2b_base64]: position in the current group of
    four characters, the bits left over, the run of padding characters and
    the output so far. *)
Record b64_state := {
  quad_pos : Z;
  leftchar : Z;
  pads : Z;
  bin_data : list Z;
}.

(** The state after a character of value [v]: the four characters of a
    group yield three bytes. *)
Definition b64_push (st : b64_state) (v : Z) : b64_state :=
  if quad_pos st =? 0 then
    {| quad_pos := 1; leftchar := v; pads := 0; bin_data := bin_data st |}
  else if quad_pos st =? 1 then
    {| quad_pos := 2; leftchar := Z.land v 15; pads := 0;
       bin_data :=
         bin_data st ++ [Z.lor (Z.shiftl (leftchar st) 2) (Z.shiftr v 4)] |}
  else if quad_pos st =? 2 then
    {| quad_pos := 3; leftchar := Z.land v 3; pads := 0;
       bin_data :=
         bin_data st ++ [Z.lor (Z.shiftl (leftchar st) 4) (Z.shiftr v 2)] |}
  else
    {| quad_pos := 0; leftchar := 0; pads := 0;
       bin_data := bin_data st ++ [Z.lor (Z.shiftl (leftchar st) 6) v] |}.

(** [binascii.a2b_base64(s, strict_mode=False)]: characters outside the
    alphabet are skipped; a padding character counts only from the third
    position of a group on, and a complete padding run ends the input; a
    group left incomplete at the end is an error. *)
Fixpoint a2b_base64 (s : list Z) (st : b64_state) : result (list Z) :=
  match s with
  | [] => if quad_pos st =? 0 then Ok (bin_data st) else Err BinasciiError
  | this_ch :: rest =>
      if this_ch =? 61 then
        if (2 <=? quad_pos st) && (4 <=? quad_pos st + (pads st + 1))
        then Ok (bin_data st)
        else a2b_base64 rest
               (if 2 <=? quad_pos st then
                  {| quad_pos := quad_pos st; leftchar := leftchar st;
                     pads := pads st + 1; bin_data := bin_data st |}
                else st)
      else
        match b64_value this_ch with
        | None => a2b_base64 rest st
        | Some v => a2b_base64 rest (b64_push st v)
        end
  end.

(** [base64.b64decode(s)] on a [str]: the string must be ASCII. *)
Definition b64decode (s : string) : result (list Z) :=
  let cs := codes_of_string s in
  if forallb (λ c, c <? 128) cs then
    a2b_base64 cs {| quad_pos := 0; leftchar := 0; pads := 0; bin_data := [] |}
  else Err ValueError.

(** The inverse direction, [base64.b64encode], used to write vocabulary
    files down. *)
Definition b64_char (v : Z) : ascii :=
  ascii_of_N (Z.to_N
    (if v <? 26 then v + 65
     else if v <? 52 then v - 26 + 97
     else if v <? 62 then v - 52 + 48
     else if v =? 62 then 43 else 47)).

Fixpoint b64encode (b : list Z) : string :=
  match b with
  | [] => EmptyString
  | [x] =>
      String (b64_char (Z.shiftr x 2))
        (String (b64_char (Z.shiftl (Z.land x 3) 4)) "==")
  | [x; y] =>
      String (b64_char (Z.shiftr x 2))
        (String (b64_char (Z.lor (Z.shiftl (Z.land x 3) 4) (Z.shiftr y 4)))
           (String (b64_char (Z.shiftl (Z.land y 15) 2)) "="))
  | x :: y :: z :: rest =>
      String (b64_char (Z.shiftr x 2))
        (String (b64_char (Z.lor (Z.shiftl (Z.land x 3) 4) (Z.shiftr y 4)))
           (String (b64_char (Z.lor (Z.shiftl (Z.land y 15) 2) (Z.shiftr z 6)))
              (String (b64_char (Z.land z 63)) (b64encode rest))))
  end.


(** ** The vocabulary file

    [json.load] yields a Python value.  The loader accepts a list of
    objects; the field values the file format has are integers and strings.
    [files] maps a path to the parsed content of the file stored there. *)

Inductive jvalue :=
  | JInt (z : Z)
  | JStr (s : string).

#[global] Instance jvalue_eq_dec : EqDecision jvalue.
Proof. solve_decision. Defined.

Inductive json_doc :=
  | JList (items : list (gmap string jvalue))
  | JOther.

Abbreviation file_system := (string → option json_doc).

(** [s.endswith(suffix)] *)
Definition endswith (s suffix : string) : bool :=
  let n := String.length s in
  let m := String.length suffix in
  (m <=? n)%nat && String.eqb (String.substring (n - m) m s) suffix.

(** [l[:stop]]: a negative [stop] counts from the end. *)
Definition slice_to {A} (l : list A) (stop : Z) : list A :=
  if 0 <=? stop then take (Z.to_nat stop) l
  else take (length l - Z.to_nat (- stop)) l.

(** [set(range(n))] *)
Definition set_range (n : Z) : gset Z := list_to_set (seqZ 0 n).

(** ** [reload_mergeable_ranks] *)

Definition entry_keys : gset string :=
  {[ "rank"; "token_bytes"; "token_str" ]}%string.

(** [x[key]] *)
Definition getitem (x : gmap string jvalue) (key : string) : result jvalue :=
  of_option KeyError (x !! key).

(** One iteration of the loop that builds [ranks]. *)
Definition build_rank (ranks : gmap (list Z) Z) (ix : Z * gmap string jvalue)
  : result (gmap (list Z) Z) :=
  let '(i, x) := ix in
  assert (bool_decide (dom x = entry_keys));;
  rank ← getitem x "rank";
  match rank with
  | JStr _ => Err AssertionError
  | JInt r =>
      assert (r =? i);;
      token_bytes ← getitem x "token_bytes";
      match token_bytes with
      | JInt _ => Err TypeError
      | JStr tb =>
          merge ← b64decode tb;
          seeded ← (if 256 <=? i then Ok true
                    else b ← py_bytes [i]; Ok (bool_decide (merge = b)));
          assert seeded;;
          Ok (<[merge := r]> ranks)
      end
  end.

Definition reload_mergeable_ranks (files : file_system) (path : string)
    (max_vocab : option Z) : result (gmap (list Z) Z) :=
  assert (endswith path ".json");;
  doc ← of_option FileNotFoundError (files path);
  match doc with
  | JOther => Err AssertionError
  | JList items =>
      let vocab :=
        match max_vocab with
        | Some m => slice_to items m
        | None => items
        end in
      ranks ← for_each build_rank (enumerate vocab) ∅;
      assert (bool_decide (size ranks = length vocab));;
      assert (bool_decide (map_img ranks =@{gset Z}
                             set_range (Z.of_nat (size ranks))));;
      Ok ranks
  end.

(** ** Text and UTF-8

    A [str] is the list of its code points.  The tokenizer library works on
    UTF-8: text enters it as the UTF-8 encoding of its code points and
    leaves it through [bytes.decode("utf-8", errors="replace")]. *)

Abbreviation str := (list Z).

Definition is_surrogate (c : Z) : bool := (0xD800 <=? c) && (c <? 0xE000).

(** A Unicode scalar value: a code point that is not a surrogate. *)
Definition is_scalar (c : Z) : bool :=
  (0 <=? c) && (c <? 0x110000) && negb (is_surrogate c).

Definition utf8_encode_char (c : Z) : list Z :=
  if c <? 0x80 then [c]
  else if c <? 0x800 then [0xC0 + c / 64; 0x80 + c mod 64]
  else if c <? 0x10000 then
    [0xE0 + c / 4096; 0x80 + (c / 64) mod 64; 0x80 + c mod 64]
  else
    [0xF0 + c / 262144; 0x80 + (c / 4096) mod 64; 0x80 + (c / 64) mod 64;
     0x80 + c mod 64].

Definition utf8_encode (s : list Z) : list Z := flat_map utf8_encode_char s.

(** What a [str] holding surrogates becomes before it is encoded: it is
    passed through UTF-16, where a high surrogate followed by a low one is
    one code point and any other surrogate is replaced by U+FFFD. *)
Fixpoint utf16_repair (s : list Z) : list Z :=
  match s with
  | [] => []
  | c :: rest =>
      if (0xD800 <=? c) && (c <? 0xDC00) then
        match rest with
        | d :: rest' =>
            if (0xDC00 <=? d) && (d <? 0xE000)
            then (0x10000 + (c - 0xD800) * 1024 + (d - 0xDC00))
                   :: utf16_repair rest'
            else 0xFFFD :: utf16_repair rest
        | [] => [0xFFFD]
        end
      else if is_surrogate c then 0xFFFD :: utf16_repair rest
      else c :: utf16_repair rest
  end.

(** For a lead byte, the range of the second byte and the number of
    continuation bytes of a well-formed sequence. *)
Definition utf8_lead (b0 : Z) : option (Z * Z * Z) :=
  if (0xC2 <=? b0) && (b0 <=? 0xDF) then Some (0x80, 0xBF, 1)
  else if b0 =? 0xE0 then Some (0xA0, 0xBF, 2)
  else if b0 =? 0xED then Some (0x80, 0x9F, 2)
  else if (0xE1 <=? b0) && (b0 <=? 0xEF) then Some (0x80, 0xBF, 2)
  else if b0 =? 0xF0 then Some (0x90, 0xBF, 3)
  else if b0 =? 0xF4 then Some (0x80, 0x8F, 3)
  else if (0xF1 <=? b0) && (b0 <=? 0xF3) then Some (0x80, 0xBF, 3)
  else None.

Definition is_cont (b : Z) : bool := (0x80 <=? b) && (b <=? 0xBF).

(** [b.decode("utf-8", errors="replace")]: each maximal ill-formed run
    that starts a sequence becomes one U+FFFD. *)
Fixpoint utf8_decode (b : list Z) : list Z :=
  match b with
  | [] => []
  | b0 :: t0 =>
      if (0 <=? b0) && (b0 <? 0x80) then b0 :: utf8_decode t0
      else
        match utf8_lead b0 with
        | None => 0xFFFD :: utf8_decode t0
        | Some (lo, hi, n) =>
            match t0 with
            | [] => [0xFFFD]
            | b1 :: t1 =>
                if negb ((lo <=? b1) && (b1 <=? hi)) then
                  0xFFFD :: utf8_decode t0
                else if n =? 1 then
                  ((b0 - 0xC0) * 64 + (b1 - 0x80)) :: utf8_decode t1
                else
                  match t1 with
                  | [] => [0xFFFD]
                  | b2 :: t2 =>
                      if negb (is_cont b2) then 0xFFFD :: utf8_decode t1
                      else if n =? 2 then
                        ((b0 - 0xE0) * 4096 + (b1 - 0x80) * 64 + (b2 - 0x80))
                          :: utf8_decode t2
                      else
                        match t2 with
                        | [] => [0xFFFD]
                        | b3 :: t3 =>
                            if negb (is_cont b3) then 0xFFFD :: utf8_decode t2
                            else
                              ((b0 - 0xF0) * 262144 + (b1 - 0x80) * 4096
                               + (b2 - 0x80) * 64 + (b3 - 0x80))
                                :: utf8_decode t3
                        end
                  end
            end
        end
  end.

(** ** The pre-tokenization pattern

    [PATTERN_TIKTOKEN_V2] is matched by a backtracking engine: alternatives
    are tried from left to right, repetitions are greedy.  The classes
    [\p{..}] and [\s] depend on the Unicode character database, which is a
    parameter of the model. *)

Inductive general_category :=
  | Lu | Ll | Lt | Lm | Lo   (* letters, [\p{L}] *)
  | Mark                     (* [\p{M}] *)
  | Number                   (* [\p{N}] *)
  | OtherCategory.

Class UnicodeData := {
  category : Z → general_category;
  white_space : Z → bool;    (* [\s] *)
}.

Inductive regex :=
  | Class (p : Z → bool)      (* one character of a class *)
  | Seq (r1 r2 : regex)       (* [r1 r2] *)
  | Alt (r1 r2 : regex)       (* [r1|r2] *)
  | Opt (r : regex)           (* [r?] *)
  | Star (r : regex)          (* [r*] *)
  | NotAhead (r : regex).     (* [(?!r)] *)

(** [r+] *)
Definition Plus (r : regex) : regex := Seq r (Star r).

(** The iterations of [r*] for a body matched by [body]: as many as
    possible first; an iteration that consumes nothing is not taken. *)
Fixpoint star_iter {X : Type}
    (body : (list Z → option X) → list Z → option X)
    (k : list Z → option X) (fuel : nat) (s : list Z) : option X :=
  match fuel with
  | O => k s
  | S fuel' =>
      match body (λ s', if (length s' <? length s)%nat
                        then star_iter body k fuel' s' else None) s with
      | Some x => Some x
      | None => k s
      end
  end.

(** [re_match r k s]: match [r] at the start of [s] and pass what is left
    of the input to the continuation [k]; when [k] fails the next way of
    matching [r] is tried. *)
Fixpoint re_match (r : regex) {X : Type} (k : list Z → option X) (s : list Z)
  {struct r} : option X :=
  match r with
  | Class p =>
      match s with
      | c :: rest => if p c then k rest else None
      | [] => None
      end
  | Seq r1 r2 => re_match r1 (re_match r2 k) s
  | Alt r1 r2 =>
      match re_match r1 k s with
      | Some x => Some x
      | None => re_match r2 k s
      end
  | Opt r1 =>
      match re_match r1 k s with
      | Some x => Some x
      | None => k s
      end
  | Star r1 => star_iter (λ k', re_match r1 k') k (length s) s
  | NotAhead r1 =>
      match re_match r1 (λ _, Some tt) s with
      | Some _ => None
      | None => k s
      end
  end.

(** Whether every match of [r] takes at least one character. *)
Fixpoint consumes (r : regex) : bool :=
  match r with
  | Class _ => true
  | Seq r1 r2 => consumes r1 || consumes r2
  | Alt r1 r2 => consumes r1 && consumes r2
  | Opt _ | Star _ | NotAhead _ => false
  end.

(** The successive matches of [r] in [s], as [Regex.find_iter] gives them:
    where nothing matches one character is passed over. *)
Fixpoint find_iter (fuel : nat) (r : regex) (s : list Z) : list (list Z) :=
  match fuel with
  | O => []
  | S fuel' =>
      match re_match r Some s with
      | Some rest =>
          let n := (length s - length rest)%nat in
          match n, s with
          | O, [] => [[]]
          | O, _ :: s' => [] :: find_iter fuel' r s'
          | _, _ => take n s :: find_iter fuel' r rest
          end
      | None =>
          match s with
          | [] => []
          | _ :: s' => find_iter fuel' r s'
          end
      end
  end.

Definition findall (r : regex) (s : list Z) : list (list Z) :=
  find_iter (S (length s)) r s.

Section Pattern.
Context `{UnicodeData}.

Definition is_L (c : Z) : bool :=
  match category c with
  | Lu | Ll | Lt | Lm | Lo => true
  | _ => false
  end.
Definition is_N (c : Z) : bool :=
  match category c with Number => true | _ => false end.

(** [[^\r\n\p{L}\p{N}]] *)
Definition not_crlf_L_N (c : Z) : bool :=
  negb ((c =? 13) || (c =? 10) || is_L c || is_N c).
(** [[\p{Lu}\p{Lt}\p{Lm}\p{Lo}\p{M}]] *)
Definition upper_like (c : Z) : bool :=
  match category c with
  | Lu | Lt | Lm | Lo | Mark => true
  | _ => false
  end.
(** [[\p{Ll}\p{Lm}\p{Lo}\p{M}]] *)
Definition lower_like (c : Z) : bool :=
  match category c with
  | Ll | Lm | Lo | Mark => true
  | _ => false
  end.
(** [[^\s\p{L}\p{N}]] *)
Definition not_space_L_N (c : Z) : bool :=
  negb (white_space c || is_L c || is_N c).
(** [[\r\n/]] *)
Definition crlf_slash (c : Z) : bool := (c =? 13) || (c =? 10) || (c =? 47).
(** [[\r\n]] *)
Definition crlf (c : Z) : bool := (c =? 13) || (c =? 10).

Definition PATTERN_TIKTOKEN_V2 : regex :=
  Alt (Seq (Opt (Class not_crlf_L_N))
         (Seq (Star (Class upper_like)) (Plus (Class lower_like))))
 (Alt (Seq (Opt (Class not_crlf_L_N))
         (Seq (Plus (Class upper_like)) (Star (Class lower_like))))
 (Alt (Class is_N)
 (Alt (Seq (Opt (Class (λ c, c =? 32)))
         (Seq (Plus (Class not_space_L_N)) (Star (Class crlf_slash))))
 (Alt (Seq (Star (Class white_space)) (Plus (Class crlf)))
 (Alt (Seq (Plus (Class white_space))
         (NotAhead (Class (λ c, negb (white_space c)))))
      (Plus (Class white_space))))))).
End Pattern.

(** A character database for ASCII text: every code point from 128 on is
    in no class. *)
Definition ascii_data : UnicodeData := {|
  category c :=
    if (65 <=? c) && (c <=? 90) then Lu
    else if (97 <=? c) && (c <=? 122) then Ll
    else if (48 <=? c) && (c <=? 57) then Number
    else OtherCategory;
  white_space c := ((9 <=? c) && (c <=? 13)) || (c =? 32);
|}.

(** ** Python dictionaries built from items *)

(** [{k: v for k, v in items}]: a later item replaces an earlier one with
    the same key. *)
Definition dict_of_items `{Countable K} {V} (items : list (K * V)) : gmap K V :=
  fold_left (λ m kv, <[kv.1 := kv.2]> m) items ∅.

(** [{v: k for k, v in d.items()}] *)
Definition invert_dict `{Countable K} `{Countable V} (d : gmap K V) : gmap V K :=
  dict_of_items ((λ kv, (kv.2, kv.1)) <$> map_to_list d).

(** [l.index(x)] *)
Fixpoint list_index `{EqDecision A} (x : A) (l : list A) : result Z :=
  match l with
  | [] => Err ValueError
  | y :: rest => if decide (x = y) then Ok 0 else Z.succ <$> list_index x rest
  end.

(** ** The byte-pair-merge engine

    [tiktoken.Encoding] is not part of [examples/utils.py]; its encoder and
    decoder follow section 4.2 of the specification. *)

(** Modelled from the spec: the search for the adjacent pair of parts whose
    concatenation has the lowest rank (the library's merge step is missing
    from the sources).  The result is the rank and the position of the
    leftmost such pair, counted from [i]. *)
Fixpoint best_pair (ranks : gmap (list Z) Z) (parts : list (list Z)) (i : nat)
  : option (Z * nat) :=
  match parts with
  | p :: (q :: _) as rest =>
      let later := best_pair ranks rest (S i) in
      match ranks !! (p ++ q), later with
      | Some r, Some (r', j) => if r' <? r then later else Some (r, i)
      | Some r, None => Some (r, i)
      | None, _ => later
      end
  | _ => None
  end.

(** Replace the parts at positions [i] and [i + 1] by their concatenation. *)
Fixpoint merge_at (parts : list (list Z)) (i : nat) : list (list Z) :=
  match parts, i with
  | p :: q :: rest, O => (p ++ q) :: rest
  | p :: rest, S i' => p :: merge_at rest i'
  | _, _ => parts
  end.

(** Modelled from the spec: "repeatedly merge the adjacent byte-sequence
    pair with the lowest combined rank until no further merge exists in the
    table" (the library's [byte_pair_merge] is missing from the sources).
    Every merge removes one part, so [fuel] = number of parts is enough. *)
Fixpoint bpe_merge (ranks : gmap (list Z) Z) (fuel : nat)
    (parts : list (list Z)) : list (list Z) :=
  match fuel with
  | O => parts
  | S fuel' =>
      match best_pair ranks parts 0 with
      | None => parts
      | Some (_, i) => bpe_merge ranks fuel' (merge_at parts i)
      end
  end.

(** Modelled from the spec: byte-pair-merge encoding of one segment,
    "producing a sequence of ranks" (the library's [byte_pair_encode] is
    missing from the sources).  A part without a rank is an error. *)
Definition byte_pair_encode (ranks : gmap (list Z) Z) (piece : list Z)
  : result (list Z) :=
  map_result (λ part, of_option KeyError (ranks !! part))
    (bpe_merge ranks (length piece) ((λ b, [b]) <$> piece)).

Record Encoding := {
  pat_str : regex;
  mergeable_ranks : gmap (list Z) Z;
  decoder : gmap Z (list Z);
}.

(** Modelled from the spec: construction of the engine from the pattern and
    the rank table (the library's constructor is missing from the sources);
    the decoder is the inverse of the table and must have as many
    entries. *)
Definition tiktoken_Encoding (pat : regex) (ranks : gmap (list Z) Z)
  : result Encoding :=
  let dec := invert_dict ranks in
  assert (bool_decide (size dec = size ranks));;
  Ok {| pat_str := pat; mergeable_ranks := ranks; decoder := dec |}.

(** Modelled from the spec: [Encoding.encode], steps 1 to 3 of [encode]
    without the shift (the library's method is missing from the sources):
    segment the text by the pattern, encode each segment and concatenate
    the ranks in text order. *)
Definition Encoding_encode (enc : Encoding) (text : list Z) : result (list Z) :=
  let text := if forallb is_scalar text then text else utf16_repair text in
  ranks ← map_result
            (λ piece, byte_pair_encode (mergeable_ranks enc) (utf8_encode piece))
            (findall (pat_str enc) text);
  Ok (concat ranks).

(** Modelled from the spec: [Encoding.decode], step 3 of [decode] (the
    library's method is missing from the sources): "look up each rank's
    byte sequence, concatenate in order, and decode the resulting byte
    stream as text"; a rank without an entry is an error. *)
Definition Encoding_decode (enc : Encoding) (tokens : list Z) : result (list Z) :=
  parts ← map_result (λ t, of_option KeyError (decoder enc !! t)) tokens;
  Ok (utf8_decode (concat parts)).

(** ** [CustomTikTokenizer] *)

Definition DEFAULT_TIKTOKEN_MAX_VOCAB : Z := 2 ^ 17.
Definition SPECIAL_TOKENS : list string := ["<unk>"; "<s>"; "</s>"]%string.
Definition SPECIAL_TOKEN_TEMPLATE (id : Z) : string :=
  ("<SPECIAL_" +:+ pretty id +:+ ">")%string.

Record CustomTikTokenizer := {
  _unk_id : Z;
  _bos_id : Z;
  _eos_id : Z;
  _vocab_size : Z;
  num_special_tokens : Z;
  special_tokens : list string;
  inner_vocab_size : Z;
  token2id : gmap (list Z) Z;
  id2token : gmap Z (list Z);
  shifted_id2token : gmap Z (string + list Z);
  _model : Encoding;
}.

Section Tokenizer.
Context `{UnicodeData}.

(** [CustomTikTokenizer.__init__]; the call of the base class only
    records its arguments and is left out. *)
Definition CustomTikTokenizer_init (files : file_system) (path : string)
    (vocab_size : Z) (num_special_tokens : Z)
    (special_tokens : option (list string)) : result CustomTikTokenizer :=
  let special_tokens := default SPECIAL_TOKENS special_tokens in
  assert (bool_decide (length special_tokens
                       = size (list_to_set special_tokens : gset string)));;
  assert ((Z.of_nat (length special_tokens) <=? num_special_tokens)
          && (num_special_tokens <? vocab_size));;
  assert (bool_decide (list_to_set SPECIAL_TOKENS
                         ⊆@{gset string} list_to_set special_tokens));;
  unk_id ← list_index "<unk>"%string special_tokens;
  bos_id ← list_index "<s>"%string special_tokens;
  eos_id ← list_index "</s>"%string special_tokens;
  let special_filler :=
    SPECIAL_TOKEN_TEMPLATE
      <$> seqZ (Z.of_nat (length special_tokens))
            (num_special_tokens - Z.of_nat (length special_tokens)) in
  let all_special := special_tokens ++ special_filler in
  assert (bool_decide (size (list_to_set all_special : gset string)
                       = length all_special)
          && (Z.of_nat (length all_special) =? num_special_tokens));;
  let inner_vocab_size := vocab_size - num_special_tokens in
  token2id ← reload_mergeable_ranks files path (Some inner_vocab_size);
  let id2token := invert_dict token2id in
  assert (bool_decide (set_range inner_vocab_size = dom id2token));;
  let shifted_id2token :=
    map_fold (λ key value shifted,
                <[key + num_special_tokens := inr value]> shifted)
      (dict_of_items (enumerate (inl <$> all_special)))
      id2token in
  model ← tiktoken_Encoding PATTERN_TIKTOKEN_V2 token2id;
  Ok {| _unk_id := unk_id; _bos_id := bos_id; _eos_id := eos_id;
        _vocab_size := vocab_size;
        num_special_tokens := num_special_tokens;
        special_tokens := all_special;
        inner_vocab_size := inner_vocab_size;
        token2id := token2id; id2token := id2token;
        shifted_id2token := shifted_id2token;
        _model := model |}.
End Tokenizer.

Definition bos (self : CustomTikTokenizer) : Z := _bos_id self.
Definition eos (self : CustomTikTokenizer) : Z := _eos_id self.
Definition unk (self : CustomTikTokenizer) : Z := _unk_id self.
Definition vocab_size (self : CustomTikTokenizer) : Z := _vocab_size self.
Definition decoder_table (self : CustomTikTokenizer) := shifted_id2token self.

Definition tokenize (self : CustomTikTokenizer) (s : list Z) (bos eos : bool)
  : result (list Z) :=
  tokens ← Encoding_encode (_model self) s;
  let tokens := (λ t, t + num_special_tokens self) <$> tokens in
  let tokens := if bos then _bos_id self :: tokens else tokens in
  let tokens := if eos then tokens ++ [_eos_id self] else tokens in
  Ok tokens.

Definition detokenize (self : CustomTikTokenizer) (tokens : list Z)
  : result (list Z) :=
  let tokens :=
    (λ t, t - num_special_tokens self)
      <$> filter (λ t, t ∉ ({[ _bos_id self; _eos_id self ]} : gset Z)) tokens in
  Encoding_decode (_model self) tokens.

(** ** Writing vocabulary files down *)

(** The record of the token [b] with the given rank. *)
Definition merge_entry (rank : Z) (b : list Z) : gmap string jvalue :=
  {[ "rank"%string := JInt rank;
     "token_bytes"%string := JStr (b64encode b);
     "token_str"%string := JStr ""%string ]}.

(** The records of [tokens], in rank order. *)
Definition vocab_items (tokens : list (list Z)) : list (gmap string jvalue) :=
  (λ ib, merge_entry ib.1 ib.2) <$> enumerate tokens.

(** The file that lists [tokens] in rank order. *)
Definition vocab_file (tokens : list (list Z)) : json_doc :=
  JList (vocab_items tokens).

(** The [n] single-byte tokens [[0]], [[1]], ... *)
Definition byte_tokens (n : Z) : list (list Z) := (λ b, [b]) <$> seqZ 0 n.

(** A file system with one file. *)
Definition one_file (name : string) (doc : json_doc) : file_system :=
  λ path, if String.eqb path name then Some doc else None.

(** A small vocabulary: the 256 bytes and three merges. *)
Definition toy_tokens : list (list Z) :=
  byte_tokens 256 ++ [[97; 98]; [97; 98; 99]; [32; 97]].
Definition toy_path : string := "vocab/toy.json".
Definition toy_files : file_system := one_file toy_path (vocab_file toy_tokens).

(** A vocabulary of [n] tokens: the 256 bytes, then two-byte tokens. *)
Definition pair_tokens (n : Z) : list (list Z) :=
  byte_tokens 256 ++ ((λ i, [i / 256; i mod 256]) <$> seqZ 256 (n - 256)).

(** A vocabulary of the first [n] bytes only. *)
Definition small_files (n : Z) : file_system :=
  one_file "vocab/small.json" (vocab_file (byte_tokens n)).

(** ** Reading the loader's loop

    The work of one iteration apart from the update of [ranks]: the checks
    on the entry at position [i] and the decoding of its token. *)
Definition check_entry (ix : Z * gmap string jvalue) : result (list Z) :=
  let '(i, x) := ix in
  if bool_decide (dom x = entry_keys)
       && bool_decide (x !! "rank"%string = Some (JInt i)) then
    match x !! "token_bytes"%string with
    | Some (JStr tb) =>
        merge ← b64decode tb;
        if (256 <=? i) || bool_decide (merge = [i]) then Ok merge
        else Err AssertionError
    | Some (JInt _) => Err TypeError
    | None => Err KeyError
    end
  else Err AssertionError.

(** The table in which the [i]-th token of a list has rank [i]. *)
Definition table_of (tokens : list (list Z)) : gmap (list Z) Z :=
  dict_of_items (imap (λ i b, (b, Z.of_nat i)) tokens).

(** The vocabulary the loader works on. *)
Definition truncate {A} (items : list A) (max_vocab : option Z) : list A :=
  match max_vocab with
  | Some m => slice_to items m
  | None => items
  end.

(** A vocabulary is well formed, with [tokens] as its tokens in rank
    order, when every entry has the three fields, its rank is its position,
    its token decodes, the first 256 tokens are the single bytes in order,
    and no token occurs twice. *)
Definition valid_vocab (vocab : list (gmap string jvalue))
    (tokens : list (list Z)) : Prop :=
  Forall2 (λ ix b, check_entry ix = Ok b) (enumerate vocab) tokens
  ∧ NoDup tokens.

(** The token of an entry: [base64.b64decode(x["token_bytes"])]. *)
Definition entry_token (x : gmap string jvalue) : result (list Z) :=
  token_bytes ← getitem x "token_bytes";
  match token_bytes with
  | JStr tb => b64decode tb
  | JInt _ => Err TypeError
  end.

(** ** Reading the constructor *)

(** The placeholder labels for the slots from [n] up to
    [num_special_tokens]. *)
Definition special_filler (n : nat) (num_special_tokens : Z) : list string :=
  SPECIAL_TOKEN_TEMPLATE <$> seqZ (Z.of_nat n) (num_special_tokens - Z.of_nat n).

(** The conditions the constructor asserts on the special tokens. *)
Definition special_ok (vocab_size num_special_tokens : Z)
    (special_tokens : option (list string)) : Prop :=
  let special := default SPECIAL_TOKENS special_tokens in
  NoDup special
  ∧ Z.of_nat (length special) ≤ num_special_tokens < vocab_size
  ∧ Forall (λ label, label ∈ special) SPECIAL_TOKENS
  ∧ NoDup (special ++ special_filler (length special) num_special_tokens).

#[global] Instance special_ok_dec vs nst sp : Decision (special_ok vs nst sp).
Proof. unfold special_ok. apply _. Defined.

Definition index_or_zero (x : string) (l : list string) : Z :=
  match list_index x l with
  | Ok i => i
  | Err _ => 0
  end.

Section TokenizerOf.
Context `{UnicodeData}.

(** The tokenizer over the tokens [tokens], listed in rank order. *)
Definition tokenizer_of (vocab_size num_special_tokens : Z)
    (special_tokens : option (list string)) (tokens : list (list Z))
  : CustomTikTokenizer :=
  let special := default SPECIAL_TOKENS special_tokens in
  let all_special :=
    special ++ special_filler (length special) num_special_tokens in
  {| _unk_id := index_or_zero "<unk>" special;
     _bos_id := index_or_zero "<s>" special;
     _eos_id := index_or_zero "</s>" special;
     _vocab_size := vocab_size;
     num_special_tokens := num_special_tokens;
     special_tokens := all_special;
     inner_vocab_size := vocab_size - num_special_tokens;
     token2id := table_of tokens;
     id2token := invert_dict (table_of tokens);
     shifted_id2token :=
       map_fold (λ key value shifted,
                   <[key + num_special_tokens := inr value]> shifted)
         (dict_of_items (enumerate (inl <$> all_special)))
         (invert_dict (table_of tokens));
     _model := {| pat_str := PATTERN_TIKTOKEN_V2;
                  mergeable_ranks := table_of tokens;
                  decoder := invert_dict (table_of tokens) |} |}.
End TokenizerOf.

(** ** Reading [detokenize]

    Steps 1 and 2 of [decode] as the specification words them. *)

(** "Drop any id equal to BOS or EOS", wherever it stands. *)
Fixpoint drop_bos_eos (bos eos : Z) (ids : list Z) : list Z :=
  match ids with
  | [] => []
  | id :: rest =>
      if (id =? bos) || (id =? eos) then drop_bos_eos bos eos rest
      else id :: drop_bos_eos bos eos rest
  end.

(** "Subtract [num_special_tokens] from every remaining id". *)
Definition unshift (num_special_tokens : Z) (ids : list Z) : list Z :=
  map (λ id, id - num_special_tokens) ids.

(** ** Example tokenizers, over the ASCII character database *)

(** The tokenizer of the small vocabulary, with the three default special
    tokens. *)
Definition toy_tokenizer : CustomTikTokenizer :=
  @tokenizer_of ascii_data 262 3 None toy_tokens.

(** A tokenizer whose vocabulary is the first 97 bytes only. *)
Definition small_tokenizer : CustomTikTokenizer :=
  @tokenizer_of ascii_data 100 3 None (byte_tokens 97).

(** ** The other members of [CustomTikTokenizer] *)

Definition pad_token_id (self : CustomTikTokenizer) : Z := _eos_id self.
Definition eod (self : CustomTikTokenizer) : Z := _eos_id self.
Definition vocab (self : CustomTikTokenizer) : gmap (list Z) Z := token2id self.
Definition inv_vocab (self : CustomTikTokenizer) : gmap Z (list Z) :=
  id2token self.
Definition encoder (self : CustomTikTokenizer) : gmap (list Z) Z := vocab self.

(** [print(s)] of a text on a standard output in UTF-8: a surrogate has no
    encoding there and the call raises [UnicodeEncodeError], which is a
    [ValueError].  Printing integers and lists of integers cannot fail and is
    left out of the definitions below. *)
Definition print_str (s : list Z) : result unit :=
  if forallb (λ c, negb (is_surrogate c)) s then Ok tt else Err ValueError.

Module TikTokenizer.
(** [CustomTikTokenizer.encode]: the text is tokenized, the ids are
    detokenized for the log, and the text is tokenized again for the
    result. *)
Definition encode (self : CustomTikTokenizer) (curr_text : list Z)
    (add_special_tokens truncation : bool) (max_length : Z)
  : result (list Z) :=
  print_str curr_text;;
  x ← tokenize self curr_text false false;
  y ← detokenize self x;
  print_str y;;
  tokenize self curr_text false false.

(** [CustomTikTokenizer.decode]: the ids are detokenized for the log and
    again for the result. *)
Definition decode (self : CustomTikTokenizer) (text : list Z)
  : result (list Z) :=
  y ← detokenize self text;
  print_str y;;
  detokenize self text.
End TikTokenizer.

(** ** [load_tokenizer] *)

Section LoadTokenizer.
Context `{UnicodeData}.

(** [load_tokenizer], called with a path as [vocab_file]: the tokenizer
    is a [CustomTikTokenizer] with the default sizes and special tokens;
    the result is the tokenizer, [None] as padding id and the EOS id as end
    id. *)
Definition load_tokenizer (files : file_system) (tokenizer_dir : option string)
    (vocab_file : string) (model_name : string)
    (model_version tokenizer_type : option string)
  : result (CustomTikTokenizer * option Z * Z) :=
  let tokenizer_type := Some "TikTokenizer"%string in
  tokenizer ← CustomTikTokenizer_init files vocab_file
                DEFAULT_TIKTOKEN_MAX_VOCAB 3 None;
  Ok (tokenizer, None, _eos_id tokenizer).
End LoadTokenizer.

(** A vocabulary of [n] tokens: the 256 bytes, then three-byte tokens. *)
Definition wide_tokens (n : Z) : list (list Z) :=
  byte_tokens 256
    ++ ((λ i, [i / 65536; (i / 256) mod 256; i mod 256]) <$> seqZ 256 (n - 256)).

(** The upper end of the slice [l[:stop]] of a list of length [len]. *)
Definition slice_stop (len : nat) (stop : Z) : Z :=
  if 0 <=? stop then stop else Z.of_nat len + stop.

(** The ids [detokenize] accepts: BOS, EOS and the shifted ranks. *)
Definition decodable (self : CustomTikTokenizer) (id : Z) : Prop :=
  id = bos self ∨ id = eos self
  ∨ num_special_tokens self ≤ id < vocab_size self.

#[global] Instance decodable_dec (self : CustomTikTokenizer) (id : Z) :
  Decision (decodable self id).
Proof. unfold decodable. apply _. Defined.

(** ** Reading the pattern

    The words an expression can take from the input, whatever follows
    them: a lookahead takes nothing. *)
Fixpoint shape (r : regex) (w : list Z) : Prop :=
  match r with
  | Class p => ∃ c, w = [c] ∧ p c = true
  | Seq r1 r2 => ∃ w1 w2, w = w1 ++ w2 ∧ shape r1 w1 ∧ shape r2 w2
  | Alt r1 r2 => shape r1 w ∨ shape r2 w
  | Opt r1 => w = [] ∨ shape r1 w
  | Star r1 => ∃ ws, w = concat ws ∧ Forall (shape r1) ws
  | NotAhead _ => w = []
  end.

(** Every class of the expression, lookaheads apart, lies within [q]. *)
Fixpoint all_chars (q : Z → Prop) (r : regex) : Prop :=
  match r with
  | Class p => ∀ c, p c = true → q c
  | Seq r1 r2 | Alt r1 r2 => all_chars q r1 ∧ all_chars q r2
  | Opt r1 | Star r1 => all_chars q r1
  | NotAhead _ => True
  end.

Section Classes.
Context `{UnicodeData}.

(** A letter or a mark: [[\p{L}\p{M}]]. *)
Definition wordlike (c : Z) : bool := upper_like c || lower_like c.

(** In the character database no letter and no number is white space, a
    line break, a space or a slash. *)
Definition separate_classes : Prop :=
  ∀ c, is_L c = true ∨ is_N c = true
       → white_space c = false ∧ c ≠ 10 ∧ c ≠ 13 ∧ c ≠ 32 ∧ c ≠ 47.

(** The alternatives of the pattern after the two for words and the one
    for a number. *)
Definition pattern_rest : regex :=
  Alt (Seq (Opt (Class (λ c, c =? 32)))
         (Seq (Plus (Class not_space_L_N)) (Star (Class crlf_slash))))
 (Alt (Seq (Star (Class white_space)) (Plus (Class crlf)))
 (Alt (Seq (Plus (Class white_space))
         (NotAhead (Class (λ c, negb (white_space c)))))
      (Plus (Class white_space)))).
End Classes.

(** * Properties *)

(** ** Results *)

Lemma bind_ok {A B} (r : result A) (k : A → result B) (b : B) :
  r ≫= k = Ok b ↔ ∃ a, r = Ok a ∧ k a = Ok b.
Proof.
  destruct r as [a|e]; simpl; split.
  - intros Hk. by exists a.
  - by intros (a' & [= <-] & Hk).
  - done.
  - by intros (a' & [=] & _).
Qed.

Lemma assert_ok (c : bool) (u : unit) : assert c = Ok u ↔ c = true.
Proof. destruct c, u; simpl; split; done. Qed.

(** ** [throttle_generator] *)

Section ThrottleFacts.
Context {A : Type}.
Implicit Types (l : list A) (k : Z).

Lemma enumerate_snoc l x :
  enumerate (l ++ [x]) = enumerate l ++ [(Z.of_nat (length l), x)].
Proof.
  unfold enumerate. rewrite imap_app. simpl. by rewrite Nat.add_0_r.
Qed.

Lemma enumerate_lookup l i p :
  enumerate l !! i = Some p → p.1 = Z.of_nat i ∧ l !! i = Some p.2.
Proof.
  unfold enumerate. rewrite list_lookup_imap.
  destruct (l !! i) as [x|]; simpl; [|done]. by intros [= <-].
Qed.

Lemma enumerate_index_lt l p :
  p ∈ enumerate l → 0 ≤ p.1 < Z.of_nat (length l).
Proof.
  intros (i & Hi)%list_elem_of_lookup.
  pose proof (lookup_lt_Some _ _ _ Hi) as Hlt.
  apply enumerate_lookup in Hi as [-> _].
  unfold enumerate in Hlt. rewrite length_imap in Hlt. lia.
Qed.

Lemma last_cons_default {B} (d : option B) (x : B) (l : list B) :
  from_option Some d (last (x :: l)) = from_option Some (Some x) (last l).
Proof. rewrite last_cons. by destruct (last l). Qed.

Lemma loop_run k (ios : list (Z * A)) (st : Throttle.loop_state) :
  k ≠ 0 →
  Throttle.loop k ios st =
    let ys := Throttle.yields st ++ (filter (λ io, io.1 mod k = 0) ios).*2 in
    (ys, Ok {| Throttle.yields := ys;
               Throttle.bound :=
                 from_option Some (Throttle.bound st) (last ios) |}).
Proof.
  intros Hk. revert st. induction ios as [|[i out] ios IH]; intros st.
  - simpl. rewrite app_nil_r. by destruct st.
  - cbn [Throttle.loop Throttle.loop_body]. unfold py_mod.
    destruct (Z.eqb_spec k 0) as [|_]; [done|].
    rewrite filter_cons. cbn [fst].
    destruct (Z.eqb_spec (i mod k) 0) as [Hm|Hm].
    + rewrite decide_True by done. rewrite IH. cbn.
      by rewrite <- app_assoc, last_cons_default.
    + rewrite decide_False by done. rewrite IH. cbn.
      by rewrite last_cons_default.
Qed.

(** What a run over a non-empty input with a non-zero interval yields. *)
Lemma throttle_run l k :
  l ≠ [] → k ≠ 0 →
  Throttle.throttle_generator l k
  = (Throttle.multiples k l ++ Throttle.trailing k l, Ok tt).
Proof.
  intros Hl Hk. unfold Throttle.throttle_generator.
  rewrite loop_run by done. cbn.
  destruct (exists_last Hl) as (l' & x & ->).
  rewrite enumerate_snoc, last_snoc. cbn. unfold py_mod.
  destruct (Z.eqb_spec k 0) as [|_]; [done|].
  unfold Throttle.multiples, Throttle.trailing.
  rewrite enumerate_snoc, last_snoc, length_app. cbn [length].
  replace (Z.of_nat (length l' + 1) - 1) with (Z.of_nat (length l')) by lia.
  destruct (Z.of_nat (length l') mod k =? 0); by rewrite ?app_nil_r.
Qed.

Lemma multiples_head l k x :
  k ≠ 0 → head (Throttle.multiples k (x :: l)) = Some x.
Proof.
  intros Hk. unfold Throttle.multiples, enumerate.
  rewrite imap_cons, filter_cons_True; [done|]. cbn. by rewrite Z.mod_0_l.
Qed.

Lemma run_last l k x :
  last (Throttle.multiples k (l ++ [x]) ++ Throttle.trailing k (l ++ [x]))
  = Some x.
Proof.
  unfold Throttle.multiples, Throttle.trailing.
  rewrite enumerate_snoc, last_snoc, length_app, filter_app, fmap_app.
  cbn [length]. rewrite filter_cons, filter_nil. cbn [fst].
  replace (Z.of_nat (length l + 1) - 1) with (Z.of_nat (length l)) by lia.
  destruct (Z.eqb_spec (Z.of_nat (length l) mod k) 0) as [Hm|Hm].
  - rewrite decide_True by done. rewrite app_nil_r. cbn. apply last_snoc.
  - rewrite decide_False by done. cbn. rewrite !app_nil_r.
    apply last_snoc.
Qed.

(** Among the positions yielded, the last one occurs once. *)
Lemma run_last_once l k x :
  let ios := enumerate (l ++ [x]) in
  length (filter (λ io : Z * A, io.1 = Z.of_nat (length l))
            (filter (λ io, io.1 mod k = 0) ios
             ++ (if Z.of_nat (length l) mod k =? 0 then []
                 else [(Z.of_nat (length l), x)])))
  = 1%nat.
Proof.
  cbn zeta. rewrite enumerate_snoc, !filter_app.
  assert (filter (λ io : Z * A, io.1 = Z.of_nat (length l))
            (filter (λ io : Z * A, io.1 mod k = 0) (enumerate l)) = [])
    as ->.
  { apply elem_of_nil_inv.
    intros p [Hp [_ Hlt%enumerate_index_lt]%list_elem_of_filter]%list_elem_of_filter.
    lia. }
  rewrite (filter_cons (λ io : Z * A, io.1 mod k = 0)), filter_nil.
  cbn [fst].
  destruct (Z.eqb_spec (Z.of_nat (length l) mod k) 0) as [Hm|Hm].
  - rewrite decide_True by done.
    rewrite filter_cons_True by done. done.
  - rewrite decide_False by done. rewrite filter_nil.
    rewrite filter_cons_True by done. done.
Qed.
End ThrottleFacts.

Section ThrottleSpec.
Context {A : Type}.
Implicit Types (l : list A) (k : Z).

Lemma length_enumerate {B} (l : list B) : length (enumerate l) = length l.
Proof. apply length_imap. Qed.

Lemma multiples_snoc {B} k (l : list B) x :
  Throttle.multiples k (l ++ [x])
  = Throttle.multiples k l
    ++ (if Z.of_nat (length l) mod k =? 0 then [x] else []).
Proof.
  unfold Throttle.multiples.
  rewrite enumerate_snoc, filter_app, fmap_app, filter_cons, filter_nil.
  cbn [fst]. destruct (Z.eqb_spec (Z.of_nat (length l) mod k) 0).
  - by rewrite decide_True.
  - by rewrite decide_False.
Qed.

Lemma trailing_snoc {B} k (l : list B) x :
  Throttle.trailing k (l ++ [x])
  = if Z.of_nat (length l) mod k =? 0 then [] else [x].
Proof.
  unfold Throttle.trailing. rewrite last_snoc, length_app. cbn [length].
  by replace (Z.of_nat (length l + 1) - 1) with (Z.of_nat (length l)) by lia.
Qed.

(** Run on the enumerated input, the function yields the elements
    together with their positions. *)
Lemma multiples_enumerate l k :
  Throttle.multiples k (enumerate l)
  = filter (λ io : Z * A, io.1 mod k = 0) (enumerate l).
Proof.
  induction l as [|x l IH] using rev_ind; [done|].
  rewrite enumerate_snoc, multiples_snoc, IH, length_enumerate.
  rewrite filter_app, filter_cons, filter_nil. cbn [fst].
  destruct (Z.eqb_spec (Z.of_nat (length l) mod k) 0).
  - by rewrite decide_True.
  - by rewrite decide_False.
Qed.
End ThrottleSpec.

(** C10: on a non-empty input and an interval of at least 1,
    [throttle_generator] yields the elements whose index is a multiple of
    the interval, in order, and then the last element if its index is not
    such a multiple, and ends normally; so the first element it yields is
    the first of the input, the last one is the last of the input, and among
    the positions it yields the last position occurs exactly once.  On the
    empty input it yields nothing and fails, the loop variable being
    unbound. *)
Theorem throttle_generator_spec {A} (generator : list A) (stream_interval : Z) :
  generator ≠ [] → 1 ≤ stream_interval →
  let run := Throttle.throttle_generator generator stream_interval in
  let positions :=
    (Throttle.throttle_generator (enumerate generator) stream_interval).1 in
  run = (Throttle.multiples stream_interval generator
         ++ Throttle.trailing stream_interval generator, Ok tt)
  ∧ head run.1 = head generator
  ∧ last run.1 = last generator
  ∧ positions.*2 = run.1
  ∧ length (filter (λ io : Z * A, io.1 = Z.of_nat (length generator) - 1)
              positions) = 1%nat
  ∧ Throttle.throttle_generator (@nil A) stream_interval
    = ([], Err UnboundLocalError).
Proof.
  intros Hne Hk. cbn zeta.
  assert (stream_interval ≠ 0) as Hk0 by lia.
  assert (enumerate generator ≠ []) as Hne'.
  { intros Hnil%(f_equal length). rewrite length_enumerate in Hnil.
    by destruct generator. }
  rewrite !throttle_run by done. cbn [fst].
  split_and!.
  - done.
  - destruct generator as [|x l]; [done|].
    rewrite head_app, multiples_head by done. done.
  - destruct (exists_last Hne) as (l & x & ->).
    by rewrite run_last, last_snoc.
  - destruct (exists_last Hne) as (l & x & ->).
    rewrite multiples_enumerate, fmap_app.
    rewrite enumerate_snoc at 2. rewrite !trailing_snoc, length_enumerate.
    unfold Throttle.multiples at 1. f_equal.
    by destruct (Z.of_nat (length l) mod stream_interval =? 0).
  - destruct (exists_last Hne) as (l & x & ->).
    rewrite multiples_enumerate.
    rewrite enumerate_snoc at 2. rewrite trailing_snoc, length_enumerate.
    rewrite length_app. cbn [length].
    replace (Z.of_nat (length l + 1) - 1) with (Z.of_nat (length l)) by lia.
    apply run_last_once.
  - done.
Qed.


(** ** Loops over results *)

Section Loops.
Context {A B S : Type}.

Lemma map_result_ok (f : A → result B) (xs : list A) (ys : list B) :
  map_result f xs = Ok ys ↔ Forall2 (λ x y, f x = Ok y) xs ys.
Proof.
  revert ys. induction xs as [|x xs IH]; intros ys; simpl.
  - split; [by intros [= <-]; constructor | by inversion 1].
  - rewrite bind_ok. split.
    + intros (y & Hy & (ys' & Hys & [= <-])%bind_ok).
      constructor; [done | by apply IH].
    + inversion 1 as [|? y ? ys' Hy Hys]; subst.
      exists y. split; [done|]. apply bind_ok. exists ys'.
      split; [by apply IH | done].
Qed.

Lemma map_result_total (f : A → result B) (xs : list A) :
  Forall (λ x, is_ok (f x)) xs → is_ok (map_result f xs).
Proof.
  induction 1 as [|x xs [y Hy] _ [ys Hys]]; simpl.
  - by eexists.
  - rewrite Hy, Hys. by eexists.
Qed.

Lemma for_each_snoc (body : S → A → result S) xs x s :
  for_each body (xs ++ [x]) s = for_each body xs s ≫= λ s', body s' x.
Proof.
  revert s. induction xs as [|y xs IH]; intros s; simpl.
  - by destruct (body s x).
  - destruct (body s y); simpl; [apply IH | done].
Qed.
End Loops.

Lemma is_ok_not_err {A} (r : result A) : is_ok r → is_err r → False.
Proof. by intros [a ->] [e [=]]. Qed.

Lemma not_ok_is_err {A} (r : result A) : ¬ is_ok r → is_err r.
Proof. destruct r as [a|e]; [intros []; by exists a | by exists e]. Qed.

(** ** The loader's loop *)

Lemma py_bytes_byte (i : Z) : 0 ≤ i < 256 → py_bytes [i] = Ok [i].
Proof.
  intros Hi. unfold py_bytes. simpl.
  destruct (Z.leb_spec 0 i), (Z.ltb_spec i 256); simpl; done || lia.
Qed.

(** One iteration is the checks of [check_entry] followed by the update. *)
Lemma build_rank_check ranks (i : Z) x :
  0 ≤ i →
  build_rank ranks (i, x)
  = (check_entry (i, x) ≫= λ merge, Ok (<[merge := i]> ranks))
  ∨ is_err (build_rank ranks (i, x)) ∧ is_err (check_entry (i, x)).
Proof.
  intros Hi. unfold build_rank, check_entry, getitem.
  case_bool_decide as Hdom; simpl; [|right; split; by eexists].
  destruct (x !! "rank"%string) as [[r|s]|] eqn:Hr; simpl;
    [| right; split; by eexists..].
  destruct (Z.eqb_spec r i) as [->|Hne]; simpl.
  - rewrite bool_decide_eq_true_2 by done.
    destruct (x !! "token_bytes"%string) as [[z|tb]|]; simpl;
      [right; split; by eexists | | right; split; by eexists].
    destruct (b64decode tb) as [merge|e]; simpl;
      [|right; split; by eexists].
    destruct (Z.leb_spec 256 i); simpl.
    + by left.
    + rewrite py_bytes_byte by lia. simpl.
      case_bool_decide; simpl; [by left | right; split; by eexists].
  - rewrite bool_decide_eq_false_2 by congruence.
    right; split; by eexists.
Qed.

Lemma build_rank_ok ranks ranks' (i : Z) x :
  0 ≤ i →
  build_rank ranks (i, x) = Ok ranks'
  ↔ ∃ merge, check_entry (i, x) = Ok merge ∧ ranks' = <[merge := i]> ranks.
Proof.
  intros Hi. destruct (build_rank_check ranks i x Hi) as [->|[[e He] [e' He']]].
  - rewrite bind_ok. split; intros (m & Hm & H); exists m; split; congruence.
  - rewrite He, He'. split; [done | by intros (m & [=] & _)].
Qed.

Lemma dict_of_items_snoc `{Countable K} {V} (items : list (K * V)) k v :
  dict_of_items (items ++ [(k, v)]) = <[k := v]> (dict_of_items items).
Proof. unfold dict_of_items. by rewrite fold_left_app. Qed.

Lemma table_of_snoc tokens b :
  table_of (tokens ++ [b])
  = <[b := Z.of_nat (length tokens)]> (table_of tokens).
Proof.
  unfold table_of. rewrite imap_app. simpl.
  by rewrite dict_of_items_snoc, Nat.add_0_r.
Qed.

(** The loop succeeds exactly when every entry passes its checks, and then
    builds the table of the decoded tokens. *)
Lemma build_ranks_ok vocab ranks :
  for_each build_rank (enumerate vocab) ∅ = Ok ranks
  ↔ ∃ tokens, Forall2 (λ ix b, check_entry ix = Ok b) (enumerate vocab) tokens
              ∧ ranks = table_of tokens.
Proof.
  revert ranks. induction vocab as [|x vocab IH] using rev_ind; intros ranks.
  - simpl. split.
    + intros [= <-]. exists []. by split; [constructor|].
    + intros (tokens & Hall & ->). by inversion Hall.
  - rewrite enumerate_snoc, for_each_snoc, bind_ok. split.
    + intros (ranks0 & (tokens & Hall & ->)%IH & Hlast).
      apply build_rank_ok in Hlast as (b & Hb & ->); [|lia].
      exists (tokens ++ [b]). split.
      * apply Forall2_app; [done | by repeat constructor].
      * rewrite table_of_snoc. f_equal.
        apply Forall2_length in Hall. rewrite length_enumerate in Hall. lia.
    + intros (tokens & Hall & ->).
      apply Forall2_app_inv_l in Hall as (tokens0 & bs & Hall & Hlast & ->).
      inversion Hlast as [|? b ? ? Hb Hnil]; subst. inversion Hnil; subst.
      exists (table_of tokens0). split; [apply IH; by exists tokens0|].
      apply build_rank_ok; [lia|]. exists b. split; [done|].
      rewrite table_of_snoc. f_equal.
      apply Forall2_length in Hall. rewrite length_enumerate in Hall. lia.
Qed.

(** ** The table of a token list *)

Lemma table_of_lookup tokens b r :
  table_of tokens !! b = Some r
  → ∃ i : nat, r = Z.of_nat i ∧ tokens !! i = Some b.
Proof.
  induction tokens as [|t tokens IH] using rev_ind; [done|].
  rewrite table_of_snoc, lookup_insert.
  case_decide as Hb.
  - intros [= <-]. subst t. exists (length tokens).
    split; [done|]. by rewrite list_lookup_middle.
  - intros (i & -> & Hi)%IH. exists i. split; [done|].
    rewrite lookup_app_l; [done|]. by eapply lookup_lt_Some.
Qed.

Lemma table_of_dom tokens b : is_Some (table_of tokens !! b) ↔ b ∈ tokens.
Proof.
  induction tokens as [|t tokens IH] using rev_ind.
  - unfold table_of, dict_of_items. simpl. rewrite lookup_empty.
    split; [by intros [? [=]] | by intros ?%elem_of_nil].
  - rewrite table_of_snoc, lookup_insert, elem_of_app, list_elem_of_singleton.
    case_decide as Hb.
    + split; [by right | by eexists].
    + rewrite IH. split; [by left | by intros [?|?]].
Qed.

Lemma table_of_size_le tokens : (size (table_of tokens) ≤ length tokens)%nat.
Proof.
  induction tokens as [|t tokens IH] using rev_ind; [done|].
  rewrite table_of_snoc, map_size_insert, length_app. simpl.
  destruct (table_of tokens !! t); simpl; lia.
Qed.

Lemma table_of_size tokens :
  size (table_of tokens) = length tokens ↔ NoDup tokens.
Proof.
  induction tokens as [|t tokens IH] using rev_ind.
  - split; [constructor | done].
  - rewrite table_of_snoc, map_size_insert, length_app, NoDup_app. simpl.
    pose proof (table_of_size_le tokens) as Hle.
    destruct (table_of tokens !! t) as [r|] eqn:Ht; simpl.
    + split; [lia|]. intros (_ & Hnot & _).
      assert (t ∈ tokens) as Hin by (apply table_of_dom; by eexists).
      destruct (Hnot t Hin). by left.
    + split.
      * intros Hsz. split_and!.
        -- apply IH. lia.
        -- intros b Hb ->%list_elem_of_singleton.
           apply table_of_dom in Hb as [r Hr]. congruence.
        -- apply NoDup_singleton.
      * intros (Hnd%IH & _ & _). lia.
Qed.

Lemma table_of_rank tokens (i : nat) b :
  NoDup tokens → tokens !! i = Some b
  → table_of tokens !! b = Some (Z.of_nat i).
Proof.
  intros Hnd Hi.
  assert (is_Some (table_of tokens !! b)) as [r Hr].
  { apply table_of_dom. by eapply list_elem_of_lookup_2. }
  rewrite Hr. apply table_of_lookup in Hr as (j & -> & Hj).
  by rewrite (NoDup_lookup _ _ _ _ Hnd Hi Hj).
Qed.

Lemma elem_of_set_range (n r : Z) : r ∈ set_range n ↔ 0 ≤ r < n.
Proof.
  unfold set_range. rewrite elem_of_list_to_set, elem_of_seqZ. lia.
Qed.

Lemma table_of_img tokens :
  NoDup tokens
  → map_img (table_of tokens) =@{gset Z} set_range (Z.of_nat (length tokens)).
Proof.
  intros Hnd. apply set_eq. intros r.
  rewrite elem_of_map_img, elem_of_set_range. split.
  - intros (b & (i & -> & Hi)%table_of_lookup).
    apply lookup_lt_Some in Hi. lia.
  - intros Hr. destruct (lookup_lt_is_Some_2 tokens (Z.to_nat r)) as [b Hb];
      [lia|].
    exists b. rewrite (table_of_rank _ _ _ Hnd Hb). f_equal. lia.
Qed.

(** In a table of distinct tokens no two tokens share a rank. *)
Lemma table_of_inj tokens b1 b2 r :
  table_of tokens !! b1 = Some r → table_of tokens !! b2 = Some r → b1 = b2.
Proof.
  intros (i & -> & Hi)%table_of_lookup (j & Hij & Hj)%table_of_lookup.
  assert (i = j) as -> by lia. congruence.
Qed.

(** ** [reload_mergeable_ranks] *)

(** The loader returns a table exactly when the path ends in [.json], the
    file holds a list, and the list, cut to [max_vocab], is a well-formed
    vocabulary; the table is then the one of its tokens. *)
Lemma reload_ok files path max_vocab ranks :
  reload_mergeable_ranks files path max_vocab = Ok ranks
  ↔ endswith path ".json" = true
    ∧ ∃ items tokens,
        files path = Some (JList items)
        ∧ valid_vocab (truncate items max_vocab) tokens
        ∧ ranks = table_of tokens.
Proof.
  unfold reload_mergeable_ranks.
  destruct (endswith path ".json"); simpl; [|by split; [|intros [[=] _]]].
  destruct (files path) as [[items|]|]; simpl;
    [| by split; [|intros (_ & ? & ? & [=] & _)]..].
  fold (truncate items max_vocab).
  split.
  - intros (ranks0 & (tokens & Hall & ->)%build_ranks_ok & Hrest)%bind_ok.
    apply bind_ok in Hrest as ([] & Hsize%assert_ok & Hrest).
    apply bind_ok in Hrest as ([] & Himg%assert_ok & [= <-]).
    apply bool_decide_eq_true in Hsize.
    split; [done|]. exists items, tokens. split_and!; try done.
    split; [done|]. apply table_of_size. rewrite Hsize.
    apply Forall2_length in Hall. by rewrite length_enumerate in Hall.
  - intros (_ & items' & tokens & [= <-] & [Hall Hnd] & ->).
    pose proof (Forall2_length _ _ _ Hall) as Hlen.
    rewrite length_enumerate in Hlen.
    assert (size (table_of tokens) = length tokens) as Hsize
      by by apply table_of_size.
    apply bind_ok. exists (table_of tokens).
    split; [apply build_ranks_ok; by exists tokens|].
    rewrite (bool_decide_eq_true_2 (size _ = length _)) by lia. simpl.
    rewrite bool_decide_eq_true_2; [done|].
    rewrite Hsize. by apply table_of_img.
Qed.

Lemma check_entry_ok (i : Z) x b :
  check_entry (i, x) = Ok b
  ↔ dom x = entry_keys ∧ x !! "rank"%string = Some (JInt i)
    ∧ entry_token x = Ok b ∧ (i < 256 → b = [i]).
Proof.
  unfold check_entry, entry_token, getitem.
  case_bool_decide as Hdom; simpl; [|by split; [|intros [? _]]].
  case_bool_decide as Hrank; simpl; [|by split; [|intros (_ & ? & _)]].
  destruct (x !! "token_bytes"%string) as [[z|tb]|]; simpl;
    [by split; [|intros (_ & _ & [=] & _)] |
    |by split; [|intros (_ & _ & [=] & _)]].
  destruct (b64decode tb) as [merge|e]; simpl;
    [|by split; [|intros (_ & _ & [=] & _)]].
  destruct (Z.leb_spec 256 i); simpl.
  - split; [intros [= <-]; split_and!; done || lia|].
    by intros (_ & _ & [= <-] & _).
  - case_bool_decide as Hm; simpl.
    + split; [intros [= <-]; by split_and! | by intros (_ & _ & [= <-] & _)].
    + split; [done|]. intros (_ & _ & [= <-] & Hb). destruct Hm. apply Hb. lia.
Qed.

(** What the entries of a well-formed vocabulary look like. *)
Lemma valid_vocab_lookup vocab tokens (i : nat) x :
  valid_vocab vocab tokens → vocab !! i = Some x
  → ∃ b, tokens !! i = Some b ∧ check_entry (Z.of_nat i, x) = Ok b.
Proof.
  intros [Hall _] Hx.
  assert (enumerate vocab !! i = Some (Z.of_nat i, x)) as Hix.
  { unfold enumerate. by rewrite list_lookup_imap, Hx. }
  destruct (Forall2_lookup_l _ _ _ _ _ Hall Hix) as (b & Hb & Hcheck).
  by exists b.
Qed.

Lemma valid_vocab_length vocab tokens :
  valid_vocab vocab tokens → length tokens = length vocab.
Proof.
  intros [Hall%Forall2_length _]. by rewrite length_enumerate in Hall.
Qed.

(** ** Dictionaries built from items *)

Section Dicts.
Context `{Countable K} {V : Type}.

Lemma dict_of_items_nil : dict_of_items (@nil (K * V)) = ∅.
Proof. done. Qed.

Lemma dict_of_items_elem (items : list (K * V)) k v :
  dict_of_items items !! k = Some v → (k, v) ∈ items.
Proof.
  induction items as [|[k' v'] items IH] using rev_ind; [done|].
  rewrite dict_of_items_snoc, lookup_insert, elem_of_app. cbn.
  case_decide as Hk.
  - intros [= <-]. subst k'. right. by left.
  - intros Hl. left. by apply IH.
Qed.

Lemma dict_of_items_dom (items : list (K * V)) :
  dom (dict_of_items items) =@{gset K} list_to_set items.*1.
Proof.
  induction items as [|[k' v'] items IH] using rev_ind.
  - by rewrite dict_of_items_nil, dom_empty_L.
  - rewrite dict_of_items_snoc, dom_insert_L, IH, fmap_app, list_to_set_app_L.
    cbn. rewrite union_empty_r_L. apply union_comm_L.
Qed.

Lemma dict_of_items_lookup (items : list (K * V)) k v :
  NoDup items.*1 → (k, v) ∈ items → dict_of_items items !! k = Some v.
Proof.
  induction items as [|[k' v'] items IH] using rev_ind; [by intros _ ?%elem_of_nil|].
  rewrite fmap_app, NoDup_app, elem_of_app, dict_of_items_snoc, lookup_insert.
  cbn. intros (Hnd & Hnot & _) [Hin|Hin%list_elem_of_singleton].
  - rewrite decide_False; [by apply IH|].
    intros ->. apply (Hnot k); [|by left].
    apply list_elem_of_fmap. by exists (k, v).
  - injection Hin as -> ->. by rewrite decide_True.
Qed.

End Dicts.

Section InvertDict.
Context `{Countable K} `{Countable V}.

Lemma invert_dict_elem (d : gmap K V) k v :
  invert_dict d !! v = Some k → d !! k = Some v.
Proof.
  unfold invert_dict. intros Hl%dict_of_items_elem.
  apply list_elem_of_fmap in Hl as ([k' v'] & [= -> ->] & Hin).
  by apply elem_of_map_to_list in Hin.
Qed.

Lemma invert_dict_dom (d : gmap K V) :
  dom (invert_dict d) =@{gset V} map_img d.
Proof.
  unfold invert_dict. rewrite dict_of_items_dom. apply set_eq. intros v.
  rewrite elem_of_list_to_set, elem_of_map_img, list_elem_of_fmap. split.
  - intros (kv & -> & ([k' v'] & -> & Hin%elem_of_map_to_list)%list_elem_of_fmap).
    by exists k'.
  - intros (k & Hk). exists (v, k). split; [done|].
    apply list_elem_of_fmap. exists (k, v).
    split; [done | by apply elem_of_map_to_list].
Qed.

(** For a dictionary in which no two keys share a value the inverse
    dictionary is the inverse map. *)
Lemma invert_dict_lookup (d : gmap K V) k v :
  (∀ k1 k2 v', d !! k1 = Some v' → d !! k2 = Some v' → k1 = k2)
  → d !! k = Some v → invert_dict d !! v = Some k.
Proof.
  intros Hinj Hk. unfold invert_dict. apply dict_of_items_lookup.
  - rewrite <- list_fmap_compose.
    apply NoDup_fmap_2_strong; [|apply NoDup_map_to_list].
    intros [k1 v1] [k2 v2] H1%elem_of_map_to_list H2%elem_of_map_to_list.
    cbn. intros ->. f_equal. by eapply Hinj.
  - apply list_elem_of_fmap. exists (k, v).
    split; [done | by apply elem_of_map_to_list].
Qed.
End InvertDict.

(** ** The constructor *)

Lemma list_to_set_size_le `{Countable A} (l : list A) :
  (size (list_to_set l : gset A) ≤ length l)%nat.
Proof.
  induction l as [|x l IH]; [done|]. cbn [list_to_set length].
  destruct (decide (x ∈ l)) as [Hin|Hin].
  - rewrite (subseteq_union_1_L {[x]}); [lia|].
    apply singleton_subseteq_l. by apply elem_of_list_to_set.
  - rewrite size_union, size_singleton; [lia|].
    apply disjoint_singleton_l. by rewrite elem_of_list_to_set.
Qed.

Lemma list_to_set_size `{Countable A} (l : list A) :
  size (list_to_set l : gset A) = length l ↔ NoDup l.
Proof.
  split; [|apply size_list_to_set].
  induction l as [|x l IH]; [constructor|]. cbn [list_to_set length].
  pose proof (list_to_set_size_le l) as Hle.
  destruct (decide (x ∈ l)) as [Hin|Hin].
  - rewrite (subseteq_union_1_L {[x]}); [lia|].
    apply singleton_subseteq_l. by apply elem_of_list_to_set.
  - rewrite size_union, size_singleton.
    + intros Hsz. constructor; [done|]. apply IH. lia.
    + apply disjoint_singleton_l. by rewrite elem_of_list_to_set.
Qed.

Lemma list_index_elem (x : string) (l : list string) :
  x ∈ l → list_index x l = Ok (index_or_zero x l).
Proof.
  unfold index_or_zero. induction 1 as [x l|x y l _ IH]; simpl.
  - by rewrite decide_True.
  - case_decide; [done|]. rewrite IH.
    by destruct (list_index x l).
Qed.

Lemma list_index_bounds (x : string) (l : list string) (i : Z) :
  list_index x l = Ok i → 0 ≤ i < Z.of_nat (length l).
Proof.
  revert i. induction l as [|y l IH]; intros i; simpl; [done|].
  case_decide.
  - intros [= <-]. lia.
  - destruct (list_index x l) as [j|]; simpl; [|done].
    intros [= <-]. specialize (IH j eq_refl). lia.
Qed.

Lemma length_special_filler (n : nat) (nst : Z) :
  Z.of_nat n ≤ nst
  → Z.of_nat (length (special_filler n nst)) = nst - Z.of_nat n.
Proof.
  intros Hn. unfold special_filler. rewrite length_fmap, length_seqZ. lia.
Qed.

Lemma set_range_inj (n m : Z) : 0 ≤ n → 0 ≤ m → set_range n = set_range m → n = m.
Proof.
  intros Hn Hm Heq.
  destruct (Z.lt_trichotomy n m) as [Hlt|[->|Hlt]]; [|done|].
  - assert (n ∈ set_range m) as Hin by (apply elem_of_set_range; lia).
    rewrite <- Heq in Hin. apply elem_of_set_range in Hin. lia.
  - assert (m ∈ set_range n) as Hin by (apply elem_of_set_range; lia).
    rewrite Heq in Hin. apply elem_of_set_range in Hin. lia.
Qed.

Lemma size_set_range (n : nat) : size (set_range (Z.of_nat n)) = n.
Proof.
  unfold set_range. rewrite size_list_to_set by apply NoDup_seqZ.
  rewrite length_seqZ. lia.
Qed.

(** The inverse of a table of distinct tokens has one entry per token. *)
Lemma invert_table_size tokens :
  NoDup tokens → size (invert_dict (table_of tokens)) = size (table_of tokens).
Proof.
  intros Hnd. rewrite <- size_dom, invert_dict_dom, table_of_img by done.
  rewrite size_set_range. symmetry. by apply table_of_size.
Qed.

Section Constructor.
Context `{UnicodeData}.

Lemma subset_list_to_set (l1 l2 : list string) :
  list_to_set l1 ⊆@{gset string} list_to_set l2 ↔ ∀ x, x ∈ l1 → x ∈ l2.
Proof.
  split.
  - intros Hsub x Hx. apply (elem_of_list_to_set (C:=gset string)).
    apply Hsub. by apply elem_of_list_to_set.
  - intros Hall x Hx%elem_of_list_to_set. apply elem_of_list_to_set. auto.
Qed.

(** The constructor returns a tokenizer exactly when the special tokens
    pass their checks, the loader accepts the vocabulary cut to the inner
    size, and the vocabulary has that many entries; the tokenizer is then
    the one over the decoded tokens. *)
Lemma init_ok files path vs nst sp tok :
  CustomTikTokenizer_init files path vs nst sp = Ok tok
  ↔ special_ok vs nst sp ∧ endswith path ".json" = true
    ∧ ∃ items tokens,
        files path = Some (JList items)
        ∧ valid_vocab (slice_to items (vs - nst)) tokens
        ∧ Z.of_nat (length tokens) = vs - nst
        ∧ tok = tokenizer_of vs nst sp tokens.
Proof.
  unfold CustomTikTokenizer_init, special_ok, tokenizer_of.
  fold (special_filler (length (default SPECIAL_TOKENS sp)) nst).
  set (special := default SPECIAL_TOKENS sp).
  set (filler := special_filler (length special) nst).
  split.
  - intros ([] & Hnd%assert_ok & Hrest)%bind_ok.
    apply bool_decide_eq_true in Hnd. symmetry in Hnd.
    apply list_to_set_size in Hnd.
    apply bind_ok in Hrest as ([] & Hlen%assert_ok & Hrest).
    apply andb_true_iff in Hlen as [Hlen1%Z.leb_le Hlen2%Z.ltb_lt].
    apply bind_ok in Hrest as ([] & Hsub%assert_ok & Hrest).
    apply bool_decide_eq_true in Hsub.
    pose proof (proj1 (subset_list_to_set _ _) Hsub) as Hsub'.
    apply Forall_forall in Hsub'.
    apply bind_ok in Hrest as (unk_id & Hunk & Hrest).
    apply bind_ok in Hrest as (bos_id & Hbos & Hrest).
    apply bind_ok in Hrest as (eos_id & Heos & Hrest).
    apply bind_ok in Hrest as ([] & Hall%assert_ok & Hrest).
    apply andb_true_iff in Hall as [Hall%bool_decide_eq_true _].
    apply list_to_set_size in Hall.
    apply bind_ok in Hrest as (ranks & Hload & Hrest).
    apply reload_ok in Hload as (Hjson & items & tokens & Hfile & Hvalid & ->).
    apply bind_ok in Hrest as ([] & Hdom%assert_ok & Hrest).
    apply bool_decide_eq_true in Hdom.
    apply bind_ok in Hrest as (model & Hmodel & [= <-]).
    unfold tiktoken_Encoding in Hmodel.
    apply bind_ok in Hmodel as ([] & _ & [= <-]).
    destruct Hvalid as [Hforall Hnodup].
    rewrite invert_dict_dom, table_of_img in Hdom by done.
    apply set_range_inj in Hdom; [|lia..].
    split_and!; try done.
    exists items, tokens. split_and!; try done.
    unfold index_or_zero. by rewrite Hunk, Hbos, Heos.
  - intros ((Hnd & [Hlen1 Hlen2] & Hsub & Hall) & Hjson & items & tokens
            & Hfile & Hvalid & Hlen & ->).
    rewrite (bool_decide_eq_true_2 (length special = _));
      [|symmetry; by apply list_to_set_size].
    cbn [assert mbind result_bind].
    rewrite (proj2 (Z.leb_le _ _) Hlen1), (proj2 (Z.ltb_lt _ _) Hlen2).
    cbn [andb assert mbind result_bind].
    rewrite Forall_forall in Hsub.
    rewrite (bool_decide_eq_true_2 (_ ⊆ _)) by by apply subset_list_to_set.
    cbn [assert mbind result_bind].
    rewrite !list_index_elem by (apply Hsub; set_solver).
    cbn [mbind result_bind].
    rewrite (bool_decide_eq_true_2 (size _ = _)) by by apply list_to_set_size.
    assert (Z.of_nat (length (special ++ filler)) = nst) as Hlenall.
    { rewrite length_app. pose proof (length_special_filler _ _ Hlen1).
      unfold filler. lia. }
    rewrite (proj2 (Z.eqb_eq _ _) Hlenall).
    cbn [andb assert mbind result_bind].
    assert (reload_mergeable_ranks files path (Some (vs - nst))
            = Ok (table_of tokens)) as ->.
    { apply reload_ok. split; [done|]. by exists items, tokens. }
    cbn [mbind result_bind].
    destruct Hvalid as [Hforall Hnodup].
    rewrite (bool_decide_eq_true_2 (set_range _ = _)).
    2:{ rewrite invert_dict_dom, table_of_img by done. by rewrite Hlen. }
    cbn [assert mbind result_bind]. unfold tiktoken_Encoding.
    rewrite (bool_decide_eq_true_2 (size _ = size _))
      by by apply invert_table_size.
    done.
Qed.
End Constructor.

(** ** The claims about the loader *)

(** In a table the loader returns, the entry at every position decodes to
    a token whose rank is that position. *)
Lemma reload_ok_lookup files path max_vocab ranks items (i : nat) x :
  reload_mergeable_ranks files path max_vocab = Ok ranks
  → files path = Some (JList items)
  → truncate items max_vocab !! i = Some x
  → ∃ b, check_entry (Z.of_nat i, x) = Ok b ∧ ranks !! b = Some (Z.of_nat i).
Proof.
  intros (_ & items' & tokens & Hfile' & Hvalid & ->)%reload_ok Hfile Hx.
  assert (items' = items) as -> by congruence.
  destruct (valid_vocab_lookup _ _ _ _ Hvalid Hx) as (b & Hb & Hcheck).
  exists b. split; [done|]. apply table_of_rank; [apply Hvalid | done].
Qed.

(** Conversely every rank of the table is a position of the vocabulary,
    and its token is the one of the entry there. *)
Lemma reload_ok_rank files path max_vocab ranks b r :
  reload_mergeable_ranks files path max_vocab = Ok ranks
  → ranks !! b = Some r
  → ∃ items (i : nat) x,
      files path = Some (JList items) ∧ r = Z.of_nat i
      ∧ truncate items max_vocab !! i = Some x
      ∧ check_entry (r, x) = Ok b.
Proof.
  intros (_ & items & tokens & Hfile & [Hall Hnd] & ->)%reload_ok.
  intros (i & -> & Hi)%table_of_lookup.
  destruct (Forall2_lookup_r _ _ _ _ _ Hall Hi) as ([j x] & Hix & Hcheck).
  pose proof (enumerate_lookup _ _ _ Hix) as [Hj Hx]. cbn in Hj, Hx. subst j.
  by exists items, i, x.
Qed.

Lemma reload_rank_err files path max_vocab items (i : nat) x :
  files path = Some (JList items)
  → truncate items max_vocab !! i = Some x
  → x !! "rank"%string ≠ Some (JInt (Z.of_nat i))
  → is_err (reload_mergeable_ranks files path max_vocab).
Proof.
  intros Hfile Hx Hrank. apply not_ok_is_err. intros [ranks Hload].
  destruct (reload_ok_lookup _ _ _ _ _ _ _ Hload Hfile Hx)
    as (b & Hcheck & _).
  by apply check_entry_ok in Hcheck as (_ & ? & _).
Qed.

(** C3: in every table the loader returns, every rank [i] below 256 of the
    table is the rank of the one-byte sequence [[i]] (so a table of at
    least 256 entries maps [[i]] to [i] for every byte [i]); and a
    vocabulary whose entry at a position [i] below 256 does not decode to
    exactly [[i]] makes the loader fail. *)
Theorem rank_seeding files path max_vocab (i : Z) :
  0 ≤ i < 256 →
  (∀ ranks,
     reload_mergeable_ranks files path max_vocab = Ok ranks →
     (i ∈ (map_img ranks : gset Z) → ranks !! [i] = Some i)
     ∧ (256 ≤ Z.of_nat (size ranks) → ranks !! [i] = Some i))
  ∧ (∀ items x,
       files path = Some (JList items) →
       truncate items max_vocab !! Z.to_nat i = Some x →
       entry_token x ≠ Ok [i] →
       is_err (reload_mergeable_ranks files path max_vocab)).
Proof.
  intros Hi. split.
  - intros ranks Hload.
    assert (i ∈ (map_img ranks : gset Z) → ranks !! [i] = Some i) as Hrank.
    { intros (b & Hb)%elem_of_map_img.
      destruct (reload_ok_rank _ _ _ _ _ _ Hload Hb)
        as (items & j & x & _ & _ & _ & Hcheck).
      apply check_entry_ok in Hcheck as (_ & _ & _ & Hseed).
      by rewrite <- Hseed by lia. }
    split; [done|]. intros Hsize. apply Hrank.
    apply reload_ok in Hload as (_ & items & tokens & _ & [Hall Hnd] & ->).
    rewrite table_of_img by done. apply elem_of_set_range.
    apply table_of_size in Hnd. lia.
  - intros items x Hfile Hx Htoken. apply not_ok_is_err. intros [ranks Hload].
    destruct (reload_ok_lookup _ _ _ _ _ _ _ Hload Hfile Hx)
      as (b & Hcheck & _).
    rewrite Z2Nat.id in Hcheck by lia.
    apply check_entry_ok in Hcheck as (_ & _ & Htok & Hseed).
    rewrite Hseed in Htok by lia. done.
Qed.

(** C5: a vocabulary (cut to the requested maximum size) that has, at some
    position [i], an entry whose rank field is not [i] makes the loader
    raise, so that no table is returned, and makes the constructor that
    loads it raise, so that no tokenizer is returned. *)
Theorem rank_mismatch_rejected `{UnicodeData} files path max_vocab items
    (i : nat) x :
  files path = Some (JList items) →
  truncate items max_vocab !! i = Some x →
  x !! "rank"%string ≠ Some (JInt (Z.of_nat i)) →
  is_err (reload_mergeable_ranks files path max_vocab)
  ∧ ∀ vs nst sp,
      max_vocab = Some (vs - nst) →
      is_err (CustomTikTokenizer_init files path vs nst sp).
Proof.
  intros Hfile Hx Hrank.
  assert (is_err (reload_mergeable_ranks files path max_vocab)) as Herr
    by by eapply reload_rank_err.
  split; [done|]. intros vs nst sp ->. apply not_ok_is_err.
  intros [tok (_ & Hjson & items' & tokens & Hfile' & Hvalid & _)%init_ok].
  eapply is_ok_not_err; [|exact Herr].
  exists (table_of tokens). apply reload_ok. split; [done|].
  by exists items', tokens.
Qed.

(** C4: a table the loader returns has as many entries as the vocabulary
    it was built from, its ranks are exactly 0, ..., N-1 for its size N,
    and no two byte sequences share a rank; a vocabulary in which two
    entries carry the same byte sequence, or in which some rank below its
    length is the rank field of no entry, makes the loader fail. *)
Theorem loader_bijective files path max_vocab items :
  files path = Some (JList items) →
  let vocab := truncate items max_vocab in
  let loaded := reload_mergeable_ranks files path max_vocab in
  (∀ ranks,
     loaded = Ok ranks →
     size ranks = length vocab
     ∧ map_img ranks =@{gset Z} set_range (Z.of_nat (size ranks))
     ∧ (∀ r, 0 ≤ r < Z.of_nat (size ranks) → ∃ b, ranks !! b = Some r)
     ∧ (∀ b1 b2 r, ranks !! b1 = Some r → ranks !! b2 = Some r → b1 = b2))
  ∧ (∀ (i j : nat) x y b,
       i ≠ j → vocab !! i = Some x → vocab !! j = Some y →
       entry_token x = Ok b → entry_token y = Ok b → is_err loaded)
  ∧ (∀ r : nat,
       (r < length vocab)%nat →
       (∀ x, x ∈ vocab → x !! "rank"%string ≠ Some (JInt (Z.of_nat r))) →
       is_err loaded).
Proof.
  intros Hfile vocab loaded. split_and!.
  - intros ranks Hload.
    pose proof Hload as (_ & items' & tokens & Hfile' & Hvalid & ->)%reload_ok.
    assert (items' = items) as -> by congruence.
    pose proof (valid_vocab_length _ _ Hvalid) as Hlen.
    destruct Hvalid as [_ Hnd].
    pose proof (proj2 (table_of_size tokens) Hnd) as Hsize.
    split_and!.
    + by rewrite Hsize.
    + rewrite Hsize. by apply table_of_img.
    + intros r Hr.
      assert (r ∈ (map_img (table_of tokens) : gset Z)) as Hin.
      { rewrite table_of_img by done. apply elem_of_set_range. lia. }
      by apply elem_of_map_img in Hin.
    + apply table_of_inj.
  - intros i j x y b Hij Hx Hy Htx Hty. apply not_ok_is_err.
    intros [ranks Hload].
    destruct (reload_ok_lookup _ _ _ _ _ _ _ Hload Hfile Hx)
      as (bx & (_ & _ & Hbx & _)%check_entry_ok & Hrx).
    destruct (reload_ok_lookup _ _ _ _ _ _ _ Hload Hfile Hy)
      as (by' & (_ & _ & Hby & _)%check_entry_ok & Hry).
    assert (bx = b) as -> by congruence.
    assert (by' = b) as -> by congruence.
    rewrite Hrx in Hry. injection Hry as Heq. lia.
  - intros r Hr Hnone.
    destruct (lookup_lt_is_Some_2 vocab r Hr) as [x Hx].
    eapply reload_rank_err; [done.. |].
    apply Hnone. by eapply list_elem_of_lookup_2.
Qed.

(** ** The claims about the constructor *)

Lemma slice_to_nonneg {A} (l : list A) (m : Z) :
  0 ≤ m → slice_to l m = take (Z.to_nat m) l.
Proof.
  intros Hm. unfold slice_to. by destruct (Z.leb_spec 0 m); [|lia].
Qed.

(** C2: over a vocabulary file, with special tokens that pass their
    checks, the constructor succeeds exactly when the first
    [vocab_size - num_special_tokens] entries of the file are a well-formed
    vocabulary of that many entries.  With [vocab_size = 1000] and
    [num_special_tokens = 3] a well-formed file of exactly 997 entries is
    accepted, and one of 900 entries makes the constructor fail, so that
    no tokenizer is returned. *)
Theorem size_consistency `{UnicodeData} files path items vs nst sp :
  files path = Some (JList items) →
  endswith path ".json" = true →
  special_ok vs nst sp →
  (is_ok (CustomTikTokenizer_init files path vs nst sp)
   ↔ ∃ tokens, valid_vocab (slice_to items (vs - nst)) tokens
               ∧ Z.of_nat (length tokens) = vs - nst)
  ∧ (vs = 1000 → nst = 3 →
     ∀ tokens, valid_vocab items tokens →
       (length items = 997%nat
        → is_ok (CustomTikTokenizer_init files path vs nst sp))
       ∧ (length items = 900%nat
          → is_err (CustomTikTokenizer_init files path vs nst sp))).
Proof.
  intros Hfile Hjson Hsp.
  assert (is_ok (CustomTikTokenizer_init files path vs nst sp)
          ↔ ∃ tokens, valid_vocab (slice_to items (vs - nst)) tokens
                      ∧ Z.of_nat (length tokens) = vs - nst) as Hiff.
  { split.
    - intros [tok (_ & _ & items' & tokens & Hfile' & Hvalid & Hlen & _)%init_ok].
      assert (items' = items) as -> by congruence. by exists tokens.
    - intros (tokens & Hvalid & Hlen). exists (tokenizer_of vs nst sp tokens).
      apply init_ok. split_and!; try done. by exists items, tokens. }
  split; [done|]. intros -> -> tokens Hvalid.
  pose proof (valid_vocab_length _ _ Hvalid) as Hlen. split.
  - intros Hitems. apply Hiff. exists tokens.
    rewrite slice_to_nonneg, take_ge by lia. split; [done | lia].
  - intros Hitems. apply not_ok_is_err.
    intros (tokens' & Hvalid' & Hlen')%Hiff.
    apply valid_vocab_length in Hvalid'.
    rewrite slice_to_nonneg, length_take in Hvalid' by lia. lia.
Qed.


(** ** Base64: decoding what was encoded *)

Lemma forallb_range (f : Z → bool) (n : Z) :
  forallb f (seqZ 0 n) = true → ∀ x, 0 ≤ x < n → f x = true.
Proof.
  intros Hall x Hx. rewrite forallb_forall in Hall. apply Hall.
  apply list_elem_of_In, elem_of_seqZ. lia.
Qed.

Lemma b64_char_value (v : Z) :
  0 ≤ v < 64 →
  b64_value (code_of_ascii (b64_char v)) = Some v
  ∧ code_of_ascii (b64_char v) ≠ 61
  ∧ code_of_ascii (b64_char v) < 128.
Proof.
  intros Hv.
  apply (forallb_range
           (λ v, bool_decide
                   (b64_value (code_of_ascii (b64_char v)) = Some v
                    ∧ code_of_ascii (b64_char v) ≠ 61
                    ∧ code_of_ascii (b64_char v) < 128)) 64) in Hv.
  - by apply bool_decide_eq_true in Hv.
  - vm_compute. reflexivity.
Qed.

Lemma b64_bits_1 (x h : Z) :
  0 ≤ x < 256 → 0 ≤ h < 16 →
  0 ≤ Z.shiftr x 2 < 64
  ∧ 0 ≤ Z.lor (Z.shiftl (Z.land x 3) 4) h < 64
  ∧ Z.lor (Z.shiftl (Z.shiftr x 2) 2)
      (Z.shiftr (Z.lor (Z.shiftl (Z.land x 3) 4) h) 4) = x
  ∧ Z.land (Z.lor (Z.shiftl (Z.land x 3) 4) h) 15 = h.
Proof.
  intros Hx Hh.
  pose (check := λ x h : Z,
          bool_decide
            (0 ≤ Z.shiftr x 2 < 64
             ∧ 0 ≤ Z.lor (Z.shiftl (Z.land x 3) 4) h < 64
             ∧ Z.lor (Z.shiftl (Z.shiftr x 2) 2)
                 (Z.shiftr (Z.lor (Z.shiftl (Z.land x 3) 4) h) 4) = x
             ∧ Z.land (Z.lor (Z.shiftl (Z.land x 3) 4) h) 15 = h)).
  assert (forallb (λ x, forallb (check x) (seqZ 0 16)) (seqZ 0 256) = true)
    as Hall by (vm_compute; reflexivity).
  apply (forallb_range _ _ Hall) in Hx. apply (forallb_range _ _ Hx) in Hh.
  by apply bool_decide_eq_true in Hh.
Qed.

Lemma b64_bits_2 (y g : Z) :
  0 ≤ y < 256 → 0 ≤ g < 4 →
  0 ≤ Z.shiftr y 4 < 16
  ∧ 0 ≤ Z.lor (Z.shiftl (Z.land y 15) 2) g < 64
  ∧ Z.lor (Z.shiftl (Z.shiftr y 4) 4)
      (Z.shiftr (Z.lor (Z.shiftl (Z.land y 15) 2) g) 2) = y
  ∧ Z.land (Z.lor (Z.shiftl (Z.land y 15) 2) g) 3 = g.
Proof.
  intros Hy Hg.
  pose (check := λ y g : Z,
          bool_decide
            (0 ≤ Z.shiftr y 4 < 16
             ∧ 0 ≤ Z.lor (Z.shiftl (Z.land y 15) 2) g < 64
             ∧ Z.lor (Z.shiftl (Z.shiftr y 4) 4)
                 (Z.shiftr (Z.lor (Z.shiftl (Z.land y 15) 2) g) 2) = y
             ∧ Z.land (Z.lor (Z.shiftl (Z.land y 15) 2) g) 3 = g)).
  assert (forallb (λ y, forallb (check y) (seqZ 0 4)) (seqZ 0 256) = true)
    as Hall by (vm_compute; reflexivity).
  apply (forallb_range _ _ Hall) in Hy. apply (forallb_range _ _ Hy) in Hg.
  by apply bool_decide_eq_true in Hg.
Qed.

Lemma b64_bits_3 (z : Z) :
  0 ≤ z < 256 →
  0 ≤ Z.shiftr z 6 < 4
  ∧ 0 ≤ Z.land z 63 < 64
  ∧ Z.lor (Z.shiftl (Z.shiftr z 6) 6) (Z.land z 63) = z.
Proof.
  intros Hz.
  apply (forallb_range
           (λ z, bool_decide
                   (0 ≤ Z.shiftr z 6 < 4
                    ∧ 0 ≤ Z.land z 63 < 64
                    ∧ Z.lor (Z.shiftl (Z.shiftr z 6) 6) (Z.land z 63) = z))
           256) in Hz.
  - by apply bool_decide_eq_true in Hz.
  - vm_compute. reflexivity.
Qed.

(** A character of the alphabet is pushed onto the state. *)
Lemma a2b_char (v : Z) rest st :
  0 ≤ v < 64 →
  a2b_base64 (code_of_ascii (b64_char v) :: rest) st
  = a2b_base64 rest (b64_push st v).
Proof.
  intros (Hval & Hpad & _)%b64_char_value. cbn [a2b_base64].
  destruct (Z.eqb_spec (code_of_ascii (b64_char v)) 61); [done|].
  by rewrite Hval.
Qed.

Lemma b64_push_group (out : list Z) (lc p v1 v2 v3 v4 : Z) :
  b64_push
    (b64_push
       (b64_push
          (b64_push
             {| quad_pos := 0; leftchar := lc; pads := p; bin_data := out |}
             v1) v2) v3) v4
  = {| quad_pos := 0; leftchar := 0; pads := 0;
       bin_data :=
         ((out ++ [Z.lor (Z.shiftl v1 2) (Z.shiftr v2 4)])
            ++ [Z.lor (Z.shiftl (Z.land v2 15) 4) (Z.shiftr v3 2)])
           ++ [Z.lor (Z.shiftl (Z.land v3 3) 6) v4] |}.
Proof. reflexivity. Qed.

Lemma a2b_encode (b out : list Z) (lc p : Z) :
  Forall (λ x, 0 ≤ x < 256) b →
  a2b_base64 (codes_of_string (b64encode b))
    {| quad_pos := 0; leftchar := lc; pads := p; bin_data := out |}
  = Ok (out ++ b).
Proof.
  remember (length b) as n eqn:Hn. revert b out lc p Hn.
  induction n as [n IH] using lt_wf_ind. intros b out lc p Hn Hb.
  destruct b as [|x [|y [|z rest]]].
  - cbn. by rewrite app_nil_r.
  - apply Forall_cons in Hb as [Hx _].
    destruct (b64_bits_1 x 0 Hx) as (H1 & H2 & H3 & _); [lia|].
    rewrite Z.lor_0_r in H2, H3.
    cbn [b64encode codes_of_string].
    rewrite !a2b_char by done. cbn. by rewrite H3.
  - apply Forall_cons in Hb as [Hx [Hy _]%Forall_cons].
    destruct (b64_bits_2 y 0 Hy) as (Hh & H3 & H4 & _); [lia|].
    destruct (b64_bits_1 x _ Hx Hh) as (H1 & H2 & H5 & H6).
    rewrite Z.lor_0_r in H3, H4.
    cbn [b64encode codes_of_string].
    rewrite !a2b_char by done. cbn. rewrite H5, H6, H4.
    by rewrite <- app_assoc.
  - apply Forall_cons in Hb as [Hx [Hy [Hz Hrest]%Forall_cons]%Forall_cons].
    destruct (b64_bits_3 z Hz) as (Hg & H4 & H7).
    destruct (b64_bits_2 y _ Hy Hg) as (Hh & H3 & H8 & H9).
    destruct (b64_bits_1 x _ Hx Hh) as (H1 & H2 & H5 & H6).
    cbn [b64encode codes_of_string].
    rewrite !a2b_char by done. rewrite b64_push_group.
    rewrite H5, H6, H8, H9, H7.
    rewrite (IH (length rest)) by (done || (cbn in Hn; lia)).
    by rewrite <- !app_assoc.
Qed.

Lemma b64encode_ascii (b : list Z) :
  Forall (λ x, 0 ≤ x < 256) b →
  forallb (λ c, c <? 128) (codes_of_string (b64encode b)) = true.
Proof.
  remember (length b) as n eqn:Hn. revert b Hn.
  induction n as [n IH] using lt_wf_ind. intros b Hn Hb.
  assert (∀ v, 0 ≤ v < 64 → (code_of_ascii (b64_char v) <? 128) = true)
    as Hchar.
  { intros v (_ & _ & Hlt)%b64_char_value. by apply Z.ltb_lt. }
  destruct b as [|x [|y [|z rest]]].
  - done.
  - apply Forall_cons in Hb as [Hx _].
    destruct (b64_bits_1 x 0 Hx) as (H1 & H2 & _); [lia|].
    rewrite Z.lor_0_r in H2.
    cbn [b64encode codes_of_string forallb]. by rewrite !Hchar.
  - apply Forall_cons in Hb as [Hx [Hy _]%Forall_cons].
    destruct (b64_bits_2 y 0 Hy) as (Hh & H3 & _); [lia|].
    destruct (b64_bits_1 x _ Hx Hh) as (H1 & H2 & _).
    rewrite Z.lor_0_r in H3.
    cbn [b64encode codes_of_string forallb]. by rewrite !Hchar.
  - apply Forall_cons in Hb as [Hx [Hy [Hz Hrest]%Forall_cons]%Forall_cons].
    destruct (b64_bits_3 z Hz) as (Hg & H4 & _).
    destruct (b64_bits_2 y _ Hy Hg) as (Hh & H3 & _).
    destruct (b64_bits_1 x _ Hx Hh) as (H1 & H2 & _).
    cbn [b64encode codes_of_string forallb]. rewrite !Hchar by done.
    cbn [andb]. apply (IH (length rest)); [cbn in Hn; lia | done..].
Qed.

(** Decoding inverts encoding on byte strings. *)
Lemma b64decode_encode (b : list Z) :
  Forall (λ x, 0 ≤ x < 256) b → b64decode (b64encode b) = Ok b.
Proof.
  intros Hb. unfold b64decode.
  rewrite b64encode_ascii by done. by rewrite a2b_encode.
Qed.

(** ** Vocabulary files that the loader accepts *)

Lemma merge_entry_check (i : Z) (b : list Z) :
  Forall (λ x, 0 ≤ x < 256) b → (i < 256 → b = [i])
  → check_entry (i, merge_entry i b) = Ok b.
Proof.
  intros Hb Hseed. apply check_entry_ok. unfold merge_entry. split_and!.
  - rewrite !dom_insert_L, dom_singleton_L. unfold entry_keys.
    by rewrite (assoc_L (∪)).
  - by rewrite lookup_insert_eq.
  - unfold entry_token, getitem.
    rewrite lookup_insert_ne, lookup_insert_eq by done. cbn.
    by apply b64decode_encode.
  - done.
Qed.

Lemma vocab_items_snoc tokens b :
  vocab_items (tokens ++ [b])
  = vocab_items tokens ++ [merge_entry (Z.of_nat (length tokens)) b].
Proof. unfold vocab_items. by rewrite enumerate_snoc, fmap_app. Qed.

Lemma length_vocab_items tokens : length (vocab_items tokens) = length tokens.
Proof. unfold vocab_items. by rewrite length_fmap, length_enumerate. Qed.

(** The file written for distinct byte strings whose first 256 are the
    single bytes in order is a well-formed vocabulary. *)
Lemma valid_vocab_items tokens :
  Forall (Forall (λ x, 0 ≤ x < 256)) tokens
  → NoDup tokens
  → (∀ (i : nat) b, Z.of_nat i < 256 → tokens !! i = Some b → b = [Z.of_nat i])
  → valid_vocab (vocab_items tokens) tokens.
Proof.
  intros Hbytes Hnd Hseed. split; [|done]. clear Hnd.
  induction tokens as [|b tokens IH] using rev_ind; [constructor|].
  apply Forall_app in Hbytes as [Hbytes [Hb _]%Forall_cons].
  rewrite vocab_items_snoc, enumerate_snoc, length_vocab_items.
  apply Forall2_app.
  - apply IH; [done|]. intros i b' Hi Hb'. apply Hseed; [done|].
    rewrite lookup_app_l; [done|]. by eapply lookup_lt_Some.
  - repeat constructor. apply merge_entry_check; [done|].
    intros Hlt. apply Hseed; [done|]. by rewrite list_lookup_middle.
Qed.

Lemma byte_tokens_lookup (n : Z) (i : nat) b :
  byte_tokens n !! i = Some b ↔ b = [Z.of_nat i] ∧ Z.of_nat i < n.
Proof.
  unfold byte_tokens. rewrite list_lookup_fmap, fmap_Some. split.
  - intros (x & (-> & Hlt)%lookup_seqZ & ->). by rewrite Z.add_0_l.
  - intros [-> Hlt]. exists (Z.of_nat i). split; [|done].
    apply lookup_seqZ. lia.
Qed.

Lemma length_byte_tokens (n : Z) : length (byte_tokens n) = Z.to_nat n.
Proof. unfold byte_tokens. by rewrite length_fmap, length_seqZ. Qed.

Lemma byte_tokens_elem (n : Z) b :
  b ∈ byte_tokens n ↔ ∃ x, b = [x] ∧ 0 ≤ x < n.
Proof.
  unfold byte_tokens. rewrite list_elem_of_fmap. split.
  - intros (x & -> & Hx%elem_of_seqZ). exists x. split; [done | lia].
  - intros (x & -> & Hx). exists x. split; [done|]. apply elem_of_seqZ. lia.
Qed.

Lemma NoDup_byte_tokens (n : Z) : NoDup (byte_tokens n).
Proof.
  unfold byte_tokens. apply NoDup_fmap_2_strong; [|apply NoDup_seqZ].
  by intros x y _ _ [= ->].
Qed.

(** The bytes up to [n], followed by longer tokens when all 256 bytes are
    there, are a well-formed vocabulary. *)
Lemma valid_vocab_bytes (n : Z) (extras : list (list Z)) :
  0 ≤ n ≤ 256 → (n < 256 → extras = [])
  → Forall (Forall (λ x, 0 ≤ x < 256)) extras
  → Forall (λ b, length b ≠ 1%nat) extras
  → NoDup extras
  → valid_vocab (vocab_items (byte_tokens n ++ extras)) (byte_tokens n ++ extras).
Proof.
  intros Hn Hfull Hbytes Hlong Hnd. apply valid_vocab_items.
  - apply Forall_app. split; [|done].
    apply Forall_forall. intros b (x & -> & Hx)%byte_tokens_elem.
    repeat constructor; lia.
  - apply NoDup_app. split_and!; [apply NoDup_byte_tokens | | done].
    intros b (x & -> & _)%byte_tokens_elem Hin.
    rewrite Forall_forall in Hlong. by apply (Hlong _ Hin).
  - intros i b Hi Hb.
    destruct (decide (Z.of_nat i < n)) as [Hlt|Hge].
    + rewrite lookup_app_l in Hb by (rewrite length_byte_tokens; lia).
      by apply byte_tokens_lookup in Hb as [-> _].
    + rewrite Hfull, app_nil_r in Hb by lia.
      apply byte_tokens_lookup in Hb as [_ Hlt]. lia.
Qed.

Lemma valid_pair_tokens (n : Z) :
  256 ≤ n ≤ 65536
  → valid_vocab (vocab_items (pair_tokens n)) (pair_tokens n)
    ∧ Z.of_nat (length (pair_tokens n)) = n.
Proof.
  intros Hn. unfold pair_tokens. split.
  - apply valid_vocab_bytes; [lia | lia | | |].
    + apply Forall_fmap, Forall_forall. intros i Hi%elem_of_seqZ. cbn.
      assert (0 ≤ i / 256 < 256 ∧ 0 ≤ i mod 256 < 256) as [Hq Hr].
      { split; [|by apply Z.mod_pos_bound].
        split; [by apply Z.div_pos; lia|]. apply Z.div_lt_upper_bound; lia. }
      by repeat apply Forall_cons_2.
    + apply Forall_fmap, Forall_forall. by intros i _.
    + apply NoDup_fmap_2_strong; [|apply NoDup_seqZ].
      intros i j _ _ [= Hq Hr].
      rewrite (Z.div_mod i 256), (Z.div_mod j 256) by lia. by rewrite Hq, Hr.
  - rewrite length_app, length_byte_tokens, length_fmap, length_seqZ. lia.
Qed.

Lemma one_file_lookup path doc : one_file path doc path = Some doc.
Proof. unfold one_file. by rewrite String.eqb_refl. Qed.

(** Loading the file written for a well-formed token list gives the table
    of the tokens. *)
Lemma reload_vocab_file path tokens :
  endswith path ".json" = true
  → valid_vocab (vocab_items tokens) tokens
  → reload_mergeable_ranks (one_file path (vocab_file tokens)) path None
    = Ok (table_of tokens).
Proof.
  intros Hjson Hvalid. apply reload_ok. split; [done|].
  exists (vocab_items tokens), tokens. by rewrite one_file_lookup.
Qed.

(** Constructing over that file gives the tokenizer of the tokens. *)
Lemma init_vocab_file `{UnicodeData} path tokens vs nst sp :
  endswith path ".json" = true
  → special_ok vs nst sp
  → valid_vocab (vocab_items tokens) tokens
  → Z.of_nat (length tokens) = vs - nst
  → CustomTikTokenizer_init (one_file path (vocab_file tokens)) path vs nst sp
    = Ok (tokenizer_of vs nst sp tokens).
Proof.
  intros Hjson Hsp Hvalid Hlen. apply init_ok. split_and!; try done.
  exists (vocab_items tokens), tokens. rewrite one_file_lookup.
  split_and!; try done.
  rewrite slice_to_nonneg, take_ge by (rewrite ?length_vocab_items; lia).
  done.
Qed.

Lemma valid_toy_tokens : valid_vocab (vocab_items toy_tokens) toy_tokens.
Proof.
  apply valid_vocab_bytes; [lia | lia | | |].
  - repeat apply Forall_cons_2; try apply Forall_nil; lia.
  - by repeat apply Forall_cons_2.
  - compute_done.
Qed.

Lemma toy_load :
  reload_mergeable_ranks toy_files toy_path None = Ok (table_of toy_tokens).
Proof. apply reload_vocab_file; [reflexivity | apply valid_toy_tokens]. Qed.

Lemma size_toy_table : size (table_of toy_tokens) = 259%nat.
Proof.
  rewrite (proj2 (table_of_size _)) by apply valid_toy_tokens.
  unfold toy_tokens. by rewrite length_app, length_byte_tokens.
Qed.

(** ** The matcher *)

Section Matcher.
Context {X : Type}.
Implicit Types (k : list Z → option X) (s : list Z).

(** What a successful run of the iterations passes on is a suffix of the
    input, provided the body passes suffixes on. *)
Lemma star_iter_sound (body : (list Z → option X) → list Z → option X) k :
  (∀ k' s x, body k' s = Some x → ∃ s', k' s' = Some x ∧ suffix s' s)
  → ∀ fuel s x, star_iter body k fuel s = Some x
    → ∃ s', k s' = Some x ∧ suffix s' s.
Proof.
  intros Hbody fuel. induction fuel as [|fuel IH]; intros s x; cbn [star_iter].
  - intros Hk. by exists s.
  - destruct (body _ s) as [y|] eqn:Hb.
    + intros [= ->]. apply Hbody in Hb as (s1 & Hs1 & Hsuf).
      destruct (length s1 <? length s)%nat; [|done].
      apply IH in Hs1 as (s2 & Hs2 & Hsuf2). exists s2.
      split; [done|]. by etrans.
    + intros Hk. by exists s.
Qed.

Lemma star_iter_total (body : (list Z → option X) → list Z → option X) k
    fuel s :
  is_Some (k s) → is_Some (star_iter body k fuel s).
Proof.
  intros Hk. destruct fuel as [|fuel]; cbn [star_iter]; [done|].
  by destruct (body _ s).
Qed.
End Matcher.

Lemma suffix_length_le {A} (l1 l2 : list A) :
  suffix l1 l2 → (length l1 ≤ length l2)%nat.
Proof. intros [k ->]. rewrite length_app. lia. Qed.

(** A successful match passes a suffix of the input to the continuation,
    a proper one when the expression always consumes. *)
Lemma re_match_sound (r : regex) :
  ∀ (X : Type) (k : list Z → option X) s x,
    re_match r k s = Some x
    → ∃ s', k s' = Some x ∧ suffix s' s
            ∧ (consumes r = true → (length s' < length s)%nat).
Proof.
  induction r as [p|r1 IH1 r2 IH2|r1 IH1 r2 IH2|r1 IH1|r1 IH1|r1 IH1];
    intros X k s x; cbn [re_match consumes].
  - destruct s as [|c rest]; [done|]. destruct (p c); [|done].
    intros Hk. exists rest. split_and!; [done | by apply suffix_cons_r | ].
    intros _. cbn. lia.
  - intros (s1 & (s2 & Hk & Hsuf2 & Hlt2)%IH2 & Hsuf1 & Hlt1)%IH1.
    exists s2. split_and!; [done | by etrans |].
    apply suffix_length_le in Hsuf1, Hsuf2.
    intros [H1|H2]%orb_true_iff; [specialize (Hlt1 H1) | specialize (Hlt2 H2)];
      lia.
  - destruct (re_match r1 k s) as [y|] eqn:H1.
    + intros [= ->]. apply IH1 in H1 as (s' & Hk & Hsuf & Hlt).
      exists s'. split_and!; [done..|]. by intros [? _]%andb_true_iff; auto.
    + intros (s' & Hk & Hsuf & Hlt)%IH2.
      exists s'. split_and!; [done..|]. by intros [_ ?]%andb_true_iff; auto.
  - destruct (re_match r1 k s) as [y|] eqn:H1.
    + intros [= ->]. apply IH1 in H1 as (s' & Hk & Hsuf & _).
      exists s'. by split_and!.
    + intros Hk. exists s. by split_and!.
  - intros (s' & Hk & Hsuf)%star_iter_sound.
    + exists s'. by split_and!.
    + intros k' s0 x0 (s' & Hk & Hsuf & _)%IH1. by exists s'.
  - destruct (re_match r1 _ s); [done|]. intros Hk. exists s. by split_and!.
Qed.

Section MatcherTotal.
Context {X : Type}.
Implicit Types (k : list Z → option X) (s : list Z).

Lemma class_total (p : Z → bool) k c s :
  p c = true → is_Some (k s) → is_Some (re_match (Class p) k (c :: s)).
Proof. intros Hp Hk. cbn. by rewrite Hp. Qed.

Lemma alt_total_l r1 r2 k s :
  is_Some (re_match r1 k s) → is_Some (re_match (Alt r1 r2) k s).
Proof. intros [x Hx]. cbn. by rewrite Hx. Qed.

Lemma alt_total_r r1 r2 k s :
  is_Some (re_match r2 k s) → is_Some (re_match (Alt r1 r2) k s).
Proof. intros Hx. cbn. by destruct (re_match r1 k s). Qed.

Lemma seq_unfold r1 r2 k s :
  re_match (Seq r1 r2) k s = re_match r1 (re_match r2 k) s.
Proof. reflexivity. Qed.

Lemma opt_total r k s : is_Some (k s) → is_Some (re_match (Opt r) k s).
Proof. intros Hk. cbn. by destruct (re_match r k s). Qed.

Lemma star_total r k s : is_Some (k s) → is_Some (re_match (Star r) k s).
Proof. intros Hk. cbn. by apply star_iter_total. Qed.

Lemma plus_total (p : Z → bool) k c s :
  p c = true → is_Some (k s) → is_Some (re_match (Plus (Class p)) k (c :: s)).
Proof.
  intros Hp Hk. unfold Plus. cbn [re_match]. rewrite Hp.
  by apply star_iter_total.
Qed.
End MatcherTotal.

(** ** The pattern covers every text *)

Section PatternFacts.
Context `{UnicodeData}.

Lemma pattern_consumes : consumes PATTERN_TIKTOKEN_V2 = true.
Proof. reflexivity. Qed.

(** At every character some alternative of the pattern matches. *)
Lemma pattern_total (c : Z) (s : list Z) :
  is_Some (re_match PATTERN_TIKTOKEN_V2 Some (c :: s)).
Proof.
  unfold PATTERN_TIKTOKEN_V2.
  destruct (lower_like c) eqn:Hlow.
  { apply alt_total_l. rewrite seq_unfold. apply opt_total. rewrite seq_unfold. apply star_total.
    by apply plus_total. }
  apply alt_total_r.
  destruct (upper_like c) eqn:Hup.
  { apply alt_total_l. rewrite seq_unfold. apply opt_total.
    rewrite seq_unfold. apply plus_total; [done|]. by apply star_total. }
  apply alt_total_r.
  destruct (is_N c) eqn:HN.
  { apply alt_total_l. by apply class_total. }
  apply alt_total_r.
  assert (is_L c = false) as HL.
  { unfold is_L, lower_like, upper_like in *. by destruct (category c). }
  destruct (white_space c) eqn:Hws.
  - do 3 apply alt_total_r. by apply plus_total.
  - apply alt_total_l. rewrite seq_unfold. apply opt_total.
    rewrite seq_unfold. apply plus_total; [|by apply star_total].
    unfold not_space_L_N. by rewrite Hws, HL, HN.
Qed.

(** Where every non-empty text has a match, the matches of a consuming
    expression put together are the text. *)
Lemma find_iter_concat (r : regex) :
  consumes r = true
  → (∀ c s, is_Some (re_match r Some (c :: s)))
  → ∀ fuel s, (length s < fuel)%nat → concat (find_iter fuel r s) = s.
Proof.
  intros Hcons Htotal fuel.
  induction fuel as [|fuel IH]; intros s Hfuel; [lia|]. cbn [find_iter].
  destruct s as [|c s].
  - destruct (re_match r Some []) as [rest|] eqn:Hm; [|done].
    apply re_match_sound in Hm as (s' & _ & _ & Hlt). specialize (Hlt Hcons).
    cbn in Hlt. lia.
  - destruct (Htotal c s) as [rest Hm]. rewrite Hm.
    apply re_match_sound in Hm as (s' & [= ->] & [pre Hpre] & Hlt).
    specialize (Hlt Hcons).
    assert (length (c :: s) = (length pre + length rest)%nat) as Hlen
      by by rewrite Hpre, length_app.
    replace (length (c :: s) - length rest)%nat with (length pre) by lia.
    destruct (length pre) as [|n] eqn:Hn; [lia|].
    rewrite <- Hn. cbn [concat]. rewrite IH by lia.
    by rewrite Hpre at 1; rewrite take_app_length.
Qed.

Lemma findall_pattern_concat (s : list Z) :
  concat (findall PATTERN_TIKTOKEN_V2 s) = s.
Proof.
  unfold findall. apply find_iter_concat; [done | apply pattern_total | lia].
Qed.
End PatternFacts.

(** ** UTF-8: decoding what was encoded *)

Ltac decide_tests :=
  repeat
    (match goal with
     | |- context [?a <=? ?b] =>
         first [ rewrite (proj2 (Z.leb_le a b)) by lia
               | rewrite (proj2 (Z.leb_gt a b)) by lia ]
     | |- context [?a <? ?b] =>
         first [ rewrite (proj2 (Z.ltb_lt a b)) by lia
               | rewrite (proj2 (Z.ltb_ge a b)) by lia ]
     | |- context [?a =? ?b] =>
         first [ rewrite (proj2 (Z.eqb_eq a b)) by lia
               | rewrite (proj2 (Z.eqb_neq a b)) by lia ]
     end; cbn [andb orb negb]).

Lemma is_scalar_bounds (c : Z) :
  is_scalar c = true ↔ (0 ≤ c < 0xD800 ∨ 0xE000 ≤ c < 0x110000).
Proof.
  unfold is_scalar, is_surrogate.
  rewrite !andb_true_iff, negb_true_iff, andb_false_iff.
  rewrite !Z.leb_le, !Z.ltb_lt, Z.leb_gt, Z.ltb_ge. lia.
Qed.

Lemma utf8_decode_encode_char (c : Z) (rest : list Z) :
  is_scalar c = true
  → utf8_decode (utf8_encode_char c ++ rest) = c :: utf8_decode rest.
Proof.
  intros Hc%is_scalar_bounds. unfold utf8_encode_char.
  pose proof (Z.div_mod c 64) as Hc0.
  pose proof (Z.mod_pos_bound c 64) as Hr0.
  pose proof (Z.div_mod (c / 64) 64) as Hc1.
  pose proof (Z.mod_pos_bound (c / 64) 64) as Hr1.
  pose proof (Z.div_mod (c / 64 / 64) 64) as Hc2.
  pose proof (Z.mod_pos_bound (c / 64 / 64) 64) as Hr2.
  replace (c / 4096) with (c / 64 / 64)
    by (rewrite Z.div_div by lia; reflexivity).
  replace (c / 262144) with (c / 64 / 64 / 64)
    by (rewrite !Z.div_div by lia; reflexivity).
  set (r0 := c mod 64) in *. set (q0 := c / 64) in *.
  set (r1 := q0 mod 64) in *. set (q1 := q0 / 64) in *.
  set (r2 := q1 mod 64) in *. set (q2 := q1 / 64) in *.
  destruct (Z.ltb_spec c 0x80).
  { cbn [app utf8_decode]. decide_tests. done. }
  destruct (Z.ltb_spec c 0x800).
  { cbn [app utf8_decode]. unfold utf8_lead. decide_tests.
    f_equal. lia. }
  destruct (Z.ltb_spec c 0x10000).
  { cbn [app utf8_decode]. unfold utf8_lead, is_cont. decide_tests.
    destruct (Z.eqb_spec (0xE0 + q1) 0xE0); [decide_tests; f_equal; lia|].
    destruct (Z.eqb_spec (0xE0 + q1) 0xED); decide_tests; f_equal; lia. }
  cbn [app utf8_decode]. unfold utf8_lead, is_cont. decide_tests.
  destruct (Z.eqb_spec (0xF0 + q2) 0xF0); [decide_tests; f_equal; lia|].
  destruct (Z.eqb_spec (0xF0 + q2) 0xF4); decide_tests; f_equal; lia.
Qed.

Lemma utf8_decode_encode (s : list Z) :
  forallb is_scalar s = true → utf8_decode (utf8_encode s) = s.
Proof.
  unfold utf8_encode. induction s as [|c s IH]; [done|]. cbn [forallb flat_map].
  intros [Hc Hs]%andb_true_iff.
  by rewrite utf8_decode_encode_char, IH.
Qed.

Lemma utf8_encode_concat (pieces : list (list Z)) :
  utf8_encode (concat pieces) = concat (utf8_encode <$> pieces).
Proof.
  unfold utf8_encode. induction pieces as [|p pieces IH]; [done|].
  cbn [concat fmap list_fmap]. by rewrite flat_map_app, IH.
Qed.

Lemma utf8_encode_char_bytes (c : Z) :
  is_scalar c = true → Forall (λ b, 0 ≤ b < 256) (utf8_encode_char c).
Proof.
  intros Hc%is_scalar_bounds. unfold utf8_encode_char.
  pose proof (Z.div_mod c 64) as Hc0.
  pose proof (Z.mod_pos_bound c 64) as Hr0.
  pose proof (Z.div_mod (c / 64) 64) as Hc1.
  pose proof (Z.mod_pos_bound (c / 64) 64) as Hr1.
  pose proof (Z.div_mod (c / 64 / 64) 64) as Hc2.
  pose proof (Z.mod_pos_bound (c / 64 / 64) 64) as Hr2.
  replace (c / 4096) with (c / 64 / 64)
    by (rewrite Z.div_div by lia; reflexivity).
  replace (c / 262144) with (c / 64 / 64 / 64)
    by (rewrite !Z.div_div by lia; reflexivity).
  set (r0 := c mod 64) in *. set (q0 := c / 64) in *.
  set (r1 := q0 mod 64) in *. set (q1 := q0 / 64) in *.
  set (r2 := q1 mod 64) in *. set (q2 := q1 / 64) in *.
  destruct (Z.ltb_spec c 0x80); [repeat apply Forall_cons_2; try done; lia|].
  destruct (Z.ltb_spec c 0x800); [repeat apply Forall_cons_2; try done; lia|].
  destruct (Z.ltb_spec c 0x10000); repeat apply Forall_cons_2; try done; lia.
Qed.

Lemma utf8_encode_bytes (s : list Z) :
  forallb is_scalar s = true → Forall (λ b, 0 ≤ b < 256) (utf8_encode s).
Proof.
  unfold utf8_encode. induction s as [|c s IH]; [constructor|].
  cbn [forallb flat_map]. intros [Hc Hs]%andb_true_iff.
  apply Forall_app. split; [by apply utf8_encode_char_bytes | by apply IH].
Qed.

(** ** Byte-pair merging *)

Section Merge.
Variable ranks : gmap (list Z) Z.

Lemma merge_at_concat (parts : list (list Z)) (i : nat) :
  concat (merge_at parts i) = concat parts.
Proof.
  revert i. induction parts as [|p parts IH]; intros i; [by destruct i|].
  destruct i as [|i]; cbn [merge_at].
  - destruct parts as [|q parts]; [done|]. cbn. by rewrite app_assoc.
  - destruct parts as [|q parts]; [by destruct i|].
    cbn [concat]. by rewrite IH.
Qed.

(** The pair found is a pair of neighbours whose joint has a rank. *)
Lemma best_pair_spec (parts : list (list Z)) (i0 : nat) r i :
  best_pair ranks parts i0 = Some (r, i)
  → ∃ (j : nat) p q,
      i = (i0 + j)%nat ∧ parts !! j = Some p ∧ parts !! S j = Some q
      ∧ ranks !! (p ++ q) = Some r.
Proof.
  revert i0. induction parts as [|p parts IH]; intros i0; [done|].
  destruct parts as [|q parts]; [done|].
  change (best_pair ranks (p :: q :: parts) i0)
    with (let later := best_pair ranks (q :: parts) (S i0) in
          match ranks !! (p ++ q), later with
          | Some r, Some (r', j) => if r' <? r then later else Some (r, i0)
          | Some r, None => Some (r, i0)
          | None, _ => later
          end).
  cbn zeta. intros Hbest.
  assert (best_pair ranks (q :: parts) (S i0) = Some (r, i)
          ∨ (ranks !! (p ++ q) = Some r ∧ i = i0)) as [Hlater|[Hhere ->]].
  { destruct (ranks !! (p ++ q)) as [r0|];
      destruct (best_pair ranks (q :: parts) (S i0)) as [[r' j]|];
      try destruct (r' <? r0); naive_solver. }
  - apply IH in Hlater as (j & p' & q' & -> & Hp & Hq & Hr).
    exists (S j), p', q'. split_and!; [lia | done..].
  - exists 0%nat, p, q. split_and!; [lia | done..].
Qed.

Lemma merge_at_ranked (parts : list (list Z)) (j : nat) p q :
  parts !! j = Some p → parts !! S j = Some q
  → is_Some (ranks !! (p ++ q))
  → Forall (λ part, is_Some (ranks !! part)) parts
  → Forall (λ part, is_Some (ranks !! part)) (merge_at parts j).
Proof.
  revert j. induction parts as [|a parts IH]; intros j Hp Hq Hpq Hall; [done|].
  apply Forall_cons in Hall as [Ha Hall].
  destruct j as [|j]; cbn [merge_at].
  - destruct parts as [|b parts]; [done|].
    cbn in Hp, Hq. injection Hp as ->. injection Hq as ->.
    apply Forall_cons in Hall as [_ Hall]. by apply Forall_cons_2.
  - destruct parts as [|b parts]; [done|].
    apply Forall_cons_2; [done|]. by apply IH.
Qed.

Lemma bpe_merge_inv (fuel : nat) (parts : list (list Z)) :
  Forall (λ part, is_Some (ranks !! part)) parts
  → concat (bpe_merge ranks fuel parts) = concat parts
    ∧ Forall (λ part, is_Some (ranks !! part)) (bpe_merge ranks fuel parts).
Proof.
  revert parts. induction fuel as [|fuel IH]; intros parts Hall; [done|].
  cbn [bpe_merge].
  destruct (best_pair ranks parts 0) as [[r i]|] eqn:Hbest; [|done].
  apply best_pair_spec in Hbest as (j & p & q & -> & Hp & Hq & Hr).
  destruct (IH (merge_at parts (0 + j))) as [Hcat Hranked].
  { eapply merge_at_ranked; [done.. | by eexists | done]. }
  split; [|done]. by rewrite Hcat, merge_at_concat.
Qed.

Lemma merge_at_shrinks (parts : list (list Z)) (j : nat) p q :
  parts !! j = Some p → parts !! S j = Some q
  → S (length (merge_at parts j)) = length parts.
Proof.
  revert j. induction parts as [|a parts IH]; intros j Hp Hq; [done|].
  destruct j as [|j]; cbn [merge_at].
  - by destruct parts.
  - destruct parts as [|b parts]; [done|].
    cbn [length]. f_equal. by apply IH.
Qed.

(** Enough fuel: the merge loop stops because no pair is left. *)
Lemma bpe_merge_done (fuel : nat) (parts : list (list Z)) :
  (length parts ≤ fuel)%nat
  → best_pair ranks (bpe_merge ranks fuel parts) 0 = None.
Proof.
  revert parts. induction fuel as [|fuel IH]; intros parts Hlen.
  - destruct parts; [done | cbn in Hlen; lia].
  - cbn [bpe_merge].
    destruct (best_pair ranks parts 0) as [[r i]|] eqn:Hbest; [|done].
    apply IH.
    apply best_pair_spec in Hbest as (j & p & q & -> & Hp & Hq & _).
    pose proof (merge_at_shrinks _ _ _ _ Hp Hq). cbn [Nat.add]. lia.
Qed.

(** Encoding a segment whose bytes all have ranks gives the ranks of parts
    that make up the segment. *)
Lemma byte_pair_encode_ok (piece : list Z) :
  Forall (λ b, is_Some (ranks !! [b])) piece
  → ∃ parts rs,
      byte_pair_encode ranks piece = Ok rs
      ∧ Forall2 (λ part r, ranks !! part = Some r) parts rs
      ∧ concat parts = piece.
Proof.
  intros Hbytes. unfold byte_pair_encode.
  set (start := (λ b, [b]) <$> piece).
  assert (Forall (λ part, is_Some (ranks !! part)) start) as Hstart
    by by apply Forall_fmap.
  destruct (bpe_merge_inv (length piece) start Hstart) as [Hcat Hranked].
  set (parts := bpe_merge ranks (length piece) start) in *.
  destruct (map_result_total (λ part, of_option KeyError (ranks !! part)) parts)
    as [rs Hrs].
  { eapply Forall_impl; [exact Hranked|]. intros part [r Hr]. exists r.
    by rewrite Hr. }
  exists parts, rs. split_and!; [done | |].
  - apply map_result_ok in Hrs. eapply Forall2_impl; [exact Hrs|].
    intros part r. cbn. by destruct (ranks !! part); intros [= ->].
  - rewrite Hcat. unfold start. clear. induction piece as [|b piece IH]; [done|].
    cbn. by rewrite IH.
Qed.

(** Every rank an encoding returns is a rank of the table. *)
Lemma byte_pair_encode_img (piece : list Z) rs :
  byte_pair_encode ranks piece = Ok rs
  → Forall (λ r, r ∈ (map_img ranks : gset Z)) rs.
Proof.
  unfold byte_pair_encode. intros Hrs%map_result_ok.
  induction Hrs as [|part r parts rs' Hr _ IH]; constructor; [|done].
  destruct (ranks !! part) as [r'|] eqn:Hpart; [|done].
  injection Hr as <-. apply elem_of_map_img. by exists part.
Qed.
End Merge.

(** ** The engine: encoding and decoding *)

Lemma map_result_app {A B} (f : A → result B) (xs ys : list A) us vs :
  map_result f xs = Ok us → map_result f ys = Ok vs
  → map_result f (xs ++ ys) = Ok (us ++ vs).
Proof.
  intros Hxs%map_result_ok Hys%map_result_ok. apply map_result_ok.
  by apply Forall2_app.
Qed.

Section Engine.
Context `{UnicodeData}.
Variable ranks : gmap (list Z) Z.

(** The engine the constructor builds over the table [ranks]. *)
Let enc : Encoding :=
  {| pat_str := PATTERN_TIKTOKEN_V2; mergeable_ranks := ranks;
     decoder := invert_dict ranks |}.

Hypothesis ranks_inj :
  ∀ b1 b2 r, ranks !! b1 = Some r → ranks !! b2 = Some r → b1 = b2.

(** Looking the ranks of parts up again gives the parts. *)
Lemma decode_ranks (parts : list (list Z)) (rs : list Z) :
  Forall2 (λ part r, ranks !! part = Some r) parts rs
  → map_result (λ t, of_option KeyError (invert_dict ranks !! t)) rs
    = Ok parts.
Proof.
  intros Hall. apply map_result_ok.
  induction Hall as [|part r parts rs Hr _ IH]; constructor; [|done].
  by rewrite (invert_dict_lookup ranks part r ranks_inj Hr).
Qed.

Hypothesis ranks_bytes : ∀ b, 0 ≤ b < 256 → is_Some (ranks !! [b]).

(** Segment by segment: the ranks of the segments decode to their
    UTF-8 encodings. *)
Lemma encode_pieces (pieces : list (list Z)) :
  Forall (λ piece, forallb is_scalar piece = true) pieces
  → ∃ rss parts,
      map_result
        (λ piece, byte_pair_encode ranks (utf8_encode piece)) pieces = Ok rss
      ∧ map_result (λ t, of_option KeyError (invert_dict ranks !! t))
          (concat rss) = Ok parts
      ∧ concat parts = utf8_encode (concat pieces).
Proof.
  induction 1 as [|piece pieces Hpiece _ (rss & parts & Henc & Hdec & Hcat)].
  - by exists [], [].
  - destruct (byte_pair_encode_ok ranks (utf8_encode piece))
      as (parts0 & rs & Hrs & Hranked & Hcat0).
    { eapply Forall_impl; [by apply utf8_encode_bytes|]. apply ranks_bytes. }
    exists (rs :: rss), (parts0 ++ parts). split_and!.
    + cbn [map_result]. by rewrite Hrs, Henc.
    + cbn [concat]. apply map_result_app; [by apply decode_ranks | done].
    + rewrite concat_app, Hcat0, Hcat. unfold utf8_encode. cbn [concat].
      by rewrite flat_map_app.
Qed.

(** Decoding inverts encoding on every text of scalar values. *)
Lemma encoding_roundtrip (text : list Z) :
  forallb is_scalar text = true
  → ∃ rs, Encoding_encode enc text = Ok rs
          ∧ Encoding_decode enc rs = Ok text.
Proof.
  intros Htext. unfold Encoding_encode, Encoding_decode. rewrite Htext.
  cbn [pat_str mergeable_ranks decoder enc].
  destruct (encode_pieces (findall PATTERN_TIKTOKEN_V2 text))
    as (rss & parts & Henc & Hdec & Hcat).
  { apply Forall_forall. intros piece Hpiece. apply forallb_forall.
    intros c Hc. rewrite forallb_forall in Htext. apply Htext.
    rewrite <- (findall_pattern_concat text). apply in_concat.
    exists piece. split; [by apply list_elem_of_In | done]. }
  exists (concat rss). rewrite Henc. cbn. split; [done|].
  rewrite Hdec. cbn.
  by rewrite Hcat, findall_pattern_concat, utf8_decode_encode.
Qed.
End Engine.

(** Every rank the engine returns is a rank of its table. *)
Lemma encoding_ranks_img (enc : Encoding) (text : list Z) rs :
  Encoding_encode enc text = Ok rs
  → Forall (λ r, r ∈ (map_img (mergeable_ranks enc) : gset Z)) rs.
Proof.
  unfold Encoding_encode.
  intros (rss & Hrss%map_result_ok & [= <-])%bind_ok.
  apply Forall_concat.
  induction Hrss as [|piece rs' pieces rss Hrs _ IH]; constructor; [|done].
  by eapply byte_pair_encode_img.
Qed.

(** ** Constructed tokenizers *)

Section Tokenizers.
Context `{UnicodeData}.
Variables (vs nst : Z) (sp : option (list string)) (tokens : list (list Z)).
Hypothesis Hsp : special_ok vs nst sp.
Hypothesis Hnd : NoDup tokens.

Let tok : CustomTikTokenizer := tokenizer_of vs nst sp tokens.

Lemma special_index_bounds (label : string) :
  label ∈ SPECIAL_TOKENS
  → 0 ≤ index_or_zero label (default SPECIAL_TOKENS sp) < nst.
Proof.
  destruct Hsp as (_ & [Hlen _] & Hsub & _). intros Hin.
  rewrite Forall_forall in Hsub. specialize (Hsub _ Hin).
  pose proof (list_index_bounds _ _ _ (list_index_elem _ _ Hsub)). lia.
Qed.

Lemma bos_bounds : 0 ≤ _bos_id tok < nst.
Proof. apply special_index_bounds. set_solver. Qed.

Lemma eos_bounds : 0 ≤ _eos_id tok < nst.
Proof. apply special_index_bounds. set_solver. Qed.

(** The ranks of the table are the positions of the tokens. *)
Lemma table_rank_bounds (r : Z) :
  r ∈ (map_img (table_of tokens) : gset Z) ↔ 0 ≤ r < Z.of_nat (length tokens).
Proof. rewrite table_of_img by done. apply elem_of_set_range. Qed.

(** No rank is negative, so the decoder has nothing below zero. *)
Lemma decoder_negative (r : Z) :
  r < 0 → invert_dict (table_of tokens) !! r = None.
Proof.
  intros Hr. apply eq_None_not_Some. intros [b Hb%invert_dict_elem].
  apply table_of_lookup in Hb as (i & -> & _). lia.
Qed.

(** Ordinary ids survive the filter of [detokenize], which undoes the
    shift of [tokenize]. *)
Lemma unshift_shift (rs : list Z) :
  Forall (λ r, 0 ≤ r) rs
  → (λ t, t - nst)
      <$> filter (λ t, t ∉ ({[ _bos_id tok; _eos_id tok ]} : gset Z))
            ((λ t, t + nst) <$> rs)
    = rs.
Proof.
  pose proof bos_bounds. pose proof eos_bounds.
  induction 1 as [|r rs Hr _ IH]; [done|]. cbn [fmap list_fmap].
  rewrite filter_cons_True by set_solver by lia.
  cbn [fmap list_fmap]. rewrite IH. f_equal. lia.
Qed.

(** The labels of the special ids in the shifted table. *)
Lemma shifted_special (i : nat) (label : string) :
  special_tokens tok !! i = Some label
  → shifted_id2token tok !! Z.of_nat i = Some (inl label).
Proof.
  intros Hlabel. cbn [shifted_id2token tok tokenizer_of].
  cbn [special_tokens tok tokenizer_of] in Hlabel.
  set (all := default SPECIAL_TOKENS sp ++ _) in *.
  apply (map_fold_weak_ind
           (λ shifted (m : gmap Z (list Z)),
              (∀ r, is_Some (m !! r) → 0 ≤ r)
              → shifted !! Z.of_nat i = Some (inl label))).
  - intros _. apply dict_of_items_lookup.
    + unfold enumerate. rewrite fmap_imap.
      apply NoDup_alt. intros j1 j2 x.
      rewrite !list_lookup_imap, !fmap_Some.
      intros (? & _ & ->) (? & _ & Heq). cbn in Heq. lia.
    + apply list_elem_of_lookup. exists i. unfold enumerate.
      by rewrite list_lookup_imap, list_lookup_fmap, Hlabel.
  - intros r b m shifted Hfresh IH Hkeys.
    rewrite lookup_insert_ne.
    + apply IH. intros r' Hr'. apply Hkeys.
      rewrite lookup_insert_ne; [done|]. intros ->.
      rewrite Hfresh in Hr'. by destruct Hr'.
    + assert (0 ≤ r) by (apply Hkeys; rewrite lookup_insert_eq; by eexists).
      apply lookup_lt_Some in Hlabel.
      assert (Z.of_nat (length all) = nst) as Hlen.
      { destruct Hsp as (_ & [Hlen _] & _). unfold all.
        rewrite length_app. pose proof (length_special_filler _ _ Hlen). lia. }
      lia.
  - intros r [b Hb%invert_dict_elem].
    apply table_of_lookup in Hb as (j & -> & _). lia.
Qed.
End Tokenizers.

Lemma map_result_missing (m : gmap Z (list Z)) (xs : list Z) (x : Z) :
  x ∈ xs → m !! x = None
  → map_result (λ t, of_option KeyError (m !! t)) xs = Err KeyError.
Proof.
  intros Hin Hx. induction Hin as [x xs|x y xs _ IH]; cbn [map_result].
  - by rewrite Hx.
  - destruct (m !! y); [|done]. cbn. by rewrite IH.
Qed.

(** What the constructor's success says about the tokenizer. *)
Lemma init_inv `{UnicodeData} files path vs nst sp tok :
  CustomTikTokenizer_init files path vs nst sp = Ok tok
  → ∃ tokens,
      tok = tokenizer_of vs nst sp tokens
      ∧ special_ok vs nst sp ∧ NoDup tokens
      ∧ Z.of_nat (length tokens) = vs - nst
      ∧ (∀ b, 0 ≤ b < 256 → b < vs - nst
              → table_of tokens !! [b] = Some b).
Proof.
  intros (Hsp & _ & items & tokens & _ & Hvalid & Hlen & ->)%init_ok.
  exists tokens. split_and!; [done | done | apply Hvalid | done |].
  intros b Hb Hlt.
  destruct (lookup_lt_is_Some_2 (slice_to items (vs - nst)) (Z.to_nat b))
    as [x Hx].
  { rewrite <- (valid_vocab_length _ _ Hvalid). lia. }
  destruct (valid_vocab_lookup _ _ _ _ Hvalid Hx) as (tk & Htk & Hcheck).
  rewrite Z2Nat.id in Hcheck by lia.
  apply check_entry_ok in Hcheck as (_ & _ & _ & Hseed).
  rewrite Hseed in Htk by lia.
  rewrite (table_of_rank _ _ _ (proj2 Hvalid) Htk). f_equal. lia.
Qed.

(** The engine of a constructed tokenizer with at least 256 ranks encodes
    every text of scalar values, into ranks that decode to the text. *)
Lemma init_engine_roundtrip `{UnicodeData} files path vs nst sp tok
    (text : list Z) :
  CustomTikTokenizer_init files path vs nst sp = Ok tok
  → 256 ≤ vs - nst
  → forallb is_scalar text = true
  → ∃ rs, Encoding_encode (_model tok) text = Ok rs
          ∧ Encoding_decode (_model tok) rs = Ok text
          ∧ Forall (λ r, 0 ≤ r) rs.
Proof.
  intros (tokens & -> & Hsp & Hnd & Hlen & Hbytes)%init_inv Hfull Htext.
  destruct (encoding_roundtrip (table_of tokens) (table_of_inj tokens))
    with (text := text) as (rs & Henc & Hdec); [|done|].
  { intros b Hb. rewrite Hbytes by lia. by eexists. }
  exists rs. split_and!; [done..|].
  apply encoding_ranks_img in Henc. eapply Forall_impl; [exact Henc|].
  intros r Hr%table_rank_bounds; [lia | done].
Qed.

(** The BOS and EOS ids of a constructed tokenizer are special ids, and
    ordinary ids pass [detokenize]'s filter unchanged. *)
Lemma init_unshift_shift `{UnicodeData} files path vs nst sp tok (rs : list Z) :
  CustomTikTokenizer_init files path vs nst sp = Ok tok
  → Forall (λ r, 0 ≤ r) rs
  → (λ t, t - num_special_tokens tok)
      <$> filter (λ t, t ∉ ({[ _bos_id tok; _eos_id tok ]} : gset Z))
            ((λ t, t + num_special_tokens tok) <$> rs)
    = rs.
Proof.
  intros (tokens & -> & Hsp & Hnd & _)%init_inv Hrs.
  by apply (unshift_shift vs nst sp tokens Hsp).
Qed.

(** ** The claims about [tokenize] and [detokenize] *)

Lemma drop_bos_eos_filter (bos eos : Z) (ids : list Z) :
  drop_bos_eos bos eos ids
  = filter (λ t, t ∉ ({[ bos; eos ]} : gset Z)) ids.
Proof.
  induction ids as [|id ids IH]; [done|]. cbn [drop_bos_eos].
  rewrite filter_cons.
  destruct (Z.eqb_spec id bos) as [->|Hb]; cbn [orb].
  - rewrite decide_False by set_solver. done.
  - destruct (Z.eqb_spec id eos) as [->|He].
    + rewrite decide_False by set_solver. done.
    + rewrite decide_True by set_solver. by rewrite IH.
Qed.

(** C7: [detokenize] looks up the ids that remain when every occurrence
    of the BOS id and of the EOS id is dropped, wherever it stands, each
    lowered by [num_special_tokens]; an id remains exactly when it is
    neither of the two, and the remaining ids keep their order. *)
Theorem detokenize_drops_bos_eos (self : CustomTikTokenizer) (tokens : list Z) :
  let kept := drop_bos_eos (bos self) (eos self) tokens in
  detokenize self tokens
  = Encoding_decode (_model self) (unshift (num_special_tokens self) kept)
  ∧ (∀ id, id ∈ kept ↔ id ∈ tokens ∧ id ≠ bos self ∧ id ≠ eos self)
  ∧ sublist kept tokens
  ∧ (∀ before after,
       detokenize self (before ++ bos self :: after)
       = detokenize self (before ++ after)
       ∧ detokenize self (before ++ eos self :: after)
         = detokenize self (before ++ after))
  ∧ (Forall (λ id, id ≠ bos self ∧ id ≠ eos self) tokens → kept = tokens).
Proof.
  cbn zeta. rewrite drop_bos_eos_filter. unfold detokenize, unshift, bos, eos.
  split_and!.
  - done.
  - intros id. rewrite list_elem_of_filter. set_solver.
  - apply sublist_filter.
  - intros before after. rewrite !filter_app, !filter_cons.
    rewrite !decide_False by set_solver. done.
  - intros Hall. induction Hall as [|id ids [Hb He] _ IH]; [done|].
    rewrite filter_cons_True by set_solver. by rewrite IH.
Qed.

(** C9, as the code has it: an id of a special token other than BOS and
    EOS is not dropped by [detokenize]; lowered by [num_special_tokens] it
    is a negative rank, which no table has, so the call raises
    [KeyError]. *)
Theorem special_id_decode_fails `{UnicodeData} files path vs nst sp tok
    (ids : list Z) (id : Z) :
  CustomTikTokenizer_init files path vs nst sp = Ok tok →
  id ∈ ids → 0 ≤ id < num_special_tokens tok →
  id ≠ bos tok → id ≠ eos tok →
  detokenize tok ids = Err KeyError.
Proof.
  intros (tokens & -> & Hsp & Hnd & _)%init_inv Hin Hid Hbos Heos.
  unfold detokenize, Encoding_decode. cbn in *.
  rewrite (map_result_missing _ _ (id - nst)); [done | |].
  - apply list_elem_of_fmap. exists id. split; [done|].
    apply list_elem_of_filter. split; [set_solver | done].
  - apply decoder_negative. lia.
Qed.

(** C8: every id that [tokenize] returns (without BOS and EOS) lies in
    [num_special_tokens, vocab_size); with at least 256 ranks it returns
    ids for every text of scalar values; and every id below
    [num_special_tokens] has its special-token label in the decode
    table. *)
Theorem id_space_partition `{UnicodeData} files path vs nst sp tok :
  CustomTikTokenizer_init files path vs nst sp = Ok tok →
  num_special_tokens tok = nst ∧ vocab_size tok = vs
  ∧ (∀ text ids,
       tokenize tok text false false = Ok ids
       → Forall (λ id, num_special_tokens tok ≤ id < vocab_size tok) ids)
  ∧ (256 ≤ vs - nst →
     ∀ text, forallb is_scalar text = true
             → is_ok (tokenize tok text false false))
  ∧ (∀ i, 0 ≤ i < num_special_tokens tok
          → ∃ label, special_tokens tok !! Z.to_nat i = Some label
                     ∧ decoder_table tok !! i = Some (inl label)).
Proof.
  intros (tokens & -> & Hsp & Hnd & Hlen & Hbytes)%init_inv.
  split_and!; [done | done | | |].
  - intros text ids. unfold tokenize.
    intros (rs & Hrs%encoding_ranks_img & [= <-])%bind_ok.
    apply Forall_fmap. eapply Forall_impl; [exact Hrs|].
    intros r Hr%table_rank_bounds; [|done]. cbn. lia.
  - intros Hfull text Htext. unfold tokenize. cbn [_model tokenizer_of].
    destruct (encoding_roundtrip (table_of tokens) (table_of_inj tokens))
      with (text := text) as (rs & -> & _); [|done|by eexists].
    intros b Hb. rewrite Hbytes by lia. by eexists.
  - intros i Hi. cbn [num_special_tokens tokenizer_of] in Hi.
    destruct (lookup_lt_is_Some_2
                (special_tokens (tokenizer_of vs nst sp tokens)) (Z.to_nat i))
      as [label Hlabel].
    { cbn [special_tokens tokenizer_of]. destruct Hsp as (_ & [Hl _] & _).
      rewrite length_app. pose proof (length_special_filler _ _ Hl). lia. }
    exists label. split; [done|]. unfold decoder_table.
    rewrite <- (Z2Nat.id i) at 1 by lia. by apply shifted_special.
Qed.

(** C1, as the code has it: with a rank table of at least 256 entries,
    so that every byte has a rank, [tokenize] without BOS and EOS returns
    ids for every text of Unicode scalar values, and [detokenize] gives
    the text back from them. *)
Theorem tokenize_roundtrip `{UnicodeData} files path vs nst sp tok
    (text : list Z) :
  CustomTikTokenizer_init files path vs nst sp = Ok tok →
  256 ≤ vs - nst →
  forallb is_scalar text = true →
  ∃ ids, tokenize tok text false false = Ok ids
         ∧ detokenize tok ids = Ok text.
Proof.
  intros Hinit Hfull Htext.
  destruct (init_engine_roundtrip _ _ _ _ _ _ text Hinit Hfull Htext)
    as (rs & Henc & Hdec & Hpos).
  exists ((λ t, t + num_special_tokens tok) <$> rs).
  unfold tokenize, detokenize. rewrite Henc. split; [done|].
  by rewrite (init_unshift_shift _ _ _ _ _ _ _ Hinit Hpos).
Qed.

(** C6, as the code has it: [tokenize] with BOS and EOS puts the BOS id
    before and the EOS id after the ids of [tokenize] without them, and
    fails when that fails; with a rank table of at least 256 entries and a
    text of Unicode scalar values both succeed, the framed list starts
    with the BOS id and ends with the EOS id, and [detokenize] gives the
    text back from the ids between them, as from the framed list. *)
Theorem bos_eos_framing `{UnicodeData} files path vs nst sp tok
    (text : list Z) :
  CustomTikTokenizer_init files path vs nst sp = Ok tok →
  tokenize tok text true true
  = (λ ids, bos tok :: ids ++ [eos tok]) <$> tokenize tok text false false
  ∧ (256 ≤ vs - nst → forallb is_scalar text = true →
     ∃ ids,
       tokenize tok text false false = Ok ids
       ∧ tokenize tok text true true = Ok (bos tok :: ids ++ [eos tok])
       ∧ head (bos tok :: ids ++ [eos tok]) = Some (bos tok)
       ∧ last (bos tok :: ids ++ [eos tok]) = Some (eos tok)
       ∧ detokenize tok ids = Ok text
       ∧ detokenize tok (bos tok :: ids ++ [eos tok]) = Ok text).
Proof.
  intros Hinit.
  assert (tokenize tok text true true
          = (λ ids, bos tok :: ids ++ [eos tok])
              <$> tokenize tok text false false) as Hframe.
  { unfold tokenize, bos, eos.
    by destruct (Encoding_encode (_model tok) text). }
  split; [done|]. intros Hfull Htext.
  destruct (init_engine_roundtrip _ _ _ _ _ _ text Hinit Hfull Htext)
    as (rs & Henc & Hdec & Hpos).
  pose proof (init_unshift_shift _ _ _ _ _ _ _ Hinit Hpos) as Hshift.
  assert (tokenize tok text false false
          = Ok ((λ t, t + num_special_tokens tok) <$> rs)) as Hids
    by (unfold tokenize; by rewrite Henc).
  exists ((λ t, t + num_special_tokens tok) <$> rs).
  rewrite Hframe, Hids. split_and!; try done.
  - by rewrite last_cons, last_snoc.
  - unfold detokenize. by rewrite Hshift.
  - unfold detokenize, bos, eos.
    rewrite filter_cons_False, filter_app, filter_cons_False, filter_nil,
      app_nil_r by set_solver.
    by rewrite Hshift.
Qed.

(** ** The example tokenizers *)

Lemma toy_init :
  @CustomTikTokenizer_init ascii_data toy_files toy_path 262 3 None
  = Ok toy_tokenizer.
Proof.
  apply init_vocab_file; [reflexivity | compute_done | apply valid_toy_tokens |].
  unfold toy_tokens. rewrite length_app, length_byte_tokens. reflexivity.
Qed.

Lemma small_init :
  @CustomTikTokenizer_init ascii_data (small_files 97) "vocab/small.json"
    100 3 None
  = Ok small_tokenizer.
Proof.
  apply init_vocab_file; [reflexivity | compute_done | |].
  - rewrite <- (app_nil_r (byte_tokens 97)).
    apply valid_vocab_bytes; [lia | done | constructor..].
  - rewrite length_byte_tokens. reflexivity.
Qed.

(** On bytes below 128 the UTF-8 decoder changes nothing. *)
Lemma utf8_decode_ascii (b : list Z) :
  Forall (λ x, 0 ≤ x < 128) b → utf8_decode b = b.
Proof.
  induction 1 as [|x b Hx _ IH]; [done|]. cbn [utf8_decode].
  decide_tests. by rewrite IH.
Qed.

(** No list of ids is decoded to the letter z by the tokenizer of the
    first 97 bytes: whatever it decodes is made of those bytes. *)
Lemma small_tokenizer_range (ids text : list Z) :
  detokenize small_tokenizer ids = Ok text → Forall (λ x, 0 ≤ x < 97) text.
Proof.
  unfold detokenize, Encoding_decode.
  intros (parts & Hparts%map_result_ok & [= <-])%bind_ok.
  assert (Forall (λ x, 0 ≤ x < 97) (concat parts)) as Hrange.
  { apply Forall_concat.
    induction Hparts as [|r part rs parts Hr _ IH]; constructor; [|done].
    cbn [_model small_tokenizer tokenizer_of decoder] in Hr.
    destruct (invert_dict _ !! r) as [part'|] eqn:Hpart; [|done].
    injection Hr as ->. apply invert_dict_elem, table_of_lookup in Hpart
      as (i & _ & (-> & Hi)%byte_tokens_lookup).
    repeat constructor; lia. }
  rewrite utf8_decode_ascii; [done|].
  eapply Forall_impl; [exact Hrange|]. cbn. lia.
Qed.

(** C1 fails as stated: over a vocabulary of the first 97 bytes the
    constructor succeeds, but [tokenize] raises on the text "z", whose byte
    122 has no rank; and no id list at all is decoded to that text. *)
Lemma tokenize_roundtrip_counterexample :
  @CustomTikTokenizer_init ascii_data (small_files 97) "vocab/small.json"
    100 3 None = Ok small_tokenizer
  ∧ forallb is_scalar [122] = true
  ∧ tokenize small_tokenizer [122] false false = Err KeyError
  ∧ ¬ ∃ ids, detokenize small_tokenizer ids = Ok [122].
Proof.
  split_and!.
  - apply small_init.
  - reflexivity.
  - vm_compute. reflexivity.
  - intros [ids Hids%small_tokenizer_range].
    apply Forall_cons in Hids as [Hz _]. lia.
Qed.

(** C6 fails as stated: over the same vocabulary [tokenize] with BOS and
    EOS raises on the text "z" as well, so there is no framed id list. *)
Lemma bos_eos_framing_counterexample :
  @CustomTikTokenizer_init ascii_data (small_files 97) "vocab/small.json"
    100 3 None = Ok small_tokenizer
  ∧ forallb is_scalar [122] = true
  ∧ tokenize small_tokenizer [122] true true = Err KeyError
  ∧ ¬ ∃ ids, tokenize small_tokenizer [122] true true
             = Ok (bos small_tokenizer :: ids ++ [eos small_tokenizer]).
Proof.
  assert (tokenize small_tokenizer [122] true true = Err KeyError) as Herr
    by (vm_compute; reflexivity).
  split_and!; [apply small_init | reflexivity | done |].
  intros [ids Hids]. by rewrite Herr in Hids.
Qed.

(** C9 fails as stated: the id of [<unk>] is neither BOS nor EOS, and
    [detokenize] raises on it. *)
Lemma special_id_decode_counterexample :
  @CustomTikTokenizer_init ascii_data toy_files toy_path 262 3 None
  = Ok toy_tokenizer
  ∧ unk toy_tokenizer = 0 ∧ bos toy_tokenizer = 1 ∧ eos toy_tokenizer = 2
  ∧ detokenize toy_tokenizer [unk toy_tokenizer] = Err KeyError
  ∧ ¬ is_ok (detokenize toy_tokenizer [unk toy_tokenizer]).
Proof.
  assert (detokenize toy_tokenizer [unk toy_tokenizer] = Err KeyError) as Herr.
  { unfold detokenize, Encoding_decode.
    rewrite (map_result_missing _ _ (-3)); [done | by left |].
    apply decoder_negative. lia. }
  split_and!; [apply toy_init | reflexivity.. | done |].
  rewrite Herr. by intros [? [=]].
Qed.

(** A text with a lone surrogate does not come back either: the engine
    receives U+FFFD in its place. *)
Example surrogate_not_restored :
  (tokenize toy_tokenizer [0xD800] false false
     ≫= detokenize toy_tokenizer) = Ok [0xFFFD].
Proof. vm_compute. reflexivity. Qed.

(** The concrete scenario of the specification: "ab" is one ordinary id,
    256 above the special ids, and decodes to "ab". *)
Example encode_ab :
  tokenize toy_tokenizer [97; 98] false false = Ok [256 + 3]
  ∧ detokenize toy_tokenizer [256 + 3] = Ok [97; 98].
Proof. vm_compute. split; reflexivity. Qed.

(** * Further properties *)

(** ** [throttle_generator]: intervals and counts *)

Lemma mod_opp_zero (i k : Z) : i mod (- k) = 0 ↔ i mod k = 0.
Proof.
  destruct (decide (k = 0)) as [->|Hk]; [done|].
  rewrite !Z.mod_divide by lia. split; intros [q ->]; exists (- q); lia.
Qed.

Lemma multiples_opp {A} (k : Z) (l : list A) :
  Throttle.multiples (- k) l = Throttle.multiples k l.
Proof.
  unfold Throttle.multiples. f_equal.
  induction (enumerate l) as [|io ios IH]; [done|].
  rewrite !filter_cons, IH.
  destruct (decide (io.1 mod k = 0)) as [Hm|Hm].
  - rewrite decide_True by by apply mod_opp_zero. done.
  - rewrite decide_False by by rewrite mod_opp_zero. done.
Qed.

Lemma trailing_opp {A} (k : Z) (l : list A) :
  Throttle.trailing (- k) l = Throttle.trailing k l.
Proof.
  unfold Throttle.trailing. destruct (last l); [|done].
  destruct (Z.eqb_spec ((Z.of_nat (length l) - 1) mod k) 0) as [Hm|Hm].
  - apply mod_opp_zero in Hm. by rewrite Hm.
  - rewrite <- mod_opp_zero in Hm. by apply Z.eqb_neq in Hm as ->.
Qed.

(** The yields of a run end with the last element, after the earlier
    elements at the multiples of the interval. *)
Lemma run_snoc {A} (k : Z) (l : list A) (x : A) :
  Throttle.multiples k (l ++ [x]) ++ Throttle.trailing k (l ++ [x])
  = Throttle.multiples k l ++ [x].
Proof.
  rewrite multiples_snoc, trailing_snoc.
  destruct (Z.of_nat (length l) mod k =? 0); by rewrite <- ?app_assoc, ?app_nil_r.
Qed.

Lemma multiples_sublist {A} (k : Z) (l : list A) :
  sublist (Throttle.multiples k l) l.
Proof.
  induction l as [|x l IH] using rev_ind; [done|].
  rewrite multiples_snoc.
  destruct (Z.of_nat (length l) mod k =? 0).
  - by apply sublist_app.
  - rewrite app_nil_r. by apply sublist_inserts_r.
Qed.

Lemma div_ceil_succ (n k : Z) :
  0 ≤ n → 1 ≤ k →
  (n + 1 + k - 1) / k
  = (n + k - 1) / k + (if n mod k =? 0 then 1 else 0).
Proof.
  intros Hn Hk.
  pose proof (Z.div_mod n k ltac:(lia)) as Hdm.
  pose proof (Z.mod_pos_bound n k ltac:(lia)) as Hb.
  destruct (Z.eqb_spec (n mod k) 0) as [Hm|Hm].
  - rewrite <- (Z.div_unique_pos (n + 1 + k - 1) k (n / k + 1) 0) by lia.
    rewrite <- (Z.div_unique_pos (n + k - 1) k (n / k) (k - 1)) by lia. lia.
  - rewrite <- (Z.div_unique_pos (n + 1 + k - 1) k (n / k + 1) (n mod k)) by lia.
    rewrite <- (Z.div_unique_pos (n + k - 1) k (n / k + 1) (n mod k - 1)) by lia.
    lia.
Qed.

Lemma multiples_length {A} (k : Z) (l : list A) :
  1 ≤ k →
  Z.of_nat (length (Throttle.multiples k l))
  = (Z.of_nat (length l) + k - 1) / k.
Proof.
  intros Hk. induction l as [|x l IH] using rev_ind.
  - cbn. symmetry. apply Z.div_small. lia.
  - rewrite multiples_snoc, !length_app, !Nat2Z.inj_add, IH. cbn [length].
    change (Z.of_nat 1) with 1. rewrite div_ceil_succ by lia.
    by destruct (Z.of_nat (length l) mod k =? 0).
Qed.

(** X1: a negative interval behaves as its absolute value, the test being
    whether the interval divides the index; with the interval 0 a run on
    a non-empty input raises [ZeroDivisionError] at the first element,
    before anything is yielded. *)
Theorem throttle_nonpositive_interval {A} (generator : list A)
    (stream_interval : Z) :
  Throttle.throttle_generator generator (- stream_interval)
  = Throttle.throttle_generator generator stream_interval
  ∧ (generator ≠ [] →
     Throttle.throttle_generator generator 0 = ([], Err ZeroDivisionError)).
Proof.
  split.
  - destruct (decide (generator = [])) as [->|Hne]; [done|].
    destruct (decide (stream_interval = 0)) as [->|Hk]; [done|].
    rewrite !throttle_run by (done || lia).
    by rewrite multiples_opp, trailing_opp.
  - by destruct generator.
Qed.

(** X2: for an interval of at least 1 the yields of a run on a non-empty
    input are taken from the input in order, each position at most once,
    and there are [(n + interval - 2) / interval + 1] of them for an
    input of [n] elements. *)
Theorem throttle_yield_count {A} (generator : list A) (stream_interval : Z) :
  generator ≠ [] → 1 ≤ stream_interval →
  let ys := (Throttle.throttle_generator generator stream_interval).1 in
  sublist ys generator
  ∧ Z.of_nat (length ys)
    = (Z.of_nat (length generator) + stream_interval - 2) / stream_interval + 1.
Proof.
  intros Hne Hk. cbn zeta. rewrite throttle_run by (done || lia). cbn [fst].
  destruct (exists_last Hne) as (l & x & ->). rewrite run_snoc. split.
  - apply sublist_app; [apply multiples_sublist | done].
  - rewrite !length_app, !Nat2Z.inj_add, multiples_length by done.
    cbn [length]. do 2 f_equal. lia.
Qed.

(** X3: with the interval 1 every element is yielded, once and in
    order. *)
Theorem throttle_interval_one {A} (generator : list A) :
  generator ≠ [] →
  Throttle.throttle_generator generator 1 = (generator, Ok tt).
Proof.
  intros Hne. rewrite throttle_run by done. f_equal.
  destruct (exists_last Hne) as (l & x & ->). rewrite run_snoc. f_equal.
  clear Hne. induction l as [|y l IH] using rev_ind; [done|].
  rewrite multiples_snoc, IH, Z.mod_1_r. done.
Qed.

Lemma multiples_short {A} (x : A) (mid : list A) (k : Z) :
  Z.of_nat (length mid) < k → Throttle.multiples k (x :: mid) = [x].
Proof.
  induction mid as [|z mid IH] using rev_ind; intros Hk.
  - unfold Throttle.multiples, enumerate. rewrite imap_cons.
    rewrite filter_cons_True; [done|]. cbn. by rewrite Z.mod_0_l by lia.
  - rewrite length_app in Hk. cbn [length] in Hk.
    rewrite app_comm_cons, multiples_snoc, IH by lia. cbn [length].
    rewrite Z.mod_small by lia.
    destruct (Z.eqb_spec (Z.of_nat (S (length mid))) 0); [lia|].
    by rewrite app_nil_r.
Qed.

(** X4: when the interval is at least the number of elements minus one,
    only the first and the last element are yielded. *)
Theorem throttle_large_interval {A} (x y : A) (mid : list A)
    (stream_interval : Z) :
  Z.of_nat (length mid) < stream_interval →
  Throttle.throttle_generator (x :: mid ++ [y]) stream_interval
  = ([x; y], Ok tt).
Proof.
  intros Hk. rewrite throttle_run by (done || lia).
  by rewrite app_comm_cons, run_snoc, multiples_short.
Qed.

(** ** [reload_mergeable_ranks]: errors, cuts and what is read *)

Lemma a2b_base64_err (s : list Z) (st : b64_state) (e : exn) :
  a2b_base64 s st = Err e → e = BinasciiError.
Proof.
  revert st. induction s as [|c s IH]; intros st; cbn [a2b_base64].
  - destruct (quad_pos st =? 0); congruence.
  - destruct (c =? 61).
    + destruct ((2 <=? quad_pos st) && (4 <=? quad_pos st + (pads st + 1)));
        [done | apply IH].
    + destruct (b64_value c); apply IH.
Qed.

Lemma b64decode_err (s : string) (e : exn) :
  b64decode s = Err e → e = BinasciiError ∨ e = ValueError.
Proof.
  unfold b64decode. destruct (forallb _ _).
  - intros ->%a2b_base64_err. by left.
  - intros [= <-]. by right.
Qed.

Lemma dom_lookup_is_Some (x : gmap string jvalue) (key : string) :
  dom x = entry_keys → key ∈ entry_keys → is_Some (x !! key).
Proof. intros <- Hkey. by apply elem_of_dom. Qed.

(** The exceptions of one iteration: a missing field is caught by the
    assertion on the keys, so no lookup fails. *)
Lemma build_rank_err ranks (i : Z) x (e : exn) :
  0 ≤ i → build_rank ranks (i, x) = Err e
  → e ∈ [AssertionError; TypeError; BinasciiError; ValueError].
Proof.
  intros Hi. unfold build_rank, getitem.
  case_bool_decide as Hdom; simpl; [|intros [= <-]; set_solver].
  destruct (dom_lookup_is_Some x "rank" Hdom) as [rank ->]; [set_solver|].
  destruct (dom_lookup_is_Some x "token_bytes" Hdom) as [tb ->]; [set_solver|].
  destruct rank as [r|s]; simpl; [|intros [= <-]; set_solver].
  destruct (r =? i); simpl; [|intros [= <-]; set_solver].
  destruct tb as [z|tb]; simpl; [intros [= <-]; set_solver|].
  destruct (b64decode tb) as [merge|e'] eqn:Hdec; simpl.
  - destruct (Z.leb_spec 256 i); simpl; [done|].
    rewrite py_bytes_byte by lia. simpl.
    case_bool_decide; simpl; [done | intros [= <-]; set_solver].
  - intros [= <-]. apply b64decode_err in Hdec as [->| ->]; set_solver.
Qed.

Lemma build_ranks_err vocab (e : exn) :
  for_each build_rank (enumerate vocab) ∅ = Err e
  → e ∈ [AssertionError; TypeError; BinasciiError; ValueError].
Proof.
  induction vocab as [|x vocab IH] using rev_ind; [done|].
  rewrite enumerate_snoc, for_each_snoc.
  destruct (for_each build_rank (enumerate vocab) ∅) as [ranks|e']; simpl.
  - apply build_rank_err. lia.
  - intros [= <-]. by apply IH.
Qed.

(** X5: a path that does not end in [.json] is refused with
    [AssertionError] before any file is opened; a missing file raises
    [FileNotFoundError]; and whatever the file holds, a failure of the
    loader is one of five exceptions: a missing field is an
    [AssertionError] of the key check and never a [KeyError]. *)
Theorem reload_errors (files : file_system) (path : string)
    (max_vocab : option Z) :
  (endswith path ".json" = false
   → reload_mergeable_ranks files path max_vocab = Err AssertionError)
  ∧ (endswith path ".json" = true → files path = None
     → reload_mergeable_ranks files path max_vocab = Err FileNotFoundError)
  ∧ (∀ e, reload_mergeable_ranks files path max_vocab = Err e
          → e ∈ [AssertionError; FileNotFoundError; TypeError;
                 BinasciiError; ValueError]).
Proof.
  unfold reload_mergeable_ranks. split_and!.
  - by intros ->.
  - by intros -> ->.
  - intros e. destruct (endswith path ".json"); simpl;
      [|intros [= <-]; set_solver].
    destruct (files path) as [[items|]|]; simpl;
      [|intros [= <-]; set_solver..].
    destruct (for_each build_rank _ ∅) as [ranks|e'] eqn:Hloop; simpl.
    + repeat case_bool_decide; simpl; try done; intros [= <-]; set_solver.
    + intros ?. simplify_eq. apply build_ranks_err in Hloop. set_solver.
Qed.

(** *** Cutting the vocabulary *)

Lemma slice_to_take {A} (l : list A) (stop : Z) :
  slice_to l stop = take (Z.to_nat (slice_stop (length l) stop)) l.
Proof.
  unfold slice_to, slice_stop. destruct (Z.leb_spec 0 stop); f_equal. lia.
Qed.

Lemma enumerate_take {A} (l : list A) (n : nat) :
  enumerate (take n l) = take n (enumerate l).
Proof.
  apply list_eq. intros i. unfold enumerate.
  rewrite list_lookup_imap.
  destruct (decide (i < n)%nat).
  - by rewrite !lookup_take_lt, list_lookup_imap by done.
  - by rewrite !lookup_take_ge by lia.
Qed.

Lemma valid_vocab_take vocab tokens (n : nat) :
  valid_vocab vocab tokens → valid_vocab (take n vocab) (take n tokens).
Proof.
  intros [Hall Hnd]. split.
  - rewrite enumerate_take. by apply Forall2_take.
  - eapply sublist_NoDup; [done | apply sublist_take].
Qed.

(** The table of the first [n] tokens holds the ranks below [n]. *)
Lemma table_of_take tokens (n : nat) :
  NoDup tokens →
  table_of (take n tokens)
  = filter (λ br, br.2 < Z.of_nat n) (table_of tokens).
Proof.
  intros Hnd. apply map_eq. intros b. apply option_eq. intros r.
  rewrite map_lookup_filter_Some. cbn [snd]. split.
  - intros (i & -> & Hi)%table_of_lookup.
    pose proof (lookup_lt_Some _ _ _ Hi) as Hlt. rewrite length_take in Hlt.
    rewrite lookup_take_lt in Hi by lia.
    split; [by apply table_of_rank | lia].
  - intros [(i & -> & Hi)%table_of_lookup Hlt].
    apply table_of_rank.
    + eapply sublist_NoDup; [done | apply sublist_take].
    + rewrite lookup_take_lt by lia. done.
Qed.

(** X6: when the whole vocabulary loads, so does every cut of it, and
    the table of the cut is the full table restricted to the ranks below
    the end of the slice; a negative [max_vocab] counts from the end. *)
Theorem reload_truncation (files : file_system) (path : string)
    (ranks : gmap (list Z) Z) (max_vocab : Z) :
  reload_mergeable_ranks files path None = Ok ranks →
  reload_mergeable_ranks files path (Some max_vocab)
  = Ok (filter (λ br, br.2 < slice_stop (size ranks) max_vocab) ranks).
Proof.
  intros (Hjson & items & tokens & Hfile & Hvalid & ->)%reload_ok.
  cbn [truncate] in Hvalid.
  pose proof (valid_vocab_length _ _ Hvalid) as Hlen.
  assert (size (table_of tokens) = length items) as Hsize.
  { rewrite <- Hlen. apply table_of_size, Hvalid. }
  apply reload_ok. split; [done|].
  exists items, (take (Z.to_nat (slice_stop (length items) max_vocab)) tokens).
  split_and!; [done | |].
  - cbn [truncate]. rewrite slice_to_take. by apply valid_vocab_take.
  - rewrite table_of_take by apply Hvalid. rewrite Hsize.
    apply map_filter_ext. intros b r (i & -> & Hi)%table_of_lookup. cbn [snd].
    lia.
Qed.

(** *** The fields that are read *)

Lemma build_rank_alter ranks (i : Z) x (f : jvalue → jvalue) :
  build_rank ranks (i, alter f "token_str"%string x) = build_rank ranks (i, x).
Proof.
  unfold build_rank, getitem.
  by rewrite dom_alter_L, !lookup_alter_ne by done.
Qed.

Lemma for_each_alter (f : jvalue → jvalue) vocab :
  for_each build_rank (enumerate (alter f "token_str"%string <$> vocab)) ∅
  = for_each build_rank (enumerate vocab) ∅.
Proof.
  induction vocab as [|x vocab IH] using rev_ind; [done|].
  rewrite fmap_app. cbn [fmap list_fmap].
  rewrite !enumerate_snoc, !for_each_snoc, IH, length_fmap.
  destruct (for_each build_rank (enumerate vocab) ∅); simpl; [|done].
  apply build_rank_alter.
Qed.

Lemma truncate_fmap {A B} (g : A → B) (l : list A) (max_vocab : option Z) :
  truncate (g <$> l) max_vocab = g <$> truncate l max_vocab.
Proof.
  destruct max_vocab as [m|]; [|done]. cbn [truncate].
  by rewrite !slice_to_take, length_fmap, fmap_take.
Qed.

(** X7: the loader never looks at the value of the field [token_str]:
    two files whose entries differ only there load to the same result,
    table or exception. *)
Theorem reload_ignores_token_str (files files' : file_system) (path : string)
    (max_vocab : option Z) (items : list (gmap string jvalue))
    (f : jvalue → jvalue) :
  files path = Some (JList items) →
  files' path = Some (JList (alter f "token_str"%string <$> items)) →
  reload_mergeable_ranks files' path max_vocab
  = reload_mergeable_ranks files path max_vocab.
Proof.
  intros Hfile Hfile'. unfold reload_mergeable_ranks.
  rewrite Hfile, Hfile'. destruct (endswith path ".json"); simpl; [|done].
  fold (truncate items max_vocab).
  fold (truncate (alter f "token_str"%string <$> items) max_vocab).
  by rewrite truncate_fmap, for_each_alter, length_fmap.
Qed.

(** X8: in a table the loader returns, a token has rank [i] exactly
    when it is what the field [token_bytes] of the entry at position [i]
    decodes to; every entry that was read has the three fields and no
    other, and its field [rank] is its position. *)
Theorem reload_table_entries (files : file_system) (path : string)
    (max_vocab : option Z) (ranks : gmap (list Z) Z)
    (items : list (gmap string jvalue)) :
  reload_mergeable_ranks files path max_vocab = Ok ranks →
  files path = Some (JList items) →
  (∀ b r, ranks !! b = Some r
          ↔ ∃ (i : nat) x, r = Z.of_nat i
                           ∧ truncate items max_vocab !! i = Some x
                           ∧ entry_token x = Ok b)
  ∧ (∀ (i : nat) x, truncate items max_vocab !! i = Some x
       → dom x = entry_keys ∧ x !! "rank"%string = Some (JInt (Z.of_nat i))).
Proof.
  intros Hload Hfile. split.
  - intros b r. split.
    + intros Hb.
      destruct (reload_ok_rank _ _ _ _ _ _ Hload Hb)
        as (items' & i & x & Hfile' & -> & Hx & Hcheck).
      assert (items' = items) as -> by congruence.
      apply check_entry_ok in Hcheck as (_ & _ & Htoken & _).
      by exists i, x.
    + intros (i & x & -> & Hx & Htoken).
      destruct (reload_ok_lookup _ _ _ _ _ _ _ Hload Hfile Hx)
        as (b' & Hcheck & Hb').
      apply check_entry_ok in Hcheck as (_ & _ & Htoken' & _).
      congruence.
  - intros i x Hx.
    destruct (reload_ok_lookup _ _ _ _ _ _ _ Hload Hfile Hx)
      as (b' & Hcheck & _).
    by apply check_entry_ok in Hcheck as (? & ? & _).
Qed.

(** ** The constructor: special tokens and tables *)

Lemma list_index_lookup (x : string) (l : list string) (i : Z) :
  list_index x l = Ok i → 0 ≤ i ∧ l !! Z.to_nat i = Some x.
Proof.
  revert i. induction l as [|y l IH]; intros i; cbn [list_index]; [done|].
  case_decide as Hxy.
  - intros [= <-]. by subst y.
  - destruct (list_index x l) as [j|]; cbn; [|done].
    intros [= <-]. destruct (IH j eq_refl) as [Hj Hl]. split; [lia|].
    replace (Z.to_nat (Z.succ j)) with (S (Z.to_nat j)) by lia. done.
Qed.

(** X9: special tokens that fail one of the constructor's checks (a
    repeated label, more labels than [num_special_tokens], a
    [num_special_tokens] that is not below [vocab_size], a missing default
    label, a label that one of the generated placeholders repeats) make
    the constructor raise [AssertionError], whatever the path and the
    files are: the checks come before the file is opened. *)
Theorem init_special_rejected `{UnicodeData} (files : file_system)
    (path : string) (vs nst : Z) (sp : option (list string)) :
  ¬ special_ok vs nst sp →
  CustomTikTokenizer_init files path vs nst sp = Err AssertionError.
Proof.
  intros Hnot. unfold CustomTikTokenizer_init.
  fold (special_filler (length (default SPECIAL_TOKENS sp)) nst).
  set (special := default SPECIAL_TOKENS sp).
  set (filler := special_filler (length special) nst).
  destruct (bool_decide (length special = size (list_to_set special : gset string)))
    eqn:Hnd; cbn [assert mbind result_bind]; [|done].
  apply bool_decide_eq_true in Hnd. symmetry in Hnd.
  apply list_to_set_size in Hnd.
  destruct ((Z.of_nat (length special) <=? nst) && (nst <? vs)) eqn:Hlen;
    cbn [assert mbind result_bind]; [|done].
  apply andb_true_iff in Hlen as [Hlen1%Z.leb_le Hlen2%Z.ltb_lt].
  destruct (bool_decide (list_to_set SPECIAL_TOKENS
                           ⊆@{gset string} list_to_set special)) eqn:Hsub;
    cbn [assert mbind result_bind]; [|done].
  apply bool_decide_eq_true in Hsub.
  pose proof (proj1 (subset_list_to_set _ _) Hsub) as Hsub'.
  rewrite !list_index_elem by (apply Hsub'; set_solver).
  cbn [mbind result_bind].
  destruct (bool_decide (size (list_to_set (special ++ filler) : gset string)
                         = length (special ++ filler))) eqn:Hall;
    cbn [andb assert mbind result_bind]; [|done].
  apply bool_decide_eq_true in Hall. apply list_to_set_size in Hall.
  destruct Hnot. unfold special_ok. fold special. fold filler.
  split_and!; try done. by apply Forall_forall.
Qed.

Section SpecialIds.
Context `{UnicodeData}.
Variables (vs nst : Z) (sp : option (list string)) (tokens : list (list Z)).
Hypothesis Hsp : special_ok vs nst sp.

Let tok : CustomTikTokenizer := tokenizer_of vs nst sp tokens.

(** The id of a default label is its position in the special tokens,
    and the shifted table has the label there. *)
Lemma special_id_label (label : string) :
  label ∈ SPECIAL_TOKENS →
  let id := index_or_zero label (default SPECIAL_TOKENS sp) in
  0 ≤ id < Z.of_nat (length (default SPECIAL_TOKENS sp))
  ∧ default SPECIAL_TOKENS sp !! Z.to_nat id = Some label
  ∧ special_tokens tok !! Z.to_nat id = Some label
  ∧ shifted_id2token tok !! id = Some (inl label).
Proof.
  intros Hlabel. cbn zeta.
  pose proof Hsp as (_ & _ & Hsub & _).
  rewrite Forall_forall in Hsub. specialize (Hsub _ Hlabel).
  pose proof (list_index_elem _ _ Hsub) as Hidx.
  pose proof (list_index_bounds _ _ _ Hidx) as Hbounds.
  destruct (list_index_lookup _ _ _ Hidx) as [_ Hlook].
  assert (special_tokens tok
            !! Z.to_nat (index_or_zero label (default SPECIAL_TOKENS sp))
          = Some label) as Hall.
  { cbn [special_tokens tok tokenizer_of]. by apply lookup_app_l_Some. }
  split_and!; [lia.. | done | done |].
  rewrite <- (Z2Nat.id (index_or_zero _ _)) at 1 by lia.
  by apply shifted_special.
Qed.
End SpecialIds.

(** X10: in a constructed tokenizer the ids of UNK, BOS and EOS are the
    positions of ["<unk>"], ["<s>"] and ["</s>"] in the special tokens
    given; they are three different ids, the decoder table has the three
    labels there, and the padding id and the EOD id are the EOS id.  With
    the default special tokens the ids are 0, 1 and 2. *)
Theorem init_special_ids `{UnicodeData} (files : file_system) (path : string)
    (vs nst : Z) (sp : option (list string)) (tok : CustomTikTokenizer) :
  CustomTikTokenizer_init files path vs nst sp = Ok tok →
  let special := default SPECIAL_TOKENS sp in
  (special !! Z.to_nat (unk tok) = Some "<unk>"%string
   ∧ special !! Z.to_nat (bos tok) = Some "<s>"%string
   ∧ special !! Z.to_nat (eos tok) = Some "</s>"%string)
  ∧ (decoder_table tok !! unk tok = Some (inl "<unk>"%string)
     ∧ decoder_table tok !! bos tok = Some (inl "<s>"%string)
     ∧ decoder_table tok !! eos tok = Some (inl "</s>"%string))
  ∧ (0 ≤ unk tok ∧ 0 ≤ bos tok ∧ 0 ≤ eos tok)
  ∧ (unk tok ≠ bos tok ∧ unk tok ≠ eos tok ∧ bos tok ≠ eos tok)
  ∧ (pad_token_id tok = eos tok ∧ eod tok = eos tok)
  ∧ (sp = None → unk tok = 0 ∧ bos tok = 1 ∧ eos tok = 2).
Proof.
  intros (tokens & -> & Hsp & _)%init_inv. cbn zeta.
  destruct (special_id_label vs nst sp tokens Hsp "<unk>")
    as ([Hu0 _] & Hu1 & _ & Hu2); [set_solver|].
  destruct (special_id_label vs nst sp tokens Hsp "<s>")
    as ([Hb0 _] & Hb1 & _ & Hb2); [set_solver|].
  destruct (special_id_label vs nst sp tokens Hsp "</s>")
    as ([He0 _] & He1 & _ & He2); [set_solver|].
  unfold unk, bos, eos, pad_token_id, eod, decoder_table.
  cbn [_unk_id _bos_id _eos_id tokenizer_of].
  split_and!; try done.
  - intros Heq. rewrite Heq in Hu1. congruence.
  - intros Heq. rewrite Heq in Hu1. congruence.
  - intros Heq. rewrite Heq in Hb1. congruence.
  - intros ->. by vm_compute.
Qed.

(** *** The shifted table *)

(** What the loop over [id2token] leaves in the shifted table: the
    token of every rank at the shifted rank, and elsewhere what the table
    of the special tokens had. *)
Lemma shifted_lookup (base : gmap Z (string + list Z)) (m : gmap Z (list Z))
    (nst k : Z) :
  map_fold (λ key value shifted, <[key + nst := inr value]> shifted) base m !! k
  = match m !! (k - nst) with
    | Some b => Some (inr b)
    | None => base !! k
    end.
Proof.
  revert k.
  apply (map_fold_weak_ind
           (λ shifted (m : gmap Z (list Z)),
              ∀ k, shifted !! k = match m !! (k - nst) with
                                  | Some b => Some (inr b)
                                  | None => base !! k
                                  end)).
  - intros k. by rewrite lookup_empty.
  - intros r b m' shifted Hfresh IH k.
    destruct (decide (k = r + nst)) as [->|Hk].
    + rewrite lookup_insert_eq.
      replace (r + nst - nst) with r by lia. by rewrite lookup_insert_eq.
    + rewrite !lookup_insert_ne by lia. apply IH.
Qed.

Lemma enumerate_elem {A} (l : list A) (i : Z) (x : A) :
  (i, x) ∈ enumerate l ↔ 0 ≤ i ∧ l !! Z.to_nat i = Some x.
Proof.
  split.
  - intros (j & Hj)%list_elem_of_lookup.
    apply enumerate_lookup in Hj as [Hi Hx]. cbn in Hi, Hx. subst i.
    rewrite Nat2Z.id. split; [lia | done].
  - intros [Hi Hx]. apply list_elem_of_lookup. exists (Z.to_nat i).
    unfold enumerate. rewrite list_lookup_imap, Hx. cbn. f_equal. f_equal. lia.
Qed.

Lemma NoDup_enumerate_keys {A} (l : list A) : NoDup (enumerate l).*1.
Proof.
  unfold enumerate. rewrite fmap_imap.
  apply NoDup_alt. intros j1 j2 x.
  rewrite !list_lookup_imap, !fmap_Some.
  intros (? & _ & ->) (? & _ & Heq). cbn in Heq. lia.
Qed.

(** The table of the enumerated list [l]. *)
Lemma dict_enumerate_lookup {A} (l : list A) (i : Z) (x : A) :
  dict_of_items (enumerate l) !! i = Some x
  ↔ 0 ≤ i ∧ l !! Z.to_nat i = Some x.
Proof.
  rewrite <- enumerate_elem. split; [apply dict_of_items_elem|].
  apply dict_of_items_lookup, NoDup_enumerate_keys.
Qed.

Section ShiftedTable.
Context `{UnicodeData}.
Variables (vs nst : Z) (sp : option (list string)) (tokens : list (list Z)).
Hypothesis Hsp : special_ok vs nst sp.
Hypothesis Hnd : NoDup tokens.
Hypothesis Hlen : Z.of_nat (length tokens) = vs - nst.

Let tok : CustomTikTokenizer := tokenizer_of vs nst sp tokens.

Lemma length_all_special : Z.of_nat (length (special_tokens tok)) = nst.
Proof.
  cbn [special_tokens tok tokenizer_of]. destruct Hsp as (_ & [Hl _] & _).
  rewrite length_app. pose proof (length_special_filler _ _ Hl). lia.
Qed.

(** The inverse table has the token of rank [r] at [r]. *)
Lemma inverse_lookup (r : Z) (b : list Z) :
  invert_dict (table_of tokens) !! r = Some b ↔ table_of tokens !! b = Some r.
Proof.
  split; [apply invert_dict_elem|].
  apply invert_dict_lookup. apply table_of_inj.
Qed.

Lemma shifted_ordinary (i : Z) (b : list Z) :
  shifted_id2token tok !! i = Some (inr b)
  ↔ table_of tokens !! b = Some (i - nst).
Proof.
  cbn [shifted_id2token tok tokenizer_of]. rewrite shifted_lookup.
  rewrite <- inverse_lookup.
  destruct (invert_dict (table_of tokens) !! (i - nst)) as [b'|].
  - split; intros [= ->]; done.
  - split; [|done].
    intros (_ & Hx)%dict_enumerate_lookup.
    rewrite list_lookup_fmap in Hx.
    by destruct (_ !! Z.to_nat i).
Qed.

Lemma shifted_label (i : Z) (label : string) :
  shifted_id2token tok !! i = Some (inl label)
  ↔ 0 ≤ i < nst ∧ special_tokens tok !! Z.to_nat i = Some label.
Proof.
  split.
  - cbn [shifted_id2token tok tokenizer_of]. rewrite shifted_lookup.
    destruct (invert_dict (table_of tokens) !! (i - nst)); [done|].
    intros (Hi & Hx)%dict_enumerate_lookup.
    rewrite list_lookup_fmap in Hx.
    destruct (_ !! Z.to_nat i) as [label'|] eqn:Hlabel; [|done].
    injection Hx as ->.
    pose proof (lookup_lt_Some _ _ _ Hlabel) as Hlt.
    pose proof length_all_special as Hall.
    cbn [special_tokens tok tokenizer_of] in Hall.
    split; [lia | done].
  - intros [Hi Hlabel]. rewrite <- (Z2Nat.id i) at 1 by lia.
    by apply shifted_special.
Qed.

Lemma shifted_dom : dom (shifted_id2token tok) = set_range vs.
Proof.
  apply set_eq. intros i. rewrite elem_of_dom, elem_of_set_range. split.
  - intros [[label|b] Hi].
    + apply shifted_label in Hi as [Hi _].
      destruct Hsp as (_ & [_ ?] & _). lia.
    + apply shifted_ordinary, table_of_lookup in Hi as (j & Hj & Hb).
      apply lookup_lt_Some in Hb.
      destruct Hsp as (_ & [? _] & _). lia.
  - intros Hi. destruct (decide (i < nst)) as [Hlt|Hge].
    + destruct (lookup_lt_is_Some_2 (special_tokens tok) (Z.to_nat i))
        as [label Hlabel].
      { pose proof length_all_special. lia. }
      exists (inl label). apply shifted_label. split; [lia | done].
    + destruct (lookup_lt_is_Some_2 tokens (Z.to_nat (i - nst))) as [b Hb];
        [lia|].
      exists (inr b). apply shifted_ordinary.
      rewrite (table_of_rank _ _ _ Hnd Hb). f_equal. lia.
Qed.
End ShiftedTable.

(** X11: the decoder table of a constructed tokenizer has exactly the
    ids from 0 up to [vocab_size]; an id has a token there exactly when
    the token has the rank [id - num_special_tokens] in the vocabulary,
    and a label exactly when the id is below [num_special_tokens] and the
    label stands at that position of the special tokens. *)
Theorem init_decoder_table `{UnicodeData} (files : file_system) (path : string)
    (vs nst : Z) (sp : option (list string)) (tok : CustomTikTokenizer) :
  CustomTikTokenizer_init files path vs nst sp = Ok tok →
  dom (decoder_table tok) = set_range vs
  ∧ (∀ i b, decoder_table tok !! i = Some (inr b)
            ↔ vocab tok !! b = Some (i - nst))
  ∧ (∀ i label, decoder_table tok !! i = Some (inl label)
                ↔ 0 ≤ i < nst ∧ special_tokens tok !! Z.to_nat i = Some label)
  ∧ (∀ i b, vocab tok !! b = Some (i - nst) → nst ≤ i < vs).
Proof.
  intros (tokens & -> & Hsp & Hnd & Hlen & _)%init_inv.
  unfold decoder_table, vocab. split_and!.
  - by apply shifted_dom.
  - intros i b. by apply shifted_ordinary.
  - intros i label. by apply shifted_label.
  - intros i b (j & Hj & Hb)%table_of_lookup.
    apply lookup_lt_Some in Hb. lia.
Qed.

(** X12: in a constructed tokenizer [vocab] and [inv_vocab] are inverse
    to each other, both have [vocab_size - num_special_tokens] entries,
    the ranks are the numbers below that size, and the engine works on
    the same table. *)
Theorem init_vocab_inverse `{UnicodeData} (files : file_system) (path : string)
    (vs nst : Z) (sp : option (list string)) (tok : CustomTikTokenizer) :
  CustomTikTokenizer_init files path vs nst sp = Ok tok →
  (∀ b r, vocab tok !! b = Some r ↔ inv_vocab tok !! r = Some b)
  ∧ Z.of_nat (size (vocab tok)) = vs - nst
  ∧ size (inv_vocab tok) = size (vocab tok)
  ∧ dom (inv_vocab tok) = set_range (vs - nst)
  ∧ inner_vocab_size tok = vs - nst
  ∧ encoder tok = vocab tok
  ∧ mergeable_ranks (_model tok) = vocab tok
  ∧ decoder (_model tok) = inv_vocab tok.
Proof.
  intros (tokens & -> & Hsp & Hnd & Hlen & _)%init_inv.
  unfold vocab, inv_vocab, encoder. cbn [token2id id2token tokenizer_of].
  split_and!; try done.
  - intros b r. symmetry. apply inverse_lookup.
  - rewrite (proj2 (table_of_size tokens)) by done. done.
  - by apply invert_table_size.
  - rewrite invert_dict_dom, table_of_img by done. by rewrite Hlen.
Qed.

(** *** What the constructor reads *)

(** X13: the constructor reads only the first
    [vocab_size - num_special_tokens] entries of the vocabulary file: over
    two files that agree on them it returns the same tokenizer or raises
    the same exception, whatever follows in the files. *)
Theorem init_reads_prefix `{UnicodeData} (files files' : file_system)
    (path : string) (vs nst : Z) (sp : option (list string))
    (items items' : list (gmap string jvalue)) :
  files path = Some (JList items) →
  files' path = Some (JList items') →
  slice_to items (vs - nst) = slice_to items' (vs - nst) →
  CustomTikTokenizer_init files' path vs nst sp
  = CustomTikTokenizer_init files path vs nst sp.
Proof.
  intros Hfile Hfile' Hslice.
  assert (reload_mergeable_ranks files' path (Some (vs - nst))
          = reload_mergeable_ranks files path (Some (vs - nst))) as Hload.
  { unfold reload_mergeable_ranks. rewrite Hfile, Hfile'.
    destruct (endswith path ".json"); [|done].
    cbn [assert mbind result_bind of_option]. by rewrite Hslice. }
  unfold CustomTikTokenizer_init. by rewrite Hload.
Qed.

Lemma special_ok_smaller (vs vs' nst : Z) (sp : option (list string)) :
  special_ok vs nst sp → nst < vs' → special_ok vs' nst sp.
Proof.
  intros (Hnd & [Hlen _] & Hsub & Hall) Hvs. split_and!; done || lia.
Qed.

(** X14: when the constructor accepts a file for some [vocab_size], it
    accepts it for every smaller [vocab_size] above [num_special_tokens],
    and the vocabulary of the smaller tokenizer is the vocabulary of the
    larger one restricted to the ranks that remain; the special ids are
    the same. *)
Theorem init_smaller_vocab `{UnicodeData} (files : file_system) (path : string)
    (vs vs' nst : Z) (sp : option (list string)) (tok : CustomTikTokenizer) :
  CustomTikTokenizer_init files path vs nst sp = Ok tok →
  nst < vs' ≤ vs →
  ∃ tok',
    CustomTikTokenizer_init files path vs' nst sp = Ok tok'
    ∧ vocab tok' = filter (λ br, br.2 < vs' - nst) (vocab tok)
    ∧ special_tokens tok' = special_tokens tok
    ∧ unk tok' = unk tok ∧ bos tok' = bos tok ∧ eos tok' = eos tok.
Proof.
  intros (Hsp & Hjson & items & tokens & Hfile & Hvalid & Hlen & ->)%init_ok
    Hvs.
  set (n' := Z.to_nat (vs' - nst)).
  exists (tokenizer_of vs' nst sp (take n' tokens)). split_and!; try done.
  - apply init_ok.
    split_and!; [eapply special_ok_smaller; [done | lia] | done |].
    exists items, (take n' tokens). split_and!; try done.
    + rewrite slice_to_nonneg in Hvalid |- * by lia.
      replace (take (Z.to_nat (vs' - nst)) items)
        with (take n' (take (Z.to_nat (vs - nst)) items))
        by (rewrite take_take; f_equal; lia).
      by apply valid_vocab_take.
    + rewrite length_take. lia.
  - unfold vocab. cbn [token2id tokenizer_of].
    rewrite table_of_take by apply Hvalid.
    apply map_filter_ext. intros b r _. cbn [snd]. lia.
Qed.

(** ** [tokenize] and [detokenize]: what succeeds and what comes back *)

Lemma bpe_merge_concat ranks (fuel : nat) (parts : list (list Z)) :
  concat (bpe_merge ranks fuel parts) = concat parts.
Proof.
  revert parts. induction fuel as [|fuel IH]; intros parts; [done|].
  cbn [bpe_merge]. destruct (best_pair ranks parts 0) as [[r i]|]; [|done].
  by rewrite IH, merge_at_concat.
Qed.

Lemma concat_singletons (piece : list Z) : concat ((λ b, [b]) <$> piece) = piece.
Proof. induction piece as [|b piece IH]; [done|]. cbn. by rewrite IH. Qed.

Lemma merge_at_nonempty (parts : list (list Z)) (i : nat) :
  Forall (λ part, part ≠ []) parts → Forall (λ part, part ≠ []) (merge_at parts i).
Proof.
  revert i. induction parts as [|p parts IH]; intros i Hall; [by destruct i|].
  apply Forall_cons in Hall as [Hp Hall].
  destruct i as [|i]; cbn [merge_at].
  - destruct parts as [|q parts]; [by constructor|].
    apply Forall_cons in Hall as [_ Hall]. constructor; [|done].
    by destruct p.
  - destruct parts as [|q parts]; [by constructor|].
    constructor; [done | by apply IH].
Qed.

Lemma bpe_merge_nonempty ranks (fuel : nat) (parts : list (list Z)) :
  Forall (λ part, part ≠ []) parts
  → Forall (λ part, part ≠ []) (bpe_merge ranks fuel parts).
Proof.
  revert parts. induction fuel as [|fuel IH]; intros parts Hall; [done|].
  cbn [bpe_merge]. destruct (best_pair ranks parts 0) as [[r i]|]; [|done].
  by apply IH, merge_at_nonempty.
Qed.

(** The ranks of an encoded segment are the ranks of non-empty parts that
    make up the segment. *)
Lemma byte_pair_encode_parts ranks (piece rs : list Z) :
  byte_pair_encode ranks piece = Ok rs
  → ∃ parts, Forall2 (λ part r, ranks !! part = Some r) parts rs
             ∧ concat parts = piece
             ∧ Forall (λ part, part ≠ []) parts.
Proof.
  unfold byte_pair_encode. intros Hrs%map_result_ok.
  exists (bpe_merge ranks (length piece) ((λ b, [b]) <$> piece)). split_and!.
  - eapply Forall2_impl; [exact Hrs|].
    intros part r. cbn. by destruct (ranks !! part); intros [= ->].
  - by rewrite bpe_merge_concat, concat_singletons.
  - apply bpe_merge_nonempty, Forall_fmap, Forall_forall. by intros b _.
Qed.

Section EngineBytes.
Context `{UnicodeData}.
Variable ranks : gmap (list Z) Z.
Hypothesis ranks_inj :
  ∀ b1 b2 r, ranks !! b1 = Some r → ranks !! b2 = Some r → b1 = b2.

Lemma encode_pieces_bytes (pieces rss : list (list Z)) :
  map_result (λ piece, byte_pair_encode ranks (utf8_encode piece)) pieces
  = Ok rss
  → ∃ parts,
      map_result (λ t, of_option KeyError (invert_dict ranks !! t))
        (concat rss) = Ok parts
      ∧ concat parts = utf8_encode (concat pieces)
      ∧ Forall (λ part, part ≠ []) parts.
Proof.
  intros Hall%map_result_ok.
  induction Hall as [|piece rs pieces rss Hrs _ (parts & Hdec & Hcat & Hne)].
  - by exists [].
  - destruct (byte_pair_encode_parts _ _ _ Hrs)
      as (parts0 & Hranked & Hcat0 & Hne0).
    exists (parts0 ++ parts). split_and!.
    + cbn [concat]. apply map_result_app; [by apply decode_ranks | done].
    + rewrite concat_app, Hcat0, Hcat. unfold utf8_encode. cbn [concat].
      by rewrite flat_map_app.
    + by apply Forall_app.
Qed.

(** Whenever the engine encodes a text of scalar values, the tokens of
    the ranks it returns are not empty and make up the UTF-8 encoding of
    the text. *)
Lemma engine_bytes (text rs : list Z) :
  forallb is_scalar text = true
  → Encoding_encode
      {| pat_str := PATTERN_TIKTOKEN_V2; mergeable_ranks := ranks;
         decoder := invert_dict ranks |} text = Ok rs
  → ∃ parts,
      map_result (λ t, of_option KeyError (invert_dict ranks !! t)) rs
      = Ok parts
      ∧ concat parts = utf8_encode text
      ∧ Forall (λ part, part ≠ []) parts.
Proof.
  intros Htext. unfold Encoding_encode. rewrite Htext.
  cbn [pat_str mergeable_ranks].
  intros (rss & Hrss & [= <-])%bind_ok.
  destruct (encode_pieces_bytes _ _ Hrss) as (parts & Hdec & Hcat & Hne).
  exists parts. by rewrite findall_pattern_concat in Hcat.
Qed.
End EngineBytes.

(** The ids [tokenize] returns, with or without BOS and EOS, pass
    [detokenize]'s filter and shift as the ranks of the engine. *)
Lemma tokenize_ranks `{UnicodeData} files path vs nst sp tok
    (text ids : list Z) (b e : bool) :
  CustomTikTokenizer_init files path vs nst sp = Ok tok
  → tokenize tok text b e = Ok ids
  → ∃ rs, Encoding_encode (_model tok) text = Ok rs
          ∧ (λ t, t - num_special_tokens tok)
              <$> filter (λ t, t ∉ ({[ _bos_id tok; _eos_id tok ]} : gset Z)) ids
            = rs.
Proof.
  intros Hinit. unfold tokenize.
  intros (rs & Hrs & [= <-])%bind_ok. exists rs. split; [done|].
  assert (Forall (λ r, 0 ≤ r) rs) as Hpos.
  { pose proof Hinit as (tokens & -> & _ & Hnd & _)%init_inv.
    apply encoding_ranks_img in Hrs. eapply Forall_impl; [exact Hrs|].
    intros r Hr%table_rank_bounds; [lia | done]. }
  pose proof (init_unshift_shift _ _ _ _ _ _ _ Hinit Hpos) as Hshift.
  destruct b, e; rewrite ?filter_app, ?filter_cons_False, ?filter_app,
    ?filter_cons_False, ?filter_nil, ?app_nil_r by set_solver; done.
Qed.

Lemma tokenize_bytes `{UnicodeData} files path vs nst sp tok
    (text ids : list Z) (b e : bool) :
  CustomTikTokenizer_init files path vs nst sp = Ok tok
  → forallb is_scalar text = true
  → tokenize tok text b e = Ok ids
  → ∃ parts,
      map_result (λ t, of_option KeyError (decoder (_model tok) !! t))
        ((λ t, t - num_special_tokens tok)
           <$> filter (λ t, t ∉ ({[ _bos_id tok; _eos_id tok ]} : gset Z)) ids)
      = Ok parts
      ∧ concat parts = utf8_encode text
      ∧ Forall (λ part, part ≠ []) parts.
Proof.
  intros Hinit Htext Hids.
  destruct (tokenize_ranks _ _ _ _ _ _ _ _ _ _ Hinit Hids) as (rs & Hrs & ->).
  apply init_inv in Hinit as (tokens & -> & _).
  cbn [_model tokenizer_of decoder] in *.
  by apply (engine_bytes _ (table_of_inj tokens) text).
Qed.

(** X15: whenever [tokenize] returns ids for a text of Unicode scalar
    values, with or without BOS and EOS and whatever the size of the
    vocabulary, [detokenize] gives the text back from them. *)
Theorem detokenize_tokenized `{UnicodeData} (files : file_system)
    (path : string) (vs nst : Z) (sp : option (list string))
    (tok : CustomTikTokenizer) (text ids : list Z) (b e : bool) :
  CustomTikTokenizer_init files path vs nst sp = Ok tok →
  forallb is_scalar text = true →
  tokenize tok text b e = Ok ids →
  detokenize tok ids = Ok text.
Proof.
  intros Hinit Htext Hids.
  destruct (tokenize_bytes _ _ _ _ _ _ _ _ _ _ Hinit Htext Hids)
    as (parts & Hparts & Hcat & _).
  unfold detokenize, Encoding_decode. rewrite Hparts. cbn.
  by rewrite Hcat, utf8_decode_encode.
Qed.

(** X16: the ids of two texts of scalar values, put one after the
    other, are detokenized to the two texts put one after the other,
    also when the ids carry BOS and EOS. *)
Theorem detokenize_concat `{UnicodeData} (files : file_system) (path : string)
    (vs nst : Z) (sp : option (list string)) (tok : CustomTikTokenizer)
    (text1 text2 ids1 ids2 : list Z) (b1 e1 b2 e2 : bool) :
  CustomTikTokenizer_init files path vs nst sp = Ok tok →
  forallb is_scalar text1 = true → forallb is_scalar text2 = true →
  tokenize tok text1 b1 e1 = Ok ids1 →
  tokenize tok text2 b2 e2 = Ok ids2 →
  detokenize tok (ids1 ++ ids2) = Ok (text1 ++ text2).
Proof.
  intros Hinit Htext1 Htext2 Hids1 Hids2.
  destruct (tokenize_bytes _ _ _ _ _ _ _ _ _ _ Hinit Htext1 Hids1)
    as (parts1 & Hparts1 & Hcat1 & _).
  destruct (tokenize_bytes _ _ _ _ _ _ _ _ _ _ Hinit Htext2 Hids2)
    as (parts2 & Hparts2 & Hcat2 & _).
  unfold detokenize, Encoding_decode. rewrite filter_app, fmap_app.
  rewrite (map_result_app _ _ _ _ _ Hparts1 Hparts2). cbn.
  rewrite concat_app, Hcat1, Hcat2.
  replace (utf8_encode text1 ++ utf8_encode text2)
    with (utf8_encode (text1 ++ text2))
    by (unfold utf8_encode; by rewrite flat_map_app).
  rewrite utf8_decode_encode; [done|].
  rewrite forallb_app, Htext1, Htext2. done.
Qed.



Lemma findall_nil `{UnicodeData} : findall PATTERN_TIKTOKEN_V2 [] = [].
Proof.
  unfold findall. cbn [length find_iter].
  destruct (re_match PATTERN_TIKTOKEN_V2 Some []) as [rest|] eqn:Hm; [|done].
  apply re_match_sound in Hm as (s' & _ & _ & Hlt).
  specialize (Hlt pattern_consumes). cbn in Hlt. lia.
Qed.

(** X18: the empty text has no ids: [tokenize] returns only the BOS
    and EOS ids that were asked for, and [detokenize] returns the empty
    text for the empty list and for a list of BOS and EOS ids only. *)
Theorem tokenize_empty `{UnicodeData} (files : file_system) (path : string)
    (vs nst : Z) (sp : option (list string)) (tok : CustomTikTokenizer)
    (b e : bool) (ids : list Z) :
  CustomTikTokenizer_init files path vs nst sp = Ok tok →
  tokenize tok [] b e
  = Ok ((if b then [bos tok] else []) ++ (if e then [eos tok] else []))
  ∧ detokenize tok [] = Ok []
  ∧ (Forall (λ id, id = bos tok ∨ id = eos tok) ids
     → detokenize tok ids = Ok []).
Proof.
  intros (tokens & -> & _)%init_inv. split_and!.
  - unfold tokenize, Encoding_encode.
    cbn [_model tokenizer_of pat_str forallb]. rewrite findall_nil. cbn.
    by destruct b, e.
  - done.
  - intros Hall. unfold detokenize, bos, eos in *.
    replace (filter _ ids) with (@nil Z); [done|].
    symmetry. induction Hall as [|id ids Hid _ IH]; [done|].
    rewrite filter_cons_False by set_solver. done.
Qed.

Lemma length_concat_nonempty (parts : list (list Z)) :
  Forall (λ part, part ≠ []) parts → (length parts ≤ length (concat parts))%nat.
Proof.
  induction 1 as [|part parts Hpart _ IH]; [done|].
  cbn [concat length]. rewrite length_app.
  destruct part; [done|]. cbn [length]. lia.
Qed.

(** X19: [tokenize] without BOS and EOS never returns more ids than the
    UTF-8 encoding of the text has bytes, at most four for each code
    point, and it returns at least one id for a text that is not empty. *)
Theorem tokenize_length_bound `{UnicodeData} (files : file_system)
    (path : string) (vs nst : Z) (sp : option (list string))
    (tok : CustomTikTokenizer) (text ids : list Z) :
  CustomTikTokenizer_init files path vs nst sp = Ok tok →
  forallb is_scalar text = true →
  tokenize tok text false false = Ok ids →
  (length ids ≤ length (utf8_encode text))%nat
  ∧ (length (utf8_encode text) ≤ 4 * length text)%nat
  ∧ (text ≠ [] → ids ≠ []).
Proof.
  intros Hinit Htext Hids.
  destruct (tokenize_bytes _ _ _ _ _ _ _ _ _ _ Hinit Htext Hids)
    as (parts & Hparts & Hcat & Hne).
  destruct (tokenize_ranks _ _ _ _ _ _ _ _ _ _ Hinit Hids) as (rs & Hrs & Hkept).
  assert (length ids = length parts) as Hlen.
  { unfold tokenize in Hids. rewrite Hrs in Hids. injection Hids as <-.
    apply map_result_ok, Forall2_length in Hparts.
    rewrite Hkept in Hparts. by rewrite length_fmap. }
  pose proof (length_concat_nonempty _ Hne) as Hle. rewrite Hcat in Hle.
  split_and!.
  - lia.
  - clear. induction text as [|c text IH]; [done|].
    unfold utf8_encode in *. cbn [flat_map length]. rewrite length_app.
    assert (length (utf8_encode_char c) ≤ 4)%nat.
    { unfold utf8_encode_char. repeat case_match; cbn; lia. }
    lia.
  - intros Hnonempty ->. cbn in Hlen. destruct parts; [|done].
    cbn in Hcat. destruct text as [|c text]; [done|].
    unfold utf8_encode in Hcat. cbn [flat_map] in Hcat.
    unfold utf8_encode_char in Hcat. by repeat case_match.
Qed.

(** X20: when the decoder table has a token at an id, the id is an
    ordinary id and [detokenize] of that id alone is the token, decoded:
    the table and [detokenize] agree on the ordinary ids. *)
Theorem detokenize_single `{UnicodeData} (files : file_system) (path : string)
    (vs nst : Z) (sp : option (list string)) (tok : CustomTikTokenizer)
    (id : Z) (b : list Z) :
  CustomTikTokenizer_init files path vs nst sp = Ok tok →
  decoder_table tok !! id = Some (inr b) →
  nst ≤ id < vs ∧ detokenize tok [id] = Ok (utf8_decode b).
Proof.
  intros Hinit Hid.
  pose proof Hinit as (tokens & -> & Hsp & Hnd & Hlen & _)%init_inv.
  unfold decoder_table in Hid.
  apply (shifted_ordinary vs nst sp tokens) in Hid.
  pose proof Hid as (j & Hj & Hb%lookup_lt_Some)%table_of_lookup.
  split; [lia|].
  pose proof (bos_bounds vs nst sp tokens Hsp Hnd) as Hbos.
  pose proof (eos_bounds vs nst sp tokens Hsp Hnd) as Heos.
  unfold detokenize, Encoding_decode.
  rewrite filter_cons_True, filter_nil by (set_unfold; lia).
  cbn [fmap list_fmap map_result num_special_tokens _model decoder
       tokenizer_of].
  rewrite (proj2 (inverse_lookup tokens (id - nst) b) Hid).
  cbn. by rewrite app_nil_r.
Qed.

(** ** [encode] and [decode] *)

Lemma utf8_lead_cases (b0 lo hi k : Z) :
  utf8_lead b0 = Some (lo, hi, k)
  → (k = 1 ∧ 0xC2 ≤ b0 ≤ 0xDF ∧ lo = 0x80 ∧ hi = 0xBF)
    ∨ (k = 2 ∧ b0 = 0xE0 ∧ lo = 0xA0 ∧ hi = 0xBF)
    ∨ (k = 2 ∧ b0 = 0xED ∧ lo = 0x80 ∧ hi = 0x9F)
    ∨ (k = 2 ∧ 0xE1 ≤ b0 ≤ 0xEF ∧ b0 ≠ 0xED ∧ lo = 0x80 ∧ hi = 0xBF)
    ∨ (k = 3 ∧ b0 = 0xF0 ∧ lo = 0x90 ∧ hi = 0xBF)
    ∨ (k = 3 ∧ b0 = 0xF4 ∧ lo = 0x80 ∧ hi = 0x8F)
    ∨ (k = 3 ∧ 0xF1 ≤ b0 ≤ 0xF3 ∧ lo = 0x80 ∧ hi = 0xBF).
Proof.
  unfold utf8_lead.
  repeat match goal with
         | |- context [if ?c then _ else _] => destruct c eqn:?
         end;
    intros [= <- <- <-];
    rewrite ?andb_true_iff, ?andb_false_iff, ?Z.leb_le, ?Z.leb_gt,
      ?Z.eqb_eq, ?Z.eqb_neq in *; lia.
Qed.

Lemma not_surrogate (c : Z) :
  c < 0xD800 ∨ 0xE000 ≤ c → is_surrogate c = false.
Proof. intros Hc. unfold is_surrogate. lia. Qed.

(** Decoding with replacement never produces a surrogate. *)
Lemma utf8_decode_no_surrogate (b : list Z) :
  Forall (λ c, is_surrogate c = false) (utf8_decode b).
Proof.
  remember (length b) as n eqn:Hn. revert b Hn.
  induction n as [n IH] using lt_wf_ind. intros b ->.
  assert (∀ t, (length t < length b)%nat
               → Forall (λ c, is_surrogate c = false) (utf8_decode t)) as Hrec
    by (intros t Ht; by eapply IH).
  clear IH. destruct b as [|b0 t0]; [constructor|]. cbn [utf8_decode].
  destruct ((0 <=? b0) && (b0 <? 0x80)) eqn:Hascii.
  { constructor; [apply not_surrogate; lia | apply Hrec; cbn; lia]. }
  destruct (utf8_lead b0) as [[[lo hi] k]|] eqn:Hlead;
    [|constructor; [done | apply Hrec; cbn; lia]].
  apply utf8_lead_cases in Hlead.
  destruct t0 as [|b1 t1]; [by repeat constructor|].
  destruct (negb ((lo <=? b1) && (b1 <=? hi))) eqn:Hb1;
    [constructor; [done | apply Hrec; cbn; lia]|].
  apply negb_false_iff, andb_true_iff in Hb1 as [Hlo%Z.leb_le Hhi%Z.leb_le].
  destruct (Z.eqb_spec k 1) as [->|Hk1].
  { constructor; [apply not_surrogate; lia | apply Hrec; cbn; lia]. }
  destruct t1 as [|b2 t2]; [by repeat constructor|].
  destruct (negb (is_cont b2)) eqn:Hb2;
    [constructor; [done | apply Hrec; cbn; lia]|].
  apply negb_false_iff in Hb2. unfold is_cont in Hb2.
  apply andb_true_iff in Hb2 as [Hb2l%Z.leb_le Hb2h%Z.leb_le].
  destruct (Z.eqb_spec k 2) as [->|Hk2].
  { constructor; [apply not_surrogate; lia | apply Hrec; cbn; lia]. }
  destruct t2 as [|b3 t3]; [by repeat constructor|].
  destruct (negb (is_cont b3)) eqn:Hb3;
    [constructor; [done | apply Hrec; cbn; lia]|].
  apply negb_false_iff in Hb3. unfold is_cont in Hb3.
  apply andb_true_iff in Hb3 as [Hb3l%Z.leb_le Hb3h%Z.leb_le].
  constructor; [apply not_surrogate; lia | apply Hrec; cbn; lia].
Qed.

Lemma print_decoded (b : list Z) : print_str (utf8_decode b) = Ok tt.
Proof.
  unfold print_str.
  replace (forallb _ (utf8_decode b)) with true; [done|].
  symmetry. apply forallb_forall. intros c Hc%list_elem_of_In.
  pose proof (utf8_decode_no_surrogate b) as Hall.
  rewrite Forall_forall in Hall. by rewrite (Hall _ Hc).
Qed.

Lemma print_scalars (s : list Z) :
  forallb is_scalar s = true → print_str s = Ok tt.
Proof.
  intros Hs. unfold print_str.
  replace (forallb _ s) with true; [done|].
  symmetry. apply forallb_forall. intros c Hc.
  rewrite forallb_forall in Hs. specialize (Hs _ Hc).
  unfold is_scalar in Hs. by apply andb_true_iff in Hs as [_ ->].
Qed.

(** What [detokenize] returns is a decoded byte string. *)
Lemma detokenize_decoded (self : CustomTikTokenizer) (ids text : list Z) :
  detokenize self ids = Ok text → ∃ b, text = utf8_decode b.
Proof.
  unfold detokenize, Encoding_decode.
  intros (parts & _ & [= <-])%bind_ok. by eexists.
Qed.

(** X21: on a text of Unicode scalar values [encode] is [tokenize]
    without BOS and EOS, result or exception, whatever the arguments
    [add_special_tokens], [truncation] and [max_length] are: no special
    id is added and the ids are not cut to [max_length]. *)
Theorem encode_is_tokenize `{UnicodeData} (files : file_system) (path : string)
    (vs nst : Z) (sp : option (list string)) (tok : CustomTikTokenizer)
    (curr_text : list Z) (add_special_tokens truncation : bool)
    (max_length : Z) :
  CustomTikTokenizer_init files path vs nst sp = Ok tok →
  forallb is_scalar curr_text = true →
  TikTokenizer.encode tok curr_text add_special_tokens truncation max_length
  = tokenize tok curr_text false false.
Proof.
  intros Hinit Htext. unfold TikTokenizer.encode.
  rewrite (print_scalars _ Htext). cbn [mbind result_bind].
  destruct (tokenize tok curr_text false false) as [x|err] eqn:Hx; [|done].
  cbn [mbind result_bind].
  assert (detokenize tok x = Ok curr_text) as ->.
  { unfold detokenize, Encoding_decode.
    destruct (tokenize_bytes _ _ _ _ _ _ _ _ _ _ Hinit Htext Hx)
      as (parts & -> & Hcat & _).
    cbn. by rewrite Hcat, utf8_decode_encode. }
  cbn [mbind result_bind]. by rewrite (print_scalars _ Htext).
Qed.

(** X22: [decode] is [detokenize], result or exception: the text that is
    logged on the way is a decoded byte string and can be printed. *)
Theorem decode_is_detokenize (self : CustomTikTokenizer) (text : list Z) :
  TikTokenizer.decode self text = detokenize self text.
Proof.
  unfold TikTokenizer.decode.
  destruct (detokenize self text) as [y|err] eqn:Hy; [|done].
  cbn [mbind result_bind].
  destruct (detokenize_decoded _ _ _ Hy) as [b ->].
  by rewrite print_decoded.
Qed.

(** X23: with a vocabulary of at least 256 tokens [encode] returns ids
    for every text of Unicode scalar values, none of them a special id,
    and [decode] gives the text back from them. *)
Theorem decode_inverts_encode `{UnicodeData} (files : file_system)
    (path : string) (vs nst : Z) (sp : option (list string))
    (tok : CustomTikTokenizer) (curr_text : list Z)
    (add_special_tokens truncation : bool) (max_length : Z) :
  CustomTikTokenizer_init files path vs nst sp = Ok tok →
  256 ≤ vs - nst →
  forallb is_scalar curr_text = true →
  ∃ ids,
    TikTokenizer.encode tok curr_text add_special_tokens truncation max_length
    = Ok ids
    ∧ Forall (λ id, nst ≤ id < vs) ids
    ∧ TikTokenizer.decode tok ids = Ok curr_text.
Proof.
  intros Hinit Hfull Htext.
  destruct (init_engine_roundtrip _ _ _ _ _ _ curr_text Hinit Hfull Htext)
    as (rs & Henc & Hdec & Hpos).
  pose proof (init_unshift_shift _ _ _ _ _ _ _ Hinit Hpos) as Hshift.
  assert (tokenize tok curr_text false false
          = Ok ((λ t, t + num_special_tokens tok) <$> rs)) as Hids
    by (unfold tokenize; by rewrite Henc).
  assert (detokenize tok ((λ t, t + num_special_tokens tok) <$> rs)
          = Ok curr_text) as Hback
    by (unfold detokenize; by rewrite Hshift).
  exists ((λ t, t + num_special_tokens tok) <$> rs). split_and!.
  - unfold TikTokenizer.encode.
    rewrite (print_scalars _ Htext), Hids. cbn [mbind result_bind].
    rewrite Hback. cbn [mbind result_bind].
    by rewrite (print_scalars _ Htext).
  - apply init_inv in Hinit as (tokens & -> & _ & Hnd & Hlen & _).
    apply encoding_ranks_img in Henc.
    apply Forall_fmap. eapply Forall_impl; [exact Henc|].
    intros r Hr%table_rank_bounds; [|done]. cbn. lia.
  - unfold TikTokenizer.decode. rewrite Hback. cbn [mbind result_bind].
    by rewrite (print_scalars _ Htext).
Qed.

(** ** [load_tokenizer] *)

Lemma valid_wide_tokens (n : Z) :
  256 ≤ n ≤ 16777216
  → valid_vocab (vocab_items (wide_tokens n)) (wide_tokens n)
    ∧ Z.of_nat (length (wide_tokens n)) = n.
Proof.
  intros Hn. unfold wide_tokens. split.
  - apply valid_vocab_bytes; [lia | lia | | |].
    + apply Forall_fmap, Forall_forall. intros i Hi%elem_of_seqZ. cbn.
      assert (0 ≤ i / 65536 < 256) as Hq.
      { split; [apply Z.div_pos; lia | apply Z.div_lt_upper_bound; lia]. }
      pose proof (Z.mod_pos_bound (i / 256) 256 ltac:(lia)).
      pose proof (Z.mod_pos_bound i 256 ltac:(lia)).
      by repeat apply Forall_cons_2.
    + apply Forall_fmap, Forall_forall. by intros i _.
    + apply NoDup_fmap_2_strong; [|apply NoDup_seqZ].
      intros i j _ _ [= Hq Hm Hr].
      rewrite (Z.div_mod i 256), (Z.div_mod j 256) by lia.
      rewrite (Z.div_mod (i / 256) 256), (Z.div_mod (j / 256) 256) by lia.
      rewrite !Z.div_div by lia. change (256 * 256) with 65536.
      by rewrite Hq, Hm, Hr.
  - rewrite length_app, length_byte_tokens, length_fmap, length_seqZ. lia.
Qed.

(** X24: when [load_tokenizer] returns, the tokenizer has the default
    sizes, 131072 ids of which 3 are special, and a vocabulary of 131069
    tokens; its special tokens are the three default ones with the ids 0,
    1 and 2; the padding id returned is [None] and the end id returned is
    the EOS id 2, which is also the tokenizer's own padding id; and the
    arguments other than [vocab_file] have no influence on the result. *)
Theorem load_tokenizer_result `{UnicodeData} (files : file_system)
    (tokenizer_dir : option string) (vocab_file model_name : string)
    (model_version tokenizer_type : option string)
    (tokenizer : CustomTikTokenizer) (pad_id : option Z) (end_id : Z) :
  load_tokenizer files tokenizer_dir vocab_file model_name model_version
    tokenizer_type = Ok (tokenizer, pad_id, end_id) →
  (pad_id = None ∧ end_id = 2)
  ∧ (unk tokenizer = 0 ∧ bos tokenizer = 1 ∧ eos tokenizer = 2
     ∧ pad_token_id tokenizer = 2)
  ∧ (vocab_size tokenizer = 131072 ∧ num_special_tokens tokenizer = 3
     ∧ special_tokens tokenizer = SPECIAL_TOKENS
     ∧ Z.of_nat (size (vocab tokenizer)) = 131069)
  ∧ (∀ tokenizer_dir' model_name' model_version' tokenizer_type',
       load_tokenizer files tokenizer_dir' vocab_file model_name'
         model_version' tokenizer_type' = Ok (tokenizer, pad_id, end_id)).
Proof.
  unfold load_tokenizer.
  intros (tok & Hinit & [= <- <- <-])%bind_ok.
  pose proof Hinit as (tokens & -> & Hsp & Hnd & Hlen & _)%init_inv.
  unfold unk, bos, eos, pad_token_id, vocab_size, vocab.
  cbn [_unk_id _bos_id _eos_id _vocab_size num_special_tokens special_tokens
       token2id tokenizer_of].
  split_and!.
  - reflexivity.
  - reflexivity.
  - reflexivity.
  - reflexivity.
  - reflexivity.
  - reflexivity.
  - reflexivity.
  - reflexivity.
  - reflexivity.
  - rewrite (proj2 (table_of_size tokens)) by exact Hnd.
    unfold DEFAULT_TIKTOKEN_MAX_VOCAB in Hlen. lia.
  - intros _ _ _ _. rewrite Hinit. reflexivity.
Qed.

(** X25: [load_tokenizer] fails on every vocabulary file that lists
    fewer than 131069 entries, the default inner vocabulary size. *)
Theorem load_tokenizer_short_file `{UnicodeData} (files : file_system)
    (tokenizer_dir : option string) (vocab_file model_name : string)
    (model_version tokenizer_type : option string)
    (items : list (gmap string jvalue)) :
  files vocab_file = Some (JList items) →
  Z.of_nat (length items) < 131069 →
  is_err (load_tokenizer files tokenizer_dir vocab_file model_name
            model_version tokenizer_type).
Proof.
  intros Hfile Hshort. apply not_ok_is_err. intros [[[tok pad] end_id] Hload].
  unfold load_tokenizer in Hload.
  apply bind_ok in Hload as (tok' & Hinit & _).
  apply init_ok in Hinit
    as (_ & _ & items' & tokens & Hfile' & Hvalid & Hlen & _).
  assert (items' = items) as -> by congruence.
  apply valid_vocab_length in Hvalid.
  rewrite slice_to_take, length_take in Hvalid.
  unfold DEFAULT_TIKTOKEN_MAX_VOCAB in Hlen. lia.
Qed.

(** ** The pattern: how a text is cut into segments *)

Section Shapes.
Context {X : Type}.

Lemma star_iter_shape (r : regex) (k : list Z → option X) :
  (∀ (k' : list Z → option X) s x,
     re_match r k' s = Some x
     → ∃ pre rest, s = pre ++ rest ∧ shape r pre ∧ k' rest = Some x)
  → ∀ fuel s x,
      star_iter (λ k', re_match r k') k fuel s = Some x
      → ∃ ws rest, s = concat ws ++ rest ∧ Forall (shape r) ws
                   ∧ k rest = Some x.
Proof.
  intros Hbody fuel. induction fuel as [|fuel IH]; intros s x; cbn [star_iter].
  - intros Hk. by exists [], s.
  - destruct (re_match r _ s) as [y|] eqn:Hb.
    + intros [= ->]. apply Hbody in Hb as (pre & rest1 & -> & Hpre & Hrest).
      destruct (length rest1 <? length (pre ++ rest1))%nat; [|done].
      apply IH in Hrest as (ws & rest & -> & Hws & Hk).
      exists (pre :: ws), rest. cbn [concat]. rewrite <- app_assoc.
      split_and!; [done | by constructor | done].
    + intros Hk. by exists [], s.
Qed.
End Shapes.

(** What a successful match takes from the input has the shape of the
    expression. *)
Lemma re_match_shape (r : regex) :
  ∀ (X : Type) (k : list Z → option X) s x,
    re_match r k s = Some x
    → ∃ pre rest, s = pre ++ rest ∧ shape r pre ∧ k rest = Some x.
Proof.
  induction r as [p|r1 IH1 r2 IH2|r1 IH1 r2 IH2|r1 IH1|r1 IH1|r1 IH1];
    intros X k s x; cbn [re_match shape].
  - destruct s as [|c rest]; [done|]. destruct (p c) eqn:Hp; [|done].
    intros Hk. exists [c], rest. split_and!; [done | by exists c | done].
  - intros (pre1 & rest1 & -> & Hpre1
            & (pre2 & rest2 & -> & Hpre2 & Hk)%IH2)%IH1.
    exists (pre1 ++ pre2), rest2. rewrite <- app_assoc.
    split_and!; [done | by exists pre1, pre2 | done].
  - destruct (re_match r1 k s) as [y|] eqn:H1.
    + intros [= ->]. apply IH1 in H1 as (pre & rest & -> & Hpre & Hk).
      exists pre, rest. split_and!; [done | by left | done].
    + intros (pre & rest & -> & Hpre & Hk)%IH2.
      exists pre, rest. split_and!; [done | by right | done].
  - destruct (re_match r1 k s) as [y|] eqn:H1.
    + intros [= ->]. apply IH1 in H1 as (pre & rest & -> & Hpre & Hk).
      exists pre, rest. split_and!; [done | by right | done].
    + intros Hk. exists [], s. split_and!; [done | by left | done].
  - intros (ws & rest & -> & Hws & Hk)%star_iter_shape; [|apply IH1].
    exists (concat ws), rest. split_and!; [done | by exists ws | done].
  - destruct (re_match r1 _ s); [done|]. intros Hk. by exists [], s.
Qed.

(** Every segment found is a word of the expression, and it is not empty
    when the expression always consumes. *)
Lemma find_iter_shape (r : regex) (fuel : nat) (s seg : list Z) :
  seg ∈ find_iter fuel r s
  → shape r seg ∧ (consumes r = true → seg ≠ []).
Proof.
  revert s. induction fuel as [|fuel IH]; intros s; cbn [find_iter].
  { by intros ?%elem_of_nil. }
  destruct (re_match r Some s) as [rest|] eqn:Hm.
  - pose proof (re_match_sound _ _ _ _ _ Hm) as (s' & [= ->] & _ & Hlt).
    apply re_match_shape in Hm as (pre & rest' & -> & Hpre & [= ->]).
    rewrite length_app.
    replace (length pre + length rest - length rest)%nat with (length pre)
      by lia.
    rewrite length_app in Hlt.
    assert (seg = pre → shape r seg ∧ (consumes r = true → seg ≠ [])) as Hhere.
    { intros ->. split; [done|]. intros Hc ->. specialize (Hlt Hc).
      cbn in Hlt. lia. }
    destruct (length pre) as [|n] eqn:Hn.
    + destruct pre; [|done]. cbn [app].
      destruct rest as [|c rest].
      * intros ->%list_elem_of_singleton. by apply Hhere.
      * intros [->|Hin]%elem_of_cons; [by apply Hhere | by eapply IH].
    + rewrite <- Hn, take_app_length.
      intros [->|Hin]%elem_of_cons; [by apply Hhere | by eapply IH].
  - destruct s as [|c s]; [by intros ?%elem_of_nil | apply IH].
Qed.

Lemma shape_all_chars (q : Z → Prop) (r : regex) (w : list Z) :
  all_chars q r → shape r w → Forall q w.
Proof.
  revert w. induction r as [p|r1 IH1 r2 IH2|r1 IH1 r2 IH2|r1 IH1|r1 IH1|r1 IH1];
    intros w; cbn [all_chars shape].
  - intros Hq (c & -> & Hp). repeat constructor. by apply Hq.
  - intros [H1 H2] (w1 & w2 & -> & Hw1 & Hw2). apply Forall_app. auto.
  - intros [H1 H2] [Hw|Hw]; auto.
  - intros H1 [->|Hw]; [constructor | auto].
  - intros H1 (ws & -> & Hws). apply Forall_concat.
    eapply Forall_impl; [exact Hws|]. cbn. auto.
  - by intros _ ->.
Qed.

Section Segments.
Context `{UnicodeData}.

(** X26: the pattern cuts every text into segments without loss: put
    together the segments are the text, and no segment is empty. *)
Theorem pattern_lossless (text : list Z) :
  concat (findall PATTERN_TIKTOKEN_V2 text) = text
  ∧ Forall (λ seg, seg ≠ []) (findall PATTERN_TIKTOKEN_V2 text).
Proof.
  split.
  - unfold findall. apply find_iter_concat; [done | apply pattern_total | lia].
  - apply Forall_forall. intros seg Hseg.
    by apply find_iter_shape in Hseg as [_ Hne]; apply Hne.
Qed.

Lemma upper_like_not_N (c : Z) : upper_like c = true → is_N c = false.
Proof. unfold upper_like, is_N. by destruct (category c). Qed.

Lemma lower_like_not_N (c : Z) : lower_like c = true → is_N c = false.
Proof. unfold lower_like, is_N. by destruct (category c). Qed.

Lemma not_crlf_L_N_spec (c : Z) :
  not_crlf_L_N c = true → is_L c = false ∧ is_N c = false.
Proof.
  unfold not_crlf_L_N. intros Hc%negb_true_iff.
  by repeat apply orb_false_iff in Hc as [Hc ?].
Qed.

Lemma not_space_L_N_spec (c : Z) :
  not_space_L_N c = true → is_L c = false ∧ is_N c = false.
Proof.
  unfold not_space_L_N. intros Hc%negb_true_iff.
  by repeat apply orb_false_iff in Hc as [Hc ?].
Qed.

Lemma separate_not (c : Z) :
  separate_classes
  → white_space c = true ∨ c = 10 ∨ c = 13 ∨ c = 32 ∨ c = 47
  → is_L c = false ∧ is_N c = false.
Proof.
  intros Hsep Hc.
  destruct (is_L c) eqn:HL.
  { destruct (Hsep c) as (Hws & ? & ? & ? & ?); [by left|].
    rewrite Hws in Hc. naive_solver. }
  destruct (is_N c) eqn:HN; [|done].
  destruct (Hsep c) as (Hws & ? & ? & ? & ?); [by right|].
  rewrite Hws in Hc. naive_solver.
Qed.

Lemma crlf_cases (c : Z) : crlf c = true → c = 13 ∨ c = 10.
Proof. unfold crlf. intros [?%Z.eqb_eq|?%Z.eqb_eq]%orb_true_iff; auto. Qed.

Lemma crlf_slash_cases (c : Z) : crlf_slash c = true → c = 13 ∨ c = 10 ∨ c = 47.
Proof.
  unfold crlf_slash.
  intros [[?%Z.eqb_eq|?%Z.eqb_eq]%orb_true_iff|?%Z.eqb_eq]%orb_true_iff; auto.
Qed.

Lemma pattern_rest_chars :
  separate_classes
  → all_chars (λ c, is_L c = false ∧ is_N c = false) pattern_rest.
Proof.
  intros Hsep. unfold pattern_rest, Plus. cbn [all_chars].
  assert (∀ c, white_space c = true → is_L c = false ∧ is_N c = false) as Hws
    by (intros c Hc; apply separate_not; auto).
  assert (∀ c, crlf c = true → is_L c = false ∧ is_N c = false) as Hcrlf.
  { intros c [->| ->]%crlf_cases; apply separate_not; auto. }
  assert (∀ c, crlf_slash c = true → is_L c = false ∧ is_N c = false) as Hcs.
  { intros c [->|[->| ->]]%crlf_slash_cases; apply separate_not; auto. }
  assert (∀ c, (c =? 32) = true → is_L c = false ∧ is_N c = false) as Hsp.
  { intros c ->%Z.eqb_eq. apply separate_not; auto. }
  pose proof not_space_L_N_spec. split_and!; auto.
Qed.

(** The two alternatives for words: an optional character that is not a
    letter, a number or a line break, then letters and marks. *)
Lemma word_shape (r : regex) (w : list Z) :
  all_chars (λ c, wordlike c = true) r
  → shape (Seq (Opt (Class not_crlf_L_N)) r) w
  → ∃ pre word,
      w = pre ++ word ∧ (length pre ≤ 1)%nat
      ∧ Forall (λ c, not_crlf_L_N c = true) pre
      ∧ Forall (λ c, wordlike c = true) word.
Proof.
  intros Hr. cbn [shape]. intros (pre & word & -> & Hpre & Hword).
  exists pre, word. split_and!; [done | | |].
  - destruct Hpre as [->|(c & -> & _)]; cbn; lia.
  - destruct Hpre as [->|(c & -> & Hc)]; by repeat constructor.
  - by eapply shape_all_chars.
Qed.

Lemma word_chars_1 :
  all_chars (λ c, wordlike c = true)
    (Seq (Star (Class upper_like)) (Plus (Class lower_like))).
Proof.
  unfold Plus, wordlike. cbn [all_chars].
  split_and!; intros c ->; by rewrite ?orb_true_r.
Qed.

Lemma word_chars_2 :
  all_chars (λ c, wordlike c = true)
    (Seq (Plus (Class upper_like)) (Star (Class lower_like))).
Proof.
  unfold Plus, wordlike. cbn [all_chars].
  split_and!; intros c ->; by rewrite ?orb_true_r.
Qed.

Lemma wordlike_not_N (c : Z) : wordlike c = true → is_N c = false.
Proof.
  unfold wordlike.
  intros [?%upper_like_not_N|?%lower_like_not_N]%orb_true_iff; done.
Qed.

(** The segments of the pattern, by alternative. *)
Lemma pattern_shapes (w : list Z) :
  shape PATTERN_TIKTOKEN_V2 w
  → (∃ pre word,
       w = pre ++ word ∧ (length pre ≤ 1)%nat
       ∧ Forall (λ c, not_crlf_L_N c = true) pre
       ∧ Forall (λ c, wordlike c = true) word)
    ∨ (∃ d, w = [d] ∧ is_N d = true)
    ∨ shape pattern_rest w.
Proof.
  unfold PATTERN_TIKTOKEN_V2.
  intros [Hw|[Hw|[Hw|Hw]]].
  - left. eapply word_shape; [apply word_chars_1 | exact Hw].
  - left. eapply word_shape; [apply word_chars_2 | exact Hw].
  - right. left. exact Hw.
  - right. right. exact Hw.
Qed.

(** X27: numbers are cut digit by digit: in a character database where
    letters and numbers are apart from white space, line breaks, the
    space and the slash, a segment that contains a number character is
    that one character and nothing else. *)
Theorem pattern_digits_alone (text seg : list Z) (d : Z) :
  separate_classes →
  seg ∈ findall PATTERN_TIKTOKEN_V2 text →
  d ∈ seg → is_N d = true →
  seg = [d].
Proof.
  intros Hsep Hseg Hd HN.
  apply find_iter_shape in Hseg as [Hshape _].
  apply pattern_shapes in Hshape
    as [(pre & word & -> & _ & Hpre & Hword)|[(d' & -> & _)|Hrest]].
  - apply elem_of_app in Hd as [Hd|Hd].
    + rewrite Forall_forall in Hpre.
      apply Hpre, not_crlf_L_N_spec in Hd as [_ Hd]. congruence.
    + rewrite Forall_forall in Hword.
      apply Hword, wordlike_not_N in Hd. congruence.
  - by apply list_elem_of_singleton in Hd as ->.
  - pose proof (shape_all_chars _ _ _ (pattern_rest_chars Hsep) Hrest) as Hall.
    rewrite Forall_forall in Hall. apply Hall in Hd as [_ Hd]. congruence.
Qed.

(** X28: words are not joined: in such a character database a segment
    that contains a letter is made of letters and marks only, after at
    most one leading character that is not a letter, a number or a line
    break; so no white space stands inside or after a word in a
    segment. *)
Theorem pattern_words_apart (text seg : list Z) (c : Z) :
  separate_classes →
  seg ∈ findall PATTERN_TIKTOKEN_V2 text →
  c ∈ seg → is_L c = true →
  ∃ pre word,
    seg = pre ++ word ∧ (length pre ≤ 1)%nat
    ∧ Forall (λ c, not_crlf_L_N c = true) pre
    ∧ Forall (λ c, wordlike c = true) word
    ∧ c ∈ word.
Proof.
  intros Hsep Hseg Hc HL.
  apply find_iter_shape in Hseg as [Hshape _].
  apply pattern_shapes in Hshape
    as [(pre & word & -> & Hlen & Hpre & Hword)|[(d & -> & Hd)|Hrest]].
  - exists pre, word. split_and!; try done.
    apply elem_of_app in Hc as [Hc|Hc]; [|done].
    rewrite Forall_forall in Hpre.
    apply Hpre, not_crlf_L_N_spec in Hc as [Hc _]. congruence.
  - apply list_elem_of_singleton in Hc as ->.
    unfold is_L, is_N in *. by destruct (category d).
  - pose proof (shape_all_chars _ _ _ (pattern_rest_chars Hsep) Hrest) as Hall.
    rewrite Forall_forall in Hall. apply Hall in Hc as [Hc _]. congruence.
Qed.
End Segments.

(** The ASCII character database keeps the classes apart. *)
Lemma ascii_separate : @separate_classes ascii_data.
Proof.
  intros c Hc.
  assert ((65 ≤ c ≤ 90) ∨ (97 ≤ c ≤ 122) ∨ (48 ≤ c ≤ 57)) as Hrange.
  { unfold is_L, is_N in Hc. cbn [category ascii_data] in Hc.
    destruct (Z.leb_spec 65 c), (Z.leb_spec c 90), (Z.leb_spec 97 c),
      (Z.leb_spec c 122), (Z.leb_spec 48 c), (Z.leb_spec c 57);
      cbn in Hc; try lia; by destruct Hc. }
  cbn [white_space ascii_data]. split; [|lia].
  apply orb_false_iff. split; [apply andb_false_iff|]; lia.
Qed.

(** * Instances *)

Lemma throttle_generator_spec_witness :
  Throttle.throttle_generator [10; 11; 12; 13; 14; 15] 4
  = ([10; 14; 15], Ok tt).
Proof.
  assert ([10; 11; 12; 13; 14; 15] ≠ []) as Hne by done.
  assert (1 ≤ 4) as Hk by lia.
  exact (proj1 (throttle_generator_spec [10; 11; 12; 13; 14; 15] 4 Hne Hk)).
Defined.

Lemma rank_seeding_witness : table_of toy_tokens !! [97] = Some 97.
Proof.
  assert (0 ≤ 97 < 256) as Hi by lia.
  assert (256 ≤ Z.of_nat (size (table_of toy_tokens))) as Hsize
    by (rewrite size_toy_table; lia).
  exact (proj2 (proj1 (rank_seeding toy_files toy_path None 97 Hi)
                  (table_of toy_tokens) toy_load) Hsize).
Defined.

Lemma loader_bijective_witness :
  size (table_of toy_tokens) = length (vocab_items toy_tokens).
Proof.
  assert (toy_files toy_path = Some (JList (vocab_items toy_tokens))) as Hfile
    by apply one_file_lookup.
  exact (proj1 (proj1 (loader_bijective toy_files toy_path None
                         (vocab_items toy_tokens) Hfile)
                  (table_of toy_tokens) toy_load)).
Defined.

Lemma rank_mismatch_rejected_witness :
  is_err (reload_mergeable_ranks
            (one_file "bad.json" (JList [merge_entry 0 [0]; merge_entry 2 [1]]))
            "bad.json" None).
Proof.
  refine (proj1 (@rank_mismatch_rejected ascii_data
                   (one_file "bad.json"
                      (JList [merge_entry 0 [0]; merge_entry 2 [1]]))
                   "bad.json" None [merge_entry 0 [0]; merge_entry 2 [1]]
                   1%nat (merge_entry 2 [1]) _ _ _)).
  - reflexivity.
  - reflexivity.
  - vm_compute. discriminate.
Defined.

Lemma size_consistency_witness :
  is_ok (@CustomTikTokenizer_init ascii_data
           (one_file "v.json" (vocab_file (pair_tokens 997))) "v.json"
           1000 3 None)
  ∧ is_err (@CustomTikTokenizer_init ascii_data
              (one_file "v.json" (vocab_file (pair_tokens 900))) "v.json"
              1000 3 None).
Proof.
  assert (special_ok 1000 3 None) as Hsp
    by compute_done.
  destruct (valid_pair_tokens 997) as [Hvalid997 Hlen997]; [lia|].
  destruct (valid_pair_tokens 900) as [Hvalid900 Hlen900]; [lia|].
  split.
  - refine (proj1 (proj2 (@size_consistency ascii_data
                             (one_file "v.json" (vocab_file (pair_tokens 997)))
                             "v.json" (vocab_items (pair_tokens 997))
                             1000 3 None _ _ Hsp)
                      eq_refl eq_refl _ Hvalid997) _).
    + apply one_file_lookup.
    + reflexivity.
    + rewrite length_vocab_items. lia.
  - refine (proj2 (proj2 (@size_consistency ascii_data
                             (one_file "v.json" (vocab_file (pair_tokens 900)))
                             "v.json" (vocab_items (pair_tokens 900))
                             1000 3 None _ _ Hsp)
                      eq_refl eq_refl _ Hvalid900) _).
    + apply one_file_lookup.
    + reflexivity.
    + rewrite length_vocab_items. lia.
Defined.

Lemma detokenize_drops_bos_eos_witness :
  detokenize toy_tokenizer [1; 100; 2; 1]
  = Encoding_decode (_model toy_tokenizer) (unshift 3 [100]).
Proof.
  exact (proj1 (detokenize_drops_bos_eos toy_tokenizer [1; 100; 2; 1])).
Defined.

Lemma special_id_decode_fails_witness :
  detokenize toy_tokenizer [5; 0] = Err KeyError.
Proof.
  refine (@special_id_decode_fails ascii_data toy_files toy_path 262 3 None
            toy_tokenizer [5; 0] 0 toy_init _ _ _ _).
  - right. left.
  - cbn. lia.
  - vm_compute. discriminate.
  - vm_compute. discriminate.
Defined.

Lemma id_space_partition_witness :
  num_special_tokens toy_tokenizer = 3 ∧ vocab_size toy_tokenizer = 262.
Proof.
  pose proof (@id_space_partition ascii_data toy_files toy_path 262 3 None
                toy_tokenizer toy_init) as (Hnst & Hvs & _).
  exact (conj Hnst Hvs).
Defined.

Lemma tokenize_roundtrip_witness :
  ∃ ids, tokenize toy_tokenizer [97; 98; 32; 99] false false = Ok ids
         ∧ detokenize toy_tokenizer ids = Ok [97; 98; 32; 99].
Proof.
  refine (@tokenize_roundtrip ascii_data toy_files toy_path 262 3 None
            toy_tokenizer [97; 98; 32; 99] toy_init _ _).
  - lia.
  - reflexivity.
Defined.

Lemma bos_eos_framing_witness :
  tokenize toy_tokenizer [97; 98; 32; 99] true true
  = (λ ids, bos toy_tokenizer :: ids ++ [eos toy_tokenizer])
      <$> tokenize toy_tokenizer [97; 98; 32; 99] false false.
Proof.
  exact (proj1 (@bos_eos_framing ascii_data toy_files toy_path 262 3 None
                  toy_tokenizer [97; 98; 32; 99] toy_init)).
Defined.

(** * Further instances *)

Lemma throttle_nonpositive_interval_witness :
  Throttle.throttle_generator [10; 11; 12] (- 2)
  = Throttle.throttle_generator [10; 11; 12] 2
  ∧ Throttle.throttle_generator [10; 11; 12] 0 = ([], Err ZeroDivisionError).
Proof.
  assert ([10; 11; 12] ≠ []) as Hne by done.
  exact (conj (proj1 (throttle_nonpositive_interval [10; 11; 12] 2))
           (proj2 (throttle_nonpositive_interval [10; 11; 12] 2) Hne)).
Defined.

Lemma throttle_yield_count_witness :
  sublist (Throttle.throttle_generator [10; 11; 12; 13; 14; 15] 4).1
    [10; 11; 12; 13; 14; 15]
  ∧ Z.of_nat (length (Throttle.throttle_generator [10; 11; 12; 13; 14; 15] 4).1)
    = (Z.of_nat (length [10; 11; 12; 13; 14; 15]) + 4 - 2) / 4 + 1.
Proof.
  assert ([10; 11; 12; 13; 14; 15] ≠ []) as Hne by done.
  assert (1 ≤ 4) as Hk by lia.
  exact (throttle_yield_count [10; 11; 12; 13; 14; 15] 4 Hne Hk).
Defined.

Lemma throttle_interval_one_witness :
  Throttle.throttle_generator [10; 11; 12] 1 = ([10; 11; 12], Ok tt).
Proof.
  assert ([10; 11; 12] ≠ []) as Hne by done.
  exact (throttle_interval_one [10; 11; 12] Hne).
Defined.

Lemma throttle_large_interval_witness :
  Throttle.throttle_generator (10 :: [11; 12] ++ [13]) 3 = ([10; 13], Ok tt).
Proof.
  assert (Z.of_nat (length [11; 12]) < 3) as Hk by (cbn; lia).
  exact (throttle_large_interval 10 13 [11; 12] 3 Hk).
Defined.

Lemma reload_errors_witness :
  reload_mergeable_ranks toy_files "vocab/toy.txt" None = Err AssertionError
  ∧ reload_mergeable_ranks toy_files "vocab/none.json" None
    = Err FileNotFoundError.
Proof.
  split.
  - exact (proj1 (reload_errors toy_files "vocab/toy.txt" None) eq_refl).
  - exact (proj1 (proj2 (reload_errors toy_files "vocab/none.json" None))
             eq_refl eq_refl).
Defined.

Lemma reload_truncation_witness :
  reload_mergeable_ranks toy_files toy_path (Some 256)
  = Ok (filter (λ br, br.2 < slice_stop (size (table_of toy_tokens)) 256)
          (table_of toy_tokens)).
Proof. exact (reload_truncation toy_files toy_path _ 256 toy_load). Defined.

Lemma reload_ignores_token_str_witness :
  reload_mergeable_ranks
    (one_file toy_path
       (JList (alter (λ _, JStr "ab") "token_str"%string
                 <$> vocab_items toy_tokens)))
    toy_path None
  = reload_mergeable_ranks toy_files toy_path None.
Proof.
  refine (reload_ignores_token_str toy_files _ toy_path None
            (vocab_items toy_tokens) (λ _, JStr "ab") _ _).
  - apply one_file_lookup.
  - apply one_file_lookup.
Defined.

Lemma reload_table_entries_witness :
  table_of toy_tokens !! [97; 98] = Some 256
  ↔ ∃ (i : nat) x,
      256 = Z.of_nat i
      ∧ truncate (vocab_items toy_tokens) None !! i = Some x
      ∧ entry_token x = Ok [97; 98].
Proof.
  assert (toy_files toy_path = Some (JList (vocab_items toy_tokens))) as Hfile
    by apply one_file_lookup.
  exact (proj1 (reload_table_entries toy_files toy_path None
                  (table_of toy_tokens) (vocab_items toy_tokens)
                  toy_load Hfile) [97; 98] 256).
Defined.

Lemma init_special_rejected_witness :
  @CustomTikTokenizer_init ascii_data toy_files toy_path 10 5
    (Some ["<unk>"; "<s>"; "</s>"; "<SPECIAL_4>"]%string)
  = Err AssertionError.
Proof.
  refine (@init_special_rejected ascii_data toy_files toy_path 10 5
            (Some ["<unk>"; "<s>"; "</s>"; "<SPECIAL_4>"]%string) _).
  refine (proj1 (bool_decide_eq_false (special_ok 10 5 _)) _).
  vm_compute. reflexivity.
Defined.

Lemma init_special_ids_witness :
  decoder_table toy_tokenizer !! unk toy_tokenizer = Some (inl "<unk>"%string)
  ∧ decoder_table toy_tokenizer !! bos toy_tokenizer = Some (inl "<s>"%string)
  ∧ decoder_table toy_tokenizer !! eos toy_tokenizer = Some (inl "</s>"%string).
Proof.
  exact (proj1 (proj2 (@init_special_ids ascii_data toy_files toy_path 262 3
                         None toy_tokenizer toy_init))).
Defined.

Lemma init_decoder_table_witness :
  dom (decoder_table toy_tokenizer) = set_range 262.
Proof.
  exact (proj1 (@init_decoder_table ascii_data toy_files toy_path 262 3 None
                  toy_tokenizer toy_init)).
Defined.

Lemma init_vocab_inverse_witness :
  Z.of_nat (size (vocab toy_tokenizer)) = 262 - 3.
Proof.
  exact (proj1 (proj2 (@init_vocab_inverse ascii_data toy_files toy_path 262 3
                         None toy_tokenizer toy_init))).
Defined.

Lemma detokenize_tokenized_witness :
  detokenize toy_tokenizer [256 + 3] = Ok [97; 98].
Proof.
  refine (@detokenize_tokenized ascii_data toy_files toy_path 262 3 None
            toy_tokenizer [97; 98] [256 + 3] false false toy_init _ _).
  - reflexivity.
  - exact (proj1 encode_ab).
Defined.

Lemma detokenize_concat_witness :
  detokenize toy_tokenizer ([256 + 3] ++ [256 + 3])
  = Ok ([97; 98] ++ [97; 98]).
Proof.
  refine (@detokenize_concat ascii_data toy_files toy_path 262 3 None
            toy_tokenizer [97; 98] [97; 98] [256 + 3] [256 + 3]
            false false false false toy_init _ _ _ _).
  - reflexivity.
  - reflexivity.
  - exact (proj1 encode_ab).
  - exact (proj1 encode_ab).
Defined.


Lemma tokenize_empty_witness :
  tokenize toy_tokenizer [] true true
  = Ok ([bos toy_tokenizer] ++ [eos toy_tokenizer])
  ∧ detokenize toy_tokenizer [] = Ok [].
Proof.
  pose proof (@tokenize_empty ascii_data toy_files toy_path 262 3 None
                toy_tokenizer true true [] toy_init) as (Hids & Hnil & _).
  exact (conj Hids Hnil).
Defined.

Lemma encode_is_tokenize_witness :
  TikTokenizer.encode toy_tokenizer [97; 98] true true 1
  = tokenize toy_tokenizer [97; 98] false false.
Proof.
  refine (@encode_is_tokenize ascii_data toy_files toy_path 262 3 None
            toy_tokenizer [97; 98] true true 1 toy_init _).
  reflexivity.
Defined.

Lemma decode_is_detokenize_witness :
  TikTokenizer.decode toy_tokenizer [1; 259; 2]
  = detokenize toy_tokenizer [1; 259; 2].
Proof. exact (decode_is_detokenize toy_tokenizer [1; 259; 2]). Defined.

Lemma decode_inverts_encode_witness :
  ∃ ids,
    TikTokenizer.encode toy_tokenizer [97; 98; 32; 99] true true 2 = Ok ids
    ∧ Forall (λ id, 3 ≤ id < 262) ids
    ∧ TikTokenizer.decode toy_tokenizer ids = Ok [97; 98; 32; 99].
Proof.
  refine (@decode_inverts_encode ascii_data toy_files toy_path 262 3 None
            toy_tokenizer [97; 98; 32; 99] true true 2 toy_init _ _).
  - lia.
  - reflexivity.
Defined.

Lemma load_tokenizer_result_witness :
  Z.of_nat (size (vocab (@tokenizer_of ascii_data DEFAULT_TIKTOKEN_MAX_VOCAB 3
                           None (wide_tokens 131069)))) = 131069.
Proof.
  destruct (valid_wide_tokens 131069) as [Hvalid Hlen]; [lia|].
  assert (special_ok DEFAULT_TIKTOKEN_MAX_VOCAB 3 None) as Hsp by compute_done.
  assert (Z.of_nat (length (wide_tokens 131069))
          = DEFAULT_TIKTOKEN_MAX_VOCAB - 3) as Hlen'
    by (rewrite Hlen; reflexivity).
  assert (@load_tokenizer ascii_data
            (one_file "v.json" (vocab_file (wide_tokens 131069)))
            None "v.json" "GPTForCausalLM" None None
          = Ok (@tokenizer_of ascii_data DEFAULT_TIKTOKEN_MAX_VOCAB 3 None
                  (wide_tokens 131069), None, 2)) as Hload.
  { unfold load_tokenizer.
    rewrite (@init_vocab_file ascii_data "v.json" (wide_tokens 131069)
               DEFAULT_TIKTOKEN_MAX_VOCAB 3 None eq_refl Hsp Hvalid Hlen').
    reflexivity. }
  pose proof (@load_tokenizer_result ascii_data _ _ _ _ _ _ _ _ _ Hload)
    as (_ & _ & (_ & _ & _ & Hsize) & _).
  exact Hsize.
Defined.

Lemma load_tokenizer_short_file_witness :
  is_err (@load_tokenizer ascii_data toy_files None toy_path "GPTForCausalLM"
            None None).
Proof.
  refine (@load_tokenizer_short_file ascii_data toy_files None toy_path
            "GPTForCausalLM" None None (vocab_items toy_tokens) _ _).
  - apply one_file_lookup.
  - rewrite length_vocab_items. unfold toy_tokens.
    rewrite length_app, length_byte_tokens. cbn. lia.
Defined.

Lemma tokenize_length_bound_witness :
  (length [(256 + 3)%Z] ≤ length (utf8_encode [97%Z; 98%Z]))%nat
  ∧ (length (utf8_encode [97%Z; 98%Z]) ≤ 4 * length [97%Z; 98%Z])%nat
  ∧ ([97; 98] ≠ [] → [256 + 3] ≠ []).
Proof.
  refine (@tokenize_length_bound ascii_data toy_files toy_path 262 3 None
            toy_tokenizer [97; 98] [256 + 3] toy_init _ _).
  - reflexivity.
  - exact (proj1 encode_ab).
Defined.

Lemma detokenize_single_witness :
  3 ≤ 259 < 262 ∧ detokenize toy_tokenizer [259] = Ok (utf8_decode [97; 98]).
Proof.
  refine (@detokenize_single ascii_data toy_files toy_path 262 3 None
            toy_tokenizer 259 [97; 98] toy_init _).
  apply (proj2 (@shifted_ordinary ascii_data 262 3 None toy_tokens
                  259 [97; 98])).
  apply (table_of_rank toy_tokens 256 [97; 98]).
  - apply valid_toy_tokens.
  - reflexivity.
Defined.

Lemma init_reads_prefix_witness :
  @CustomTikTokenizer_init ascii_data
    (one_file toy_path (JList (vocab_items toy_tokens ++ [∅])))
    toy_path 262 3 None
  = @CustomTikTokenizer_init ascii_data toy_files toy_path 262 3 None.
Proof.
  refine (@init_reads_prefix ascii_data toy_files _ toy_path 262 3 None
            (vocab_items toy_tokens) (vocab_items toy_tokens ++ [∅]) _ _ _).
  - apply one_file_lookup.
  - apply one_file_lookup.
  - assert (length (vocab_items toy_tokens) = 259%nat) as Hlen.
    { rewrite length_vocab_items. unfold toy_tokens.
      by rewrite length_app, length_byte_tokens. }
    rewrite !slice_to_nonneg by lia.
    rewrite take_app_le by (rewrite Hlen; lia). reflexivity.
Defined.

Lemma init_smaller_vocab_witness :
  ∃ tok',
    @CustomTikTokenizer_init ascii_data toy_files toy_path 260 3 None = Ok tok'
    ∧ vocab tok' = filter (λ br, br.2 < 260 - 3) (vocab toy_tokenizer)
    ∧ special_tokens tok' = special_tokens toy_tokenizer
    ∧ unk tok' = unk toy_tokenizer ∧ bos tok' = bos toy_tokenizer
    ∧ eos tok' = eos toy_tokenizer.
Proof.
  refine (@init_smaller_vocab ascii_data toy_files toy_path 262 260 3 None
            toy_tokenizer toy_init _).
  lia.
Defined.

Lemma pattern_lossless_witness :
  concat (@findall (@PATTERN_TIKTOKEN_V2 ascii_data) [97; 49; 50; 32; 98])
  = [97; 49; 50; 32; 98].
Proof. exact (proj1 (@pattern_lossless ascii_data [97; 49; 50; 32; 98])). Defined.

Lemma pattern_digits_alone_witness : [49] = [49].
Proof.
  refine (@pattern_digits_alone ascii_data [97; 49; 50; 32; 98] [49] 49
            ascii_separate _ _ _).
  - vm_compute. right. left.
  - left.
  - reflexivity.
Defined.

Lemma pattern_words_apart_witness :
  ∃ pre word,
    [32; 98] = pre ++ word ∧ (length pre ≤ 1)%nat
    ∧ Forall (λ c, @not_crlf_L_N ascii_data c = true) pre
    ∧ Forall (λ c, @wordlike ascii_data c = true) word
    ∧ 98 ∈ word.
Proof.
  refine (@pattern_words_apart ascii_data [97; 49; 50; 32; 98] [32; 98] 98
            ascii_separate _ _ _).
  - vm_compute. do 3 right. left.
  - right. left.
  - reflexivity.
Defined.
